(** * obsidian-exporter: a shallow embedding of the export walk

    The development follows the exporter script: path helpers, the
    content hash used for unique names, the file system the script reads
    and writes, link parsing, path resolution, the two dedup registries,
    the recursive walk over note links, and the link rewrite pass. *)

From Stdlib Require Import List String Ascii NArith ZArith Bool Arith Lia.
Import ListNotations.
Local Open Scope string_scope.
Local Open Scope list_scope.

(** ** Strings

    A JavaScript string is kept as the bytes of its UTF-8 encoding
    ([string] over [ascii]): the script cuts and compares strings at ASCII
    characters only, where bytes and code units agree.  A file's content
    is the string of its bytes. *)

Module Str.

Definition chr (n : nat) : ascii := ascii_of_nat n.

Definition slash : ascii := "/"%char.
Definition dot : ascii := "."%char.

Fixpoint rev_to (s : string) (acc : string) : string :=
  match s with
  | EmptyString => acc
  | String c r => rev_to r (String c acc)
  end.

Definition rev (s : string) : string := rev_to s EmptyString.

(** [s.split(c)]: the pieces between the occurrences of [c]; never empty. *)
Fixpoint split_acc (c : ascii) (s : string) (cur : string) : list string :=
  match s with
  | EmptyString => [rev cur]
  | String a r =>
      if Ascii.eqb a c then rev cur :: split_acc c r EmptyString
      else split_acc c r (String a cur)
  end.

Definition split (c : ascii) (s : string) : list string :=
  split_acc c s EmptyString.

(** [s.includes(c)] for a one-character needle. *)
Fixpoint includes (c : ascii) (s : string) : bool :=
  match s with
  | EmptyString => false
  | String a r => Ascii.eqb a c || includes c r
  end.

Definition startsWith (p s : string) : bool := String.prefix p s.

Definition endsWith (p s : string) : bool := String.prefix (rev p) (rev s).

(** Index of the last occurrence of [c], if any. *)
Fixpoint lastIndexOf_from (c : ascii) (s : string) (i : nat) (found : option nat)
  : option nat :=
  match s with
  | EmptyString => found
  | String a r =>
      lastIndexOf_from c r (S i) (if Ascii.eqb a c then Some i else found)
  end.

Definition lastIndexOf (c : ascii) (s : string) : option nat :=
  lastIndexOf_from c s 0 None.

Definition take (n : nat) (s : string) : string := String.substring 0 n s.

Definition drop (n : nat) (s : string) : string :=
  String.substring n (String.length s - n) s.

Fixpoint forallb (f : ascii -> bool) (s : string) : bool :=
  match s with
  | EmptyString => true
  | String a r => f a && forallb f r
  end.

Definition is_digit (a : ascii) : bool :=
  let n := nat_of_ascii a in ((48 <=? n) && (n <=? 57))%nat.

Definition is_alpha (a : ascii) : bool :=
  let n := nat_of_ascii a in
  (((65 <=? n) && (n <=? 90)) || ((97 <=? n) && (n <=? 122)))%nat.

Definition is_alnum (a : ascii) : bool := is_alpha a || is_digit a.

End Str.

(** ** Paths

    Every path the script holds is the result of [path.join] or
    [path.resolve], hence absolute and normalized.  Such a path is kept as
    its list of segments from the root; link targets stay strings and are
    split on "/" when they are joined to a directory. *)

Module Path.

Definition path := list string.

Fixpoint eqb (p q : path) : bool :=
  match p, q with
  | [], [] => true
  | a :: p', b :: q' => String.eqb a b && eqb p' q'
  | _, _ => false
  end.

(** Normalisation of [path.join] / [path.resolve] on an absolute base:
    empty and "." segments vanish, ".." pops (the root stays the root). *)
Definition push_seg (acc : path) (seg : string) : path :=
  if String.eqb seg "" then acc
  else if String.eqb seg "." then acc
  else if String.eqb seg ".." then removelast acc
  else acc ++ [seg].

Definition join (dir : path) (rel : string) : path :=
  fold_left push_seg (Str.split Str.slash rel) dir.

(** [path.dirname] and [path.basename] of an absolute normalized path. *)
Definition dirname (p : path) : path := removelast p.

Definition basename (p : path) : string := last p "".

(** [path.basename] of a link string: the last non-empty portion. *)
Definition basename_str (s : string) : string :=
  last (filter (fun x => negb (String.eqb x "")) (Str.split Str.slash s)) "".

(** [path.extname] of a single name: from the last dot on, unless there is
    no dot, the only dot opens the name, or the name is "..". *)
Definition extname_seg (b : string) : string :=
  match Str.lastIndexOf Str.dot b with
  | None => ""
  | Some 0 => ""
  | Some i => if String.eqb b ".." then "" else Str.drop i b
  end.

Definition extname (s : string) : string := extname_seg (basename_str s).

(** [path.parse(name).name] and [.ext] of a single name. *)
Definition parse_ext (b : string) : string := extname_seg b.

Definition parse_name (b : string) : string :=
  Str.take (String.length b - String.length (extname_seg b)) b.

(** [path.relative(from, to)] of two absolute normalized paths, as the
    segments of the relative path. *)
Fixpoint relative (from to : path) : list string :=
  match from, to with
  | a :: from', b :: to' =>
      if String.eqb a b then relative from' to'
      else map (fun _ => "..") from ++ to
  | _, _ => map (fun _ => "..") from ++ to
  end.

Definition is_prefix (d p : path) : bool :=
  eqb d (firstn (List.length d) p).

End Path.

(** ** SHA-256

    [createHash("sha256").update(content).digest("hex")], after FIPS 180-4,
    on 32-bit words kept as [N] with the wrap-around written out. *)

Module Sha256.

Local Open Scope N_scope.

Definition w32 (x : N) : N := x mod 4294967296.

Definition add32 (x y : N) : N := w32 (x + y).

Definition rotr (n x : N) : N :=
  N.lor (N.shiftr x n) (w32 (N.shiftl x (32 - n))).

Definition not32 (x : N) : N := 4294967295 - x.

Definition Ch (x y z : N) : N :=
  N.lxor (N.land x y) (N.land (not32 x) z).

Definition Maj (x y z : N) : N :=
  N.lxor (N.lxor (N.land x y) (N.land x z)) (N.land y z).

Definition Sigma0 (x : N) : N :=
  N.lxor (N.lxor (rotr 2 x) (rotr 13 x)) (rotr 22 x).

Definition Sigma1 (x : N) : N :=
  N.lxor (N.lxor (rotr 6 x) (rotr 11 x)) (rotr 25 x).

Definition sigma0 (x : N) : N :=
  N.lxor (N.lxor (rotr 7 x) (rotr 18 x)) (N.shiftr x 3).

Definition sigma1 (x : N) : N :=
  N.lxor (N.lxor (rotr 17 x) (rotr 19 x)) (N.shiftr x 10).

Definition K : list N :=
  [1116352408; 1899447441; 3049323471; 3921009573; 961987163; 1508970993;
   2453635748; 2870763221; 3624381080; 310598401; 607225278; 1426881987;
   1925078388; 2162078206; 2614888103; 3248222580; 3835390401; 4022224774;
   264347078; 604807628; 770255983; 1249150122; 1555081692; 1996064986;
   2554220882; 2821834349; 2952996808; 3210313671; 3336571891; 3584528711;
   113926993; 338241895; 666307205; 773529912; 1294757372; 1396182291;
   1695183700; 1986661051; 2177026350; 2456956037; 2730485921; 2820302411;
   3259730800; 3345764771; 3516065817; 3600352804; 4094571909; 275423344;
   430227734; 506948616; 659060556; 883997877; 958139571; 1322822218;
   1537002063; 1747873779; 1955562222; 2024104815; 2227730452; 2361852424;
   2428436474; 2756734187; 3204031479; 3329325298].

Definition H0 : list N :=
  [1779033703; 3144134277; 1013904242; 2773480762;
   1359893119; 2600822924; 528734635; 1541459225].

Definition bytes_of (s : string) : list N :=
  map N_of_ascii (list_ascii_of_string s).

(** Big-endian bytes of [x], [n] of them. *)
Fixpoint be_bytes (n : nat) (x : N) : list N :=
  match n with
  | O => []
  | S m => N.shiftr x (8 * N.of_nat m) mod 256 :: be_bytes m x
  end.

(** Padding: 0x80, zeros up to 56 modulo 64, then the bit length on 8 bytes. *)
Definition pad (msg : list N) : list N :=
  let len := List.length msg in
  let zeros := ((64 - ((len + 9) mod 64)) mod 64)%nat in
  msg ++ [128] ++ repeat 0 zeros ++ be_bytes 8 (8 * N.of_nat len).

Fixpoint words_of (n : nat) (bs : list N) : list N :=
  match n with
  | O => []
  | S m =>
      match bs with
      | a :: b :: c :: d :: r =>
          (a * 16777216 + b * 65536 + c * 256 + d) :: words_of m r
      | _ => []
      end
  end.

(** The message schedule, most recent word first. *)
Fixpoint schedule (n : nat) (rw : list N) : list N :=
  match n with
  | O => rw
  | S m =>
      let w := add32 (add32 (sigma1 (nth 1 rw 0)) (nth 6 rw 0))
                     (add32 (sigma0 (nth 14 rw 0)) (nth 15 rw 0)) in
      schedule m (w :: rw)
  end.

Record regs := Regs { ra : N; rb : N; rc : N; rd : N;
                      re : N; rf : N; rg : N; rh : N }.

Definition round (r : regs) (kw : N * N) : regs :=
  let (k, w) := kw in
  let t1 := add32 (add32 (add32 (rh r) (Sigma1 (re r)))
                         (add32 (Ch (re r) (rf r) (rg r)) k)) w in
  let t2 := add32 (Sigma0 (ra r)) (Maj (ra r) (rb r) (rc r)) in
  Regs (add32 t1 t2) (ra r) (rb r) (rc r) (add32 (rd r) t1) (re r) (rf r) (rg r).

Definition compress (h : regs) (block : list N) : regs :=
  let w := List.rev (schedule 48 (List.rev (words_of 16 block))) in
  let r := fold_left round (combine K w) h in
  Regs (add32 (ra h) (ra r)) (add32 (rb h) (rb r)) (add32 (rc h) (rc r))
       (add32 (rd h) (rd r)) (add32 (re h) (re r)) (add32 (rf h) (rf r))
       (add32 (rg h) (rg r)) (add32 (rh h) (rh r)).

Fixpoint blocks (n : nat) (bs : list N) (h : regs) : regs :=
  match n with
  | O => h
  | S m => blocks m (skipn 64 bs) (compress h (firstn 64 bs))
  end.

Definition init : regs :=
  Regs 1779033703 3144134277 1013904242 2773480762
       1359893119 2600822924 528734635 1541459225.

Definition digest_words (s : string) : list N :=
  let p := pad (bytes_of s) in
  let r := blocks (List.length p / 64) p init in
  [ra r; rb r; rc r; rd r; re r; rf r; rg r; rh r].

Definition hex_digit (n : N) : ascii :=
  if n <? 10 then ascii_of_N (48 + n) else ascii_of_N (87 + n).

(** The [n] low hexadecimal digits of [x], most significant first. *)
Fixpoint hex_of (n : nat) (x : N) : string :=
  match n with
  | O => EmptyString
  | S m => String (hex_digit (N.shiftr x (4 * N.of_nat m) mod 16)) (hex_of m x)
  end.

Definition hex (s : string) : string :=
  String.concat "" (map (hex_of 8) (digest_words s)).

End Sha256.

(** ** The file system

    A file system is the list of its files, each an absolute path with its
    content, in directory order; a directory is a proper prefix of a file's
    path, and every directory can be searched and written.  [denied] lists
    the files that cannot be read and [readonly] those that cannot be
    written (EACCES). *)

Module Fs.

Import Path.

Record t := Make {
  files : list (path * string);
  denied : list path;
  readonly : list path
}.

(** A file system all of whose files can be written. *)
Definition Mk (files : list (path * string)) (denied : list path) : t :=
  Make files denied [].

Inductive errno := ENOENT | EACCES | EISDIR | ENOTDIR | EEXIST.

Fixpoint lookup (l : list (path * string)) (p : path) : option string :=
  match l with
  | [] => None
  | (q, c) :: r => if Path.eqb q p then Some c else lookup r p
  end.

Definition is_file (f : t) (p : path) : bool :=
  match lookup (files f) p with Some _ => true | None => false end.

Definition is_dir (f : t) (p : path) : bool :=
  existsb (fun e => Path.is_prefix p (fst e)
                    && (List.length p <? List.length (fst e))%nat) (files f).

Definition is_denied (f : t) (p : path) : bool :=
  existsb (Path.eqb p) (denied f).

Definition is_readonly (f : t) (p : path) : bool :=
  existsb (Path.eqb p) (readonly f).

(** Some proper or improper prefix of [d] is a file: [mkdir -p d] fails. *)
Fixpoint blocked (f : t) (n : nat) (d : path) : bool :=
  match n with
  | O => false
  | S m => is_file f (firstn n d) || blocked f m d
  end.

(** The error for a path at which there is nothing: ENOTDIR when the path
    runs through a file, else ENOENT. *)
Definition missing (f : t) (p : path) : errno :=
  if blocked f (List.length (dirname p)) (dirname p) then ENOTDIR else ENOENT.

(** [fs.access(p)]: the path exists. *)
Definition access (f : t) (p : path) : option errno :=
  if is_file f p || is_dir f p then None else Some (missing f p).

(** [fs.access(p, R_OK)]. *)
Definition access_r (f : t) (p : path) : option errno :=
  if is_file f p then (if is_denied f p then Some EACCES else None)
  else if is_dir f p then None else Some (missing f p).

(** [fs.stat(p).size]; a directory is given size 0. *)
Definition stat_size (f : t) (p : path) : errno + nat :=
  match lookup (files f) p with
  | Some c => inr (String.length c)
  | None => if is_dir f p then inr 0%nat else inl (missing f p)
  end.

(** [fs.readFile(p)]: the bytes of the file. *)
Definition readFile (f : t) (p : path) : errno + string :=
  match lookup (files f) p with
  | Some c => if is_denied f p then inl EACCES else inr c
  | None => if is_dir f p then inl EISDIR else inl (missing f p)
  end.

Fixpoint put (l : list (path * string)) (p : path) (c : string)
  : list (path * string) :=
  match l with
  | [] => [(p, c)]
  | (q, d) :: r => if Path.eqb q p then (q, c) :: r else (q, d) :: put r p c
  end.

Definition remove (l : list (path * string)) (p : path) : list (path * string) :=
  filter (fun e => negb (Path.eqb (fst e) p)) l.

Definition without (l : list path) (p : path) : list path :=
  filter (fun q => negb (Path.eqb q p)) l.

(** The permission list [l] once [dst] has taken the permission of [src]. *)
Definition as_of (l : list path) (src dst : path) : list path :=
  if existsb (Path.eqb src) l then dst :: without l dst else without l dst.

(** [fs.mkdir(dirname(dst), {recursive: true})] then [fs.copyFile(src, dst)],
    for a source that passed [access_r].  The directory cannot be made
    where a file is in its place (EEXIST) or on the way to it (ENOTDIR).
    The destination is opened for writing, a copy of a file onto itself
    changes nothing, and the copy takes the permissions of the source. *)
Definition copyFile (f : t) (src dst : path) : errno + t :=
  if blocked f (List.length (dirname dst)) (dirname dst) then
    inl (if is_file f (dirname dst) then EEXIST else ENOTDIR)
  else
    match readFile f src with
    | inl e => inl e
    | inr c =>
        if is_dir f dst then inl EISDIR
        else if is_file f dst && is_readonly f dst then inl EACCES
        else if Path.eqb src dst then inr f
        else inr (Make (put (files f) dst c) (without (denied f) dst)
                       (as_of (readonly f) src dst))
    end.

(** [fs.mkdir(dir)], not recursive: the parent must be a directory.  An
    empty directory leaves no trace in the file system as it is kept here,
    and a directory is there when a file lies below it. *)
Definition mkdir (f : t) (dir : path) : errno + t :=
  if is_file f dir || is_dir f dir then inl EEXIST
  else if is_dir f (dirname dir) then inr f
  else inl (missing f dir).

(** [fs.rename(src, dst)] of a file; the script only renames within one
    directory, so the destination's directory exists when the source does.
    The file keeps its permissions under its new name. *)
Definition rename (f : t) (src dst : path) : errno + t :=
  match lookup (files f) src with
  | None => if is_dir f src then inl EISDIR else inl (missing f src)
  | Some c =>
      if Path.eqb src dst then inr f
      else if is_dir f dst then inl EISDIR
      else inr (Make (put (remove (files f) src) dst c)
                     (without (as_of (denied f) src dst) src)
                     (without (as_of (readonly f) src dst) src))
  end.

(** [fs.writeFile(p, c)]: an existing file must be writable and keeps its
    permissions; a new file needs its directory. *)
Definition writeFile (f : t) (p : path) (c : string) : errno + t :=
  match lookup (files f) p with
  | Some _ =>
      if is_readonly f p then inl EACCES
      else inr (Make (put (files f) p c) (denied f) (readonly f))
  | None =>
      if is_dir f p then inl EISDIR
      else if is_dir f (dirname p) then
        inr (Make (put (files f) p c) (without (denied f) p)
                  (without (readonly f) p))
      else inl (missing f p)
  end.

(** [fs.readdir(dir, {withFileTypes: true})]: each entry once, in directory
    order, with its [isDirectory()]. *)
Fixpoint entries (dir : path) (l : list (path * string)) (seen : list string)
  : list (string * bool) :=
  match l with
  | [] => []
  | (p, _) :: r =>
      if Path.is_prefix dir p && (List.length dir <? List.length p)%nat then
        let name := nth (List.length dir) p "" in
        if existsb (String.eqb name) seen then entries dir r seen
        else (name, (S (List.length dir) <? List.length p)%nat)
               :: entries dir r (name :: seen)
      else entries dir r seen
  end.

Definition readdir (f : t) (dir : path) : errno + list (string * bool) :=
  if is_file f dir then inl ENOTDIR
  else if is_dir f dir then inr (entries dir (files f) [])
  else inl (missing f dir).

(** The longest path of the file system bounds the depth of any directory. *)
Definition depth (f : t) : nat :=
  fold_right (fun e m => Nat.max (List.length (fst e)) m) 0%nat (files f).

End Fs.

(** ** Run state and outcomes *)

Import Path.

(** Console output of the script. *)
Inductive event :=
| Warn (msg : string)          (* logWarning *)
| Info (msg : string)          (* console.log *)
| Err (msg : string).          (* console.error *)

(** What a JavaScript exception of the run can be. *)
Inductive exn :=
| IOError (e : Fs.errno) (p : path)
| URIError
| SyntaxError.

(** A JavaScript [Map] keeps its keys in insertion order: [set] on a present
    key updates in place, on a new key appends. *)
Module JsMap.

Definition t := list (path * string).

Fixpoint set (m : t) (k : path) (v : string) : t :=
  match m with
  | [] => [(k, v)]
  | (q, w) :: r => if Path.eqb q k then (q, v) :: r else (q, w) :: set r k v
  end.

Definition delete (m : t) (k : path) : t :=
  filter (fun e => negb (Path.eqb (fst e) k)) m.

Definition has (m : t) (k : path) : bool :=
  existsb (fun e => Path.eqb (fst e) k) m.

End JsMap.

(** The plain object [renamedFiles], used as a map from strings to strings.
    It is made by [{}], so a read also finds what every plain object
    inherits from [Object.prototype]. *)
Module JsObj.

(** The own properties, in insertion order. *)
Definition t := list (string * string).

(** What a read gives: a string the script stored, or the inherited
    member of that name. *)
Inductive value :=
| Stored (v : string)
| Inherited (name : string).

(** The property names of [Object.prototype]. *)
Definition prototype : list string :=
  ["constructor"; "__defineGetter__"; "__defineSetter__"; "hasOwnProperty";
   "__lookupGetter__"; "__lookupSetter__"; "isPrototypeOf";
   "propertyIsEnumerable"; "toString"; "valueOf"; "__proto__";
   "toLocaleString"].

Definition inherited (k : string) : bool := existsb (String.eqb k) prototype.

(** The own property [k]. *)
Fixpoint get (o : t) (k : string) : option string :=
  match o with
  | [] => None
  | (q, v) :: r => if String.eqb q k then Some v else get r k
  end.

(** [o[k] = v] for a string [v]: the accessor ["__proto__"] ignores it. *)
Fixpoint assign (o : t) (k v : string) : t :=
  match o with
  | [] => [(k, v)]
  | (q, w) :: r => if String.eqb q k then (q, v) :: r else (q, w) :: assign r k v
  end.

Definition set (o : t) (k v : string) : t :=
  if String.eqb k "__proto__" then o else assign o k v.

(** [o[k]]: the own property, else the inherited member. *)
Definition read (o : t) (k : string) : option value :=
  match get o k with
  | Some v => Some (Stored v)
  | None => if inherited k then Some (Inherited k) else None
  end.

(** Only the empty string is falsy among these values. *)
Definition truthy (v : value) : bool :=
  match v with
  | Stored v => negb (String.eqb v "")
  | Inherited _ => true
  end.

(** The value as a string, as a template, a property key or
    [encodeURIComponent] takes it: a built-in function prints as native
    code, the prototype object as an object. *)
Definition to_string (v : value) : string :=
  match v with
  | Stored v => v
  | Inherited name =>
      if String.eqb name "__proto__" then "[object Object]"
      else "function "
           ++ (if String.eqb name "constructor" then "Object" else name)
           ++ "() { [native code] }"
  end.

(** [o[k] || d]. *)
Definition get_or (o : t) (k d : string) : value :=
  match read o k with
  | Some v => if truthy v then v else Stored d
  | None => Stored d
  end.

End JsObj.

(** A JavaScript [Set] of strings. *)
Module JsSet.

Definition t := list string.

Definition has (s : t) (x : string) : bool := existsb (String.eqb x) s.

Definition add (s : t) (x : string) : t := if has s x then s else s ++ [x].

End JsSet.

Record state := State {
  fsys : Fs.t;
  uniqueAttachments : JsMap.t;
  uniqueNotes : JsMap.t;
  visitedNotes : JsSet.t;
  renamedFiles : JsObj.t;
  console : list event
}.

Definition set_fs (s : state) (f : Fs.t) : state :=
  State f (uniqueAttachments s) (uniqueNotes s) (visitedNotes s)
        (renamedFiles s) (console s).

Definition set_attachments (s : state) (m : JsMap.t) : state :=
  State (fsys s) m (uniqueNotes s) (visitedNotes s) (renamedFiles s) (console s).

Definition set_notes (s : state) (m : JsMap.t) : state :=
  State (fsys s) (uniqueAttachments s) m (visitedNotes s) (renamedFiles s)
        (console s).

Definition set_visited (s : state) (v : JsSet.t) : state :=
  State (fsys s) (uniqueAttachments s) (uniqueNotes s) v (renamedFiles s)
        (console s).

Definition set_renamed (s : state) (o : JsObj.t) : state :=
  State (fsys s) (uniqueAttachments s) (uniqueNotes s) (visitedNotes s) o
        (console s).

Definition emit (s : state) (e : event) : state :=
  State (fsys s) (uniqueAttachments s) (uniqueNotes s) (visitedNotes s)
        (renamedFiles s) (console s ++ [e]).

(** How a piece of the script ends: normally, by an exception that
    propagates, by [process.exit], or (the model only) out of fuel. *)
Inductive outcome (A : Type) :=
| Ok (a : A) (s : state)
| Throw (e : exn) (s : state)
| Exit (code : nat) (s : state)
| OutOfFuel.

Arguments Ok {A} a s.
Arguments Throw {A} e s.
Arguments Exit {A} code s.
Arguments OutOfFuel {A}.

Definition bind {A B} (m : outcome A) (k : A -> state -> outcome B) : outcome B :=
  match m with
  | Ok a s => k a s
  | Throw e s => Throw e s
  | Exit c s => Exit c s
  | OutOfFuel => OutOfFuel
  end.

Notation "'let*' ( x , s ) := m 'in' k" :=
  (bind m (fun x s => k)) (at level 10, x name, s name, k at level 200).

(** The path as a string, for messages. *)
Definition show (p : path) : string := "/" ++ String.concat "/" p.

(** ** Constants and the two file helpers *)

Definition VAULT_DIR : path := ["Users"; "avcton"; "Mind Palace"].
Definition ATTACHMENTS_DIR : path := VAULT_DIR ++ ["_attachments"].
Definition EXCALIDRAW_REPLACEMENT : string := ".dark.png".

Definition logWarning (s : state) (msg : string) : state := emit s (Warn msg).

(** [copyFileToOutput]: a missing source is a warning, any other failure of
    access, mkdir or copy is thrown again. *)
Definition copyFileToOutput (sourcePath destinationPath : path) (s : state)
  : outcome unit :=
  match Fs.access_r (fsys s) sourcePath with
  | Some Fs.ENOENT =>
      Ok tt (logWarning s ("Source file not found: " ++ show sourcePath))
  | Some e => Throw (IOError e sourcePath) s
  | None =>
      match Fs.copyFile (fsys s) sourcePath destinationPath with
      | inl Fs.ENOENT =>
          Ok tt (logWarning s ("Source file not found: " ++ show sourcePath))
      | inl e => Throw (IOError e destinationPath) s
      | inr f => Ok tt (set_fs s f)
      end
  end.

(** [try { await fs.access(dir) } catch { await fs.mkdir(dir) }], the
    opening of both walks: the shared directory is made when nothing is
    there, which fails when the output directory itself is missing. *)
Definition ensureDir (dir : path) (s : state) : outcome unit :=
  match Fs.access (fsys s) dir with
  | None => Ok tt s
  | Some _ =>
      match Fs.mkdir (fsys s) dir with
      | inl e => Throw (IOError e dir) s
      | inr f => Ok tt (set_fs s f)
      end
  end.

(** The content-derived suffix: the first 8 hex characters of SHA-256. *)
Definition hashSuffix (fileContent : string) : string :=
  Str.take 8 (Sha256.hex fileContent).

Definition uniqueNameOf (name fileContent : string) : string :=
  parse_name name ++ "_" ++ hashSuffix fileContent ++ parse_ext name.

(** [generateUniqueName]: any failure to read ends the process with code 1. *)
Definition generateUniqueName (filePath : path) (s : state) : outcome string :=
  match Fs.readFile (fsys s) filePath with
  | inr fileContent => Ok (uniqueNameOf (basename filePath) fileContent) s
  | inl _ =>
      Exit 1 (emit s (Err ("Error generating unique name for " ++ show filePath)))
  end.

(** ** The collision pattern

    [new RegExp(`^${stem}(_[a-zA-Z0-9]+)?\\.[a-zA-Z0-9]+$`)]: the stem is
    spliced in as pattern source, not as a literal.

    The regular-expression engine is the platform's, not the script's: the
    script is read over any engine.  [RegExp source] is [None] when the
    constructor throws a SyntaxError, else the [test] of the pattern. *)

Class RegExpEngine := { RegExp : string -> option (string -> bool) }.

(** A reference engine for the patterns the script builds, on a fragment
    of the pattern language: ASCII characters with no meaning of their own
    in a pattern, ".", groups and the quantifiers "*", "+" and "?", tested
    on ASCII names.  On that fragment it answers as the platform does.  For
    a source outside the fragment it answers [None], also where the
    platform's constructor accepts the source.  The theorems of the
    Properties section hold for every engine; only the concrete stores at
    the end run on this one, with stems inside the fragment. *)
Module Regex.

Inductive re :=
| Void
| Eps
| Chr (c : ascii)
| AnyChar                      (* "." : any character but a line terminator *)
| Alnum                        (* [a-zA-Z0-9] *)
| Seq (a b : re)
| Alt (a b : re)
| Star (a : re).

Fixpoint nullable (r : re) : bool :=
  match r with
  | Void => false
  | Eps => true
  | Chr _ => false
  | AnyChar => false
  | Alnum => false
  | Seq a b => nullable a && nullable b
  | Alt a b => nullable a || nullable b
  | Star _ => true
  end.

Definition line_terminator (c : ascii) : bool :=
  Ascii.eqb c (Str.chr 10) || Ascii.eqb c (Str.chr 13).

Fixpoint deriv (c : ascii) (r : re) : re :=
  match r with
  | Void => Void
  | Eps => Void
  | Chr d => if Ascii.eqb c d then Eps else Void
  | AnyChar => if line_terminator c then Void else Eps
  | Alnum => if Str.is_alnum c then Eps else Void
  | Seq a b =>
      if nullable a then Alt (Seq (deriv c a) b) (deriv c b)
      else Seq (deriv c a) b
  | Alt a b => Alt (deriv c a) (deriv c b)
  | Star a => Seq (deriv c a) (Star a)
  end.

(** Whole-string match, as [^...$] asks. *)
Fixpoint matches (r : re) (s : string) : bool :=
  match s with
  | EmptyString => nullable r
  | String c t => matches (deriv c r) t
  end.

Definition Plus (a : re) : re := Seq a (Star a).
Definition Opt (a : re) : re := Alt a Eps.

(** Characters with no meaning of their own in a pattern. *)
Definition plain (c : ascii) : bool :=
  negb (existsb (Ascii.eqb c)
          (list_ascii_of_string "\^$.*+?()[]{}|")).

(** A quantifier after an atom; a lazy "?" after it changes no whole-string
    match. *)
Definition quantified (a : re) (s : string) : re * string :=
  let lazy t :=
    match t with String "?"%char u => u | _ => t end in
  match s with
  | String "*"%char t => (Star a, lazy t)
  | String "+"%char t => (Plus a, lazy t)
  | String "?"%char t => (Opt a, lazy t)
  | _ => (a, s)
  end.

(** Pattern source to [re]: plain characters, ".", groups and the
    quantifiers "*", "+", "?".  [parse_seq] reads up to a closing bracket
    or the end and returns what is left.  [None]: a syntax error, or a
    construct beyond this fragment (escapes, classes, braces, anchors,
    alternation and "(?" groups). *)
Fixpoint parse_seq (fuel : nat) (s : string) (cur : re) : option (re * string) :=
  match fuel with
  | O => None
  | S f =>
      match s with
      | EmptyString => Some (cur, EmptyString)
      | String c t =>
          if Ascii.eqb c ")"%char then Some (cur, s)
          else if Ascii.eqb c "("%char then
            match t with
            | String "?"%char _ => None
            | _ =>
                match parse_seq f t Eps with
                | Some (g, String ")"%char u) =>
                    let (a, v) := quantified g u in parse_seq f v (Seq cur a)
                | _ => None
                end
            end
          else if Ascii.eqb c "."%char then
            let (a, v) := quantified AnyChar t in parse_seq f v (Seq cur a)
          else if plain c then
            let (a, v) := quantified (Chr c) t in parse_seq f v (Seq cur a)
          else None
      end
  end.

Definition parse (s : string) : option re :=
  match parse_seq (S (String.length s)) s Eps with
  | Some (r, EmptyString) => Some r
  | _ => None
  end.

(** The tail of the pattern: [(_[a-zA-Z0-9]+)?\.[a-zA-Z0-9]+]. *)
Definition suffix_re : re :=
  Seq (Opt (Seq (Chr "_"%char) (Plus Alnum))) (Seq (Chr "."%char) (Plus Alnum)).

(** The source of that tail, with the closing anchor. *)
Definition tail : string := "(_[a-zA-Z0-9]+)?\.[a-zA-Z0-9]+$".

(** A source "^" stem tail whose stem lies in the fragment compiles to the
    whole-string match of the stem followed by the tail; the reference
    engine takes no other source. *)
Definition compile (source : string) : option (string -> bool) :=
  match source with
  | String "^"%char rest =>
      if Str.endsWith tail rest then
        match parse (Str.take (String.length rest - String.length tail) rest) with
        | Some r => Some (matches (Seq r suffix_re))
        | None => None
        end
      else None
  | _ => None
  end.

End Regex.

#[global] Instance referenceEngine : RegExpEngine := {| RegExp := Regex.compile |}.

(** ** Text

    [fs.readFile(p, "utf8")] decodes the bytes of a file, and an ill-formed
    sequence comes out as U+FFFD.  A text is kept here as the UTF-8 bytes
    of the decoded string: what [fs.writeFile(p, text, "utf8")] writes. *)

Module Utf8.

Definition between (lo hi b : nat) : bool := ((lo <=? b) && (b <=? hi))%nat.

(** For a lead byte: the range of the byte that must follow it and the
    number of bytes that follow in all; [None] for a byte that leads no
    well-formed sequence. *)
Definition lead (b : nat) : option (nat * nat * nat) :=
  if between 194 223 b then Some (128, 191, 1)%nat
  else if (b =? 224)%nat then Some (160, 191, 2)%nat
  else if between 225 236 b || between 238 239 b then Some (128, 191, 2)%nat
  else if (b =? 237)%nat then Some (128, 159, 2)%nat
  else if (b =? 240)%nat then Some (144, 191, 3)%nat
  else if between 241 243 b then Some (128, 191, 3)%nat
  else if (b =? 244)%nat then Some (128, 143, 3)%nat
  else None.

(** U+FFFD in UTF-8. *)
Definition replacement : string :=
  String (Str.chr 239) (String (Str.chr 191) (String (Str.chr 189) EmptyString)).

(** The decoder between two characters, or inside one: the bytes read so
    far, how many are still to come, and the range of the next. *)
Inductive pending :=
| Idle
| Inside (read : string) (more lo hi : nat).

(** The decoded text.  An ill-formed sequence gives one U+FFFD for its
    longest well-formed beginning, and decoding goes on at the byte that
    broke it. *)
Fixpoint decode (s : string) (st : pending) : string :=
  match s with
  | EmptyString =>
      match st with
      | Idle => EmptyString
      | Inside _ _ _ _ => replacement
      end
  | String c t =>
      let b := nat_of_ascii c in
      let fresh :=
        if (b <? 128)%nat then String c (decode t Idle)
        else
          match lead b with
          | Some (lo, hi, more) =>
              decode t (Inside (String c EmptyString) more lo hi)
          | None => (replacement ++ decode t Idle)%string
          end in
      match st with
      | Idle => fresh
      | Inside read more lo hi =>
          if between lo hi b then
            match more with
            | S (S m) =>
                decode t (Inside (read ++ String c EmptyString)%string (S m) 128 191)
            | _ => (read ++ String c (decode t Idle))%string
            end
          else (replacement ++ fresh)%string
      end
  end.

Definition text (bytes : string) : string := decode bytes Idle.

(** The bytes [b :: bs] are one well-formed sequence. *)
Definition well_formed (b : nat) (bs : string) : bool :=
  if (b <? 128)%nat then String.eqb bs EmptyString
  else
    match lead b, bs with
    | Some (lo, hi, more), String c _ =>
        (String.length bs =? more)%nat && between lo hi (nat_of_ascii c)
    | _, _ => false
    end.

(** U+2028 and U+2029 in UTF-8. *)
Definition line_separator : string :=
  String (Str.chr 226) (String (Str.chr 128) (String (Str.chr 168) EmptyString)).
Definition paragraph_separator : string :=
  String (Str.chr 226) (String (Str.chr 128) (String (Str.chr 169) EmptyString)).

(** A line terminator stands at the head of [s]: "." matches none. *)
Definition terminator_ahead (s : string) : bool :=
  Str.startsWith (String (Str.chr 10) EmptyString) s
  || Str.startsWith (String (Str.chr 13) EmptyString) s
  || Str.startsWith line_separator s
  || Str.startsWith paragraph_separator s.

End Utf8.

(** ** Link syntax

    The two link patterns are scanned as the regular-expression engine
    does: leftmost match first, lazy quantifiers shortest first, and the
    search goes on after the end of each match. *)

Module Links.

(** The lookahead [[a-zA-Z][a-zA-Z\d+\-.]*:\/\/]: a URI scheme is ahead. *)
Definition scheme_char (c : ascii) : bool :=
  Str.is_alnum c || Ascii.eqb c "+"%char || Ascii.eqb c "-"%char
  || Ascii.eqb c "."%char.

Fixpoint scheme_rest (s : string) : bool :=
  match s with
  | EmptyString => false
  | String c t =>
      if scheme_char c then scheme_rest t else Str.startsWith "://" s
  end.

Definition scheme_ahead (s : string) : bool :=
  match s with
  | String c t => Str.is_alpha c && scheme_rest t
  | EmptyString => false
  end.

(** [.+?] followed by [close]: the shortest non-empty run without a line
    terminator after which [close] stands.  Returns the run and the length
    consumed, [close] included. *)
Fixpoint lazy_plus (close : string) (s : string) (acc : string) (n : nat)
  : option (string * nat) :=
  match s with
  | EmptyString => None
  | String c t =>
      if Utf8.terminator_ahead s then None
      else if Str.startsWith close t
           then Some (Str.rev (String c acc), S n + String.length close)
      else lazy_plus close t (String c acc) (S n)
  end.

(** [.*?] followed by [close]. *)
Definition lazy_star (close : string) (s : string) : option (string * nat) :=
  if Str.startsWith close s then Some (EmptyString, String.length close)
  else lazy_plus close s EmptyString 0.

(** After "[[": [(.+?)(?:\|(.+?))?\]\]].  For each length of the link, the
    alias group is tried before the bare closing brackets. *)
Fixpoint wiki_body (s : string) (acc : string) (n : nat)
  : option (string * option string * nat) :=
  match s with
  | EmptyString => None
  | String c t =>
      if Utf8.terminator_ahead s then None
      else
        let link := Str.rev (String c acc) in
        let bare :=
          if Str.startsWith "]]" t then Some (link, None, S n + 2)
          else wiki_body t (String c acc) (S n) in
        match t with
        | String "|"%char u =>
            match lazy_plus "]]" u EmptyString 0 with
            | Some (alias, m) => Some (link, Some alias, S n + 1 + m)
            | None => bare
            end
        | _ => bare
        end
  end.

(** A wikilink match at the head of [s]: link, alias, matched length. *)
Definition wikilink_at (s : string) : option (string * option string * nat) :=
  match s with
  | String "["%char (String "["%char t) =>
      if scheme_ahead t then None
      else
        match wiki_body t EmptyString 0 with
        | Some (link, alias, n) => Some (link, alias, 2 + n)
        | None => None
        end
  | _ => None
  end.

(** After "[": the text, lazily, then "](" with no scheme ahead, then the
    target up to ")".  [lazy] is [lazy_star] when parsing and [lazy_plus]
    when rewriting; [skip] is the least length of the text still to read. *)
Fixpoint md_body (lazy : string -> option (string * nat)) (skip : nat)
    (s : string) (acc : string) (n : nat) : option (string * string * nat) :=
  let here :=
    match skip, s with
    | O, String "]"%char (String "("%char t) =>
        if scheme_ahead t then None
        else
          match lazy t with
          | Some (link, m) => Some (Str.rev acc, link, n + 2 + m)
          | None => None
          end
    | _, _ => None
    end in
  match here with
  | Some r => Some r
  | None =>
      match s with
      | EmptyString => None
      | String c t =>
          if Utf8.terminator_ahead s then None
          else md_body lazy (Nat.pred skip) t (String c acc) (S n)
      end
  end.

(** A Markdown link match at the head of [s]: text, target, length. *)
Definition mdlink_at (lazy : string -> option (string * nat)) (least : nat)
    (s : string) : option (string * string * nat) :=
  match s with
  | String "["%char t =>
      match md_body lazy least t EmptyString 0 with
      | Some (text, link, n) => Some (text, link, S n)
      | None => None
      end
  | _ => None
  end.

(** One global pass of a pattern: the matches in order, and between them
    the characters no match covers. *)
Fixpoint scan {X} (at_head : string -> option (X * nat)) (s : string)
    (skip : nat) : list (ascii + X) :=
  match s with
  | EmptyString => []
  | String c t =>
      match skip with
      | S k => scan at_head t k
      | O =>
          match at_head s with
          | Some (x, n) => inr x :: scan at_head t (Nat.pred n)
          | None => inl c :: scan at_head t 0
          end
      end
  end.

Fixpoint matches_of {X} (l : list (ascii + X)) : list X :=
  match l with
  | [] => []
  | inl _ :: r => matches_of r
  | inr x :: r => x :: matches_of r
  end.

(** [content.replace(regex, callback)]. *)
Fixpoint replaced {X} (f : X -> string) (l : list (ascii + X)) : string :=
  match l with
  | [] => EmptyString
  | inl c :: r => String c (replaced f r)
  | inr x :: r => f x ++ replaced f r
  end.

Definition wiki_match (s : string) : option ((string * option string) * nat) :=
  match wikilink_at s with
  | Some (l, a, n) => Some ((l, a), n)
  | None => None
  end.

Definition md_match_parse (s : string) : option ((string * string) * nat) :=
  match mdlink_at (lazy_star ")") 0 s with
  | Some (x, l, n) => Some ((x, l), n)
  | None => None
  end.

Definition md_match_rewrite (s : string) : option ((string * string) * nat) :=
  match mdlink_at (fun u => lazy_plus ")" u EmptyString 0) 1 s with
  | Some (x, l, n) => Some ((x, l), n)
  | None => None
  end.

End Links.

(** ** URI components *)

Module Uri.

Definition hex_val (c : ascii) : option nat :=
  let n := nat_of_ascii c in
  if Str.is_digit c then Some (n - 48)%nat
  else if ((65 <=? n) && (n <=? 70))%nat then Some (n - 55)%nat
  else if ((97 <=? n) && (n <=? 102))%nat then Some (n - 87)%nat
  else None.

(** A "%XX" escape at the head of [s]: its byte and the rest. *)
Definition escape (s : string) : option (nat * string) :=
  match s with
  | String "%"%char (String a (String b t)) =>
      match hex_val a, hex_val b with
      | Some x, Some y => Some ((16 * x + y)%nat, t)
      | _, _ => None
      end
  | _ => None
  end.

(** The [k] continuation escapes of a multi-byte UTF-8 sequence. *)
Fixpoint continuation (k : nat) (s : string) : option (string * string) :=
  match k with
  | O => Some (EmptyString, s)
  | S j =>
      match escape s with
      | Some (b, t) =>
          if ((128 <=? b) && (b <=? 191))%nat then
            match continuation j t with
            | Some (bs, u) => Some (String (Str.chr b) bs, u)
            | None => None
            end
          else None
      | None => None
      end
  end.

(** Bytes that follow a UTF-8 lead byte, [None] when it cannot lead. *)
Definition following (b : nat) : option nat :=
  if (b <? 128)%nat then Some 0%nat
  else if (b <? 192)%nat then None
  else if (b <? 224)%nat then Some 1%nat
  else if (b <? 240)%nat then Some 2%nat
  else if (b <? 248)%nat then Some 3%nat
  else None.

(** [decodeURIComponent]; [None] is the URIError of a malformed escape or
    of escapes that are no well-formed UTF-8 sequence. *)
Fixpoint decode_fuel (fuel : nat) (s : string) : option string :=
  match fuel with
  | O => Some EmptyString
  | S f =>
      match s with
      | EmptyString => Some EmptyString
      | String c t =>
          if Ascii.eqb c "%"%char then
            match escape s with
            | Some (b, u) =>
                match following b with
                | Some k =>
                    match continuation k u with
                    | Some (bs, v) =>
                        if Utf8.well_formed b bs then
                          match decode_fuel f v with
                          | Some r => Some (String (Str.chr b) (bs ++ r))
                          | None => None
                          end
                        else None
                    | None => None
                    end
                | None => None
                end
            | None => None
            end
          else
            match decode_fuel f t with
            | Some r => Some (String c r)
            | None => None
            end
      end
  end.

Definition decodeURIComponent (s : string) : option string :=
  decode_fuel (String.length s) s.

Definition unreserved (c : ascii) : bool :=
  Str.is_alnum c
  || existsb (Ascii.eqb c) (list_ascii_of_string "-_.!~*'()").

Definition upper_hex (n : nat) : ascii :=
  if (n <? 10)%nat then Str.chr (48 + n) else Str.chr (55 + n).

(** [encodeURIComponent], byte by byte. *)
Fixpoint encodeURIComponent (s : string) : string :=
  match s with
  | EmptyString => EmptyString
  | String c t =>
      if unreserved c then String c (encodeURIComponent t)
      else
        let n := nat_of_ascii c in
        String "%"%char
          (String (upper_hex (n / 16)) (String (upper_hex (n mod 16))
             (encodeURIComponent t)))
  end.

End Uri.

(** ** parseMarkdownForLinks *)

Record links := MkLinks { attachmentLinks : list string; noteLinks : list string }.

(** [processLink]: the decoded target without its heading is an attachment
    when it has an extension other than ".md", else a note. *)
Definition processLink (acc : links) (link : string) : option links :=
  match Uri.decodeURIComponent link with
  | None => None
  | Some decodedLink =>
      let cleanLink := hd "" (Str.split "#"%char decodedLink) in
      let extension := extname cleanLink in
      if negb (String.eqb extension "") && negb (String.eqb extension ".md") then
        if Str.endsWith ".excalidraw" cleanLink then
          Some (MkLinks (attachmentLinks acc ++ [(cleanLink ++ EXCALIDRAW_REPLACEMENT)%string])
                        (noteLinks acc))
        else Some (MkLinks (attachmentLinks acc ++ [cleanLink]) (noteLinks acc))
      else
        let noteLink :=
          if String.eqb extension "" then (cleanLink ++ ".md")%string
          else cleanLink in
        Some (MkLinks (attachmentLinks acc) (noteLinks acc ++ [noteLink]))
  end.

Fixpoint processLinks (acc : links) (l : list string) : option links :=
  match l with
  | [] => Some acc
  | x :: r =>
      match processLink acc x with
      | Some acc' => processLinks acc' r
      | None => None
      end
  end.

(** The links of a document, from its bytes read as text: wikilinks first,
    then Markdown links. *)
Definition linksOfContent (bytes : string) : option links :=
  let content := Utf8.text bytes in
  let wiki := map fst (Links.matches_of (Links.scan Links.wiki_match content 0)) in
  let md := map snd (Links.matches_of (Links.scan Links.md_match_parse content 0)) in
  processLinks (MkLinks [] []) (wiki ++ md).

Definition parseMarkdownForLinks (filePath : path) (s : state) : outcome links :=
  match Fs.readFile (fsys s) filePath with
  | inl e => Throw (IOError e filePath) s
  | inr content =>
      match linksOfContent content with
      | Some l => Ok l s
      | None => Throw URIError s
      end
  end.

(** ** Path resolution *)

(** [path.join(dir, file.name)] for an entry of [readdir]: the name of a
    directory entry is one plain segment. *)
Definition child (dir : path) (name : string) : path := (dir ++ [name])%list.

(** [findFileInVault]: depth-first, directory order, first file of that
    name.  [fuel] bounds the depth of the descent. *)
Fixpoint findFileInVault (fuel : nat) (vaultDir : path) (fileName : string)
    (s : state) : outcome (option path) :=
  match Fs.readdir (fsys s) vaultDir with
  | inl e => Throw (IOError e vaultDir) s
  | inr files =>
      (fix each (files : list (string * bool)) : outcome (option path) :=
         match files with
         | [] => Ok None s
         | (name, isDirectory) :: rest =>
             let filePath := child vaultDir name in
             if isDirectory then
               match fuel with
               | O => OutOfFuel
               | S f =>
                   match findFileInVault f filePath fileName s with
                   | Ok (Some result) _ => Ok (Some result) s
                   | Ok None _ => each rest
                   | other => other
                   end
               end
             else if String.eqb name fileName then Ok (Some filePath) s
             else each rest
         end) files
  end.

(** [resolveFilePath]: a bare name is looked up in the attachments
    directory, then searched in the vault; "./" and "../" are relative to
    the referring document; anything else is relative to the vault. *)
Definition resolveFilePath (basePath : path) (link : string) (s : state)
  : outcome (option path) :=
  if negb (Str.includes Str.slash link) then
    let resolvedPath := join ATTACHMENTS_DIR link in
    match Fs.access (fsys s) resolvedPath with
    | None => Ok (Some resolvedPath) s
    | Some _ => findFileInVault (Fs.depth (fsys s)) VAULT_DIR link s
    end
  else if Str.startsWith "../" link || Str.startsWith "./" link then
    Ok (Some (join (dirname basePath) link)) s
  else Ok (Some (join VAULT_DIR link)) s.

(** ** The dedup registries *)

Section Script.

Context {engine : RegExpEngine}.

(** The content comparison of one registry entry with the candidate, inside
    its [try]: sizes first, then the bytes. *)
Definition sameContent (f : Fs.t) (existingPath resolvedPath : path)
  : Fs.errno + bool :=
  match Fs.stat_size f existingPath with
  | inl e => inl e
  | inr existingSize =>
      match Fs.stat_size f resolvedPath with
      | inl e => inl e
      | inr currentSize =>
          if (existingSize =? currentSize)%nat then
            match Fs.readFile f existingPath with
            | inl e => inl e
            | inr existingFileContent =>
                match Fs.readFile f resolvedPath with
                | inl e => inl e
                | inr currentFileContent =>
                    inr (String.eqb existingFileContent currentFileContent)
                end
            end
          else inr false
      end
  end.

(** The first loop over a registry: the first entry of the candidate's
    basename with the same content; comparison errors are only reported. *)
Fixpoint findSameContent (f : Fs.t) (registry : JsMap.t) (resolvedName : string)
    (resolvedPath : path) : option path * list event :=
  match registry with
  | [] => (None, [])
  | (existingPath, _) :: rest =>
      if String.eqb (basename existingPath) resolvedName then
        match sameContent f existingPath resolvedPath with
        | inr true => (Some existingPath, [])
        | inr false => findSameContent f rest resolvedName resolvedPath
        | inl _ =>
            let (r, evs) := findSameContent f rest resolvedName resolvedPath in
            (r, Err "Error comparing files" :: evs)
        end
      else findSameContent f rest resolvedName resolvedPath
  end.

(** The first registry entry whose output basename is [resolvedName]. *)
Definition findSameName (registry : JsMap.t) (resolvedName : string)
  : option (path * string) :=
  find (fun e => String.eqb (basename (fst e)) resolvedName) registry.

(** [new RegExp(...)] for the collision pattern of a stem. *)
Definition existingCheckRegex (stem : string) : option (string -> bool) :=
  RegExp ("^" ++ stem ++ "(_[a-zA-Z0-9]+)?\.[a-zA-Z0-9]+$").

(** [existingCheckRegex.test(name)], [None] when the pattern does not
    compile. *)
Definition existingCheck (stem name : string) : option bool :=
  match existingCheckRegex stem with
  | Some test => Some (test name)
  | None => None
  end.

(** [Array.from(registry).some(...)] with the collision pattern. *)
Definition patternHits (registry : JsMap.t) (resolvedName : string)
  : option bool :=
  match existingCheckRegex (parse_name resolvedName) with
  | None => None
  | Some test => Some (existsb (fun e => test (basename (fst e))) registry)
  end.

Definition emits (s : state) (evs : list event) : state :=
  fold_left emit evs s.

(** Renaming the existing file of a collision inside [dir]; returns the
    registry with the entry moved to its new name. *)
Definition renameExisting (dir : path) (registry : JsMap.t)
    (existingPath : path) (ref : string) (s : state) : outcome JsMap.t :=
  let* (newExistingName, s) := generateUniqueName existingPath s in
  let newExistingPath := join dir newExistingName in
  match Fs.rename (fsys s) (join dir (basename existingPath)) newExistingPath with
  | inl e => Throw (IOError e (join dir (basename existingPath))) s
  | inr f =>
      Ok (JsMap.set (JsMap.delete registry existingPath) newExistingPath ref)
         (set_renamed (set_fs s f) (JsObj.set (renamedFiles s) ref newExistingName))
  end.

(** ** resolveAndCopyAttachments *)

Definition attachmentsDir (outputDir : path) : path := join outputDir "attachments".
Definition referencesDir (outputDir : path) : path := join outputDir "references".

(** The body of the loop from the basename on, for an attachment that
    resolved to [resolvedPath]. *)
Definition exportAttachment (attachment : string) (resolvedPath outputDir : path)
    (s : state) : outcome unit :=
  let globalAttachmentsDir := attachmentsDir outputDir in
  let resolvedName := basename resolvedPath in
  (* an attachment with the same content already exists? *)
  let (existingAttachmentPath, evs) :=
    findSameContent (fsys s) (uniqueAttachments s) resolvedName resolvedPath in
  let s := emits s evs in
  match existingAttachmentPath with
  | Some _ =>
      Ok tt (emit s (Info ("Attachment already exists (same content): "
                           ++ attachment)))
  | None =>
      (* same name, different content: rename the existing file *)
      let* (_, s) :=
        match findSameName (uniqueAttachments s) resolvedName with
        | Some (existingPath, ref) =>
            let* (m, s) := renameExisting globalAttachmentsDir
                             (uniqueAttachments s) existingPath ref s in
            Ok tt (set_attachments s m)
        | None => Ok tt s
        end in
      (* [collisionDetected] is assigned anew from the pattern test *)
      match patternHits (uniqueAttachments s) resolvedName with
      | None => Throw SyntaxError s
      | Some collisionDetected =>
          let* (uniqueName, s) :=
            if collisionDetected then
              let* (u, s) := generateUniqueName resolvedPath s in
              Ok u (set_renamed s (JsObj.set (renamedFiles s) attachment u))
            else Ok resolvedName s in
          let destinationPath := join globalAttachmentsDir uniqueName in
          let* (_, s) := copyFileToOutput resolvedPath destinationPath s in
          Ok tt (set_attachments s
                   (JsMap.set (uniqueAttachments s) destinationPath attachment))
      end
  end.

(** The [for] loop of [resolveAndCopyAttachments]. *)
Fixpoint eachAttachment (attachments : list string)
    (basePath outputDir : path) (s : state) : outcome unit :=
  match attachments with
  | [] => Ok tt s
  | attachment :: rest =>
      let* (resolvedPath, s) := resolveFilePath basePath attachment s in
      match resolvedPath with
      | None =>
          eachAttachment rest basePath outputDir
            (logWarning s ("Attachment not found: " ++ attachment))
      | Some resolvedPath =>
          let* (_, s) := exportAttachment attachment resolvedPath outputDir s in
          eachAttachment rest basePath outputDir s
      end
  end.

(** The directory [attachments] is made first when absent, then the loop
    runs. *)
Definition resolveAndCopyAttachments (attachments : list string)
    (basePath outputDir : path) (s : state) : outcome unit :=
  let* (_, s) := ensureDir (attachmentsDir outputDir) s in
  eachAttachment attachments basePath outputDir s.

(** ** resolveAndCopyNotes *)

(** The test "already in the output directory": the relative path from
    [outputDir] to the note's stem, the stem being resolved against the
    working directory. *)
Definition inOutputDir (cwd outputDir : path) (resolvedName : string) : bool :=
  let relativePathFromOutput :=
    String.concat "/" (relative outputDir (join cwd (parse_name resolvedName))) in
  negb (Str.startsWith ".." relativePathFromOutput)
  && negb (Str.startsWith "/" relativePathFromOutput).

(** The body of the loop from the content check to the registration of the
    copy; [false] is returned when the note is skipped for its content. *)
Definition exportNote (note : string) (resolvedPath outputDir : path)
    (s : state) : outcome bool :=
  let referencesFolder := referencesDir outputDir in
  let resolvedName := basename resolvedPath in
  let (existingNotePath, evs) :=
    findSameContent (fsys s) (uniqueNotes s) resolvedName resolvedPath in
  let s := emits s evs in
  match existingNotePath with
  | Some _ =>
      Ok false (emit s (Info ("Note already exists (same content): " ++ note)))
  | None =>
      let existingEntry := findSameName (uniqueNotes s) resolvedName in
      match patternHits (uniqueNotes s) resolvedName with
      | None => Throw SyntaxError s
      | Some hits =>
          let* (collisionDetected, s) :=
            match existingEntry with
            | Some (existingPath, ref) =>
                let* (m, s) := renameExisting referencesFolder (uniqueNotes s)
                                 existingPath ref s in
                Ok true (set_notes s m)
            | None => Ok hits s
            end in
          let* (uniqueName, s) :=
            if collisionDetected then
              let* (u, s) := generateUniqueName resolvedPath s in
              Ok u (set_renamed s (JsObj.set (renamedFiles s) note u))
            else Ok resolvedName s in
          let finalPath := join referencesFolder uniqueName in
          let* (_, s) := copyFileToOutput resolvedPath finalPath s in
          Ok true (set_notes s (JsMap.set (uniqueNotes s) finalPath note))
      end
  end.

(** The walk over note links; [fuel] bounds the depth of the recursion
    into linked notes.  The directory [references] is made first when
    absent, then the loop runs. *)
Fixpoint resolveAndCopyNotes (fuel : nat) (cwd : path) (notes : list string)
    (basePath outputDir : path) (s : state) {struct fuel} : outcome unit :=
  match fuel with
  | O => OutOfFuel
  | S fuel' =>
      let* (_, s) := ensureDir (referencesDir outputDir) s in
      (fix each (notes : list string) (s : state) : outcome unit :=
         match notes with
         | [] => Ok tt s
         | note :: rest =>
             if JsSet.has (visitedNotes s) note then each rest s
             else
               let s := set_visited s (JsSet.add (visitedNotes s) note) in
               let* (resolvedPath, s) := resolveFilePath basePath note s in
               match resolvedPath with
               | None => each rest (logWarning s ("Note not found: " ++ note))
               | Some resolvedPath =>
                   if inOutputDir cwd outputDir (basename resolvedPath) then
                     each rest
                       (set_notes s (JsMap.set (uniqueNotes s) resolvedPath note))
                   else
                     let* (exported, s) :=
                       exportNote note resolvedPath outputDir s in
                     if exported then
                       let* (l, s) := parseMarkdownForLinks resolvedPath s in
                       let* (_, s) :=
                         resolveAndCopyAttachments (attachmentLinks l) resolvedPath
                           outputDir s in
                       let* (l, s) := parseMarkdownForLinks resolvedPath s in
                       let* (_, s) :=
                         resolveAndCopyNotes fuel' cwd (noteLinks l) resolvedPath
                           outputDir s in
                       each rest s
                     else each rest s
               end
         end) notes s
  end.

(** The [for] loop of [resolveAndCopyNotes], with [fuel] for the walks of
    the notes it exports. *)
Definition eachNote (fuel : nat) (cwd : path) (notes : list string)
    (basePath outputDir : path) (s : state) : outcome unit :=
  (fix each (notes : list string) (s : state) : outcome unit :=
     match notes with
     | [] => Ok tt s
     | note :: rest =>
         if JsSet.has (visitedNotes s) note then each rest s
         else
           let s := set_visited s (JsSet.add (visitedNotes s) note) in
           let* (resolvedPath, s) := resolveFilePath basePath note s in
           match resolvedPath with
           | None => each rest (logWarning s ("Note not found: " ++ note))
           | Some resolvedPath =>
               if inOutputDir cwd outputDir (basename resolvedPath) then
                 each rest
                   (set_notes s (JsMap.set (uniqueNotes s) resolvedPath note))
               else
                 let* (exported, s) :=
                   exportNote note resolvedPath outputDir s in
                 if exported then
                   let* (l, s) := parseMarkdownForLinks resolvedPath s in
                   let* (_, s) :=
                     resolveAndCopyAttachments (attachmentLinks l) resolvedPath
                       outputDir s in
                   let* (l, s) := parseMarkdownForLinks resolvedPath s in
                   let* (_, s) :=
                     resolveAndCopyNotes fuel cwd (noteLinks l) resolvedPath
                       outputDir s in
                   each rest s
                 else each rest s
           end
     end) notes s.

(** ** Seeds *)

Inductive inputType := InputFile | InputFolder.

Definition processMarkdownFile (fuel : nat) (cwd filePath outputDir : path)
    (type : inputType) (s : state) : outcome unit :=
  let destinationPath :=
    match type with
    | InputFile => join outputDir (basename filePath)
    | InputFolder =>
        join outputDir (String.concat "/" (relative VAULT_DIR filePath))
    end in
  let* (_, s) := copyFileToOutput filePath destinationPath s in
  let* (l, s) := parseMarkdownForLinks filePath s in
  let* (_, s) :=
    resolveAndCopyAttachments (attachmentLinks l) filePath outputDir s in
  resolveAndCopyNotes fuel cwd (noteLinks l) filePath outputDir s.

(** [processFolder], with the action taken on each document as a parameter
    [act]; [depth] bounds the descent into subfolders. *)
Fixpoint processFolderWith (act : path -> state -> outcome unit) (depth : nat)
    (folderPath : path) (s : state) : outcome unit :=
  match Fs.readdir (fsys s) folderPath with
  | inl e => Throw (IOError e folderPath) s
  | inr files =>
      (fix each (files : list (string * bool)) (s : state) : outcome unit :=
         match files with
         | [] => Ok tt s
         | (name, isDirectory) :: rest =>
             if Str.startsWith "_" name then
               each rest (logWarning s ("Skipping file or folder: " ++ name))
             else
               let fullPath := child folderPath name in
               if isDirectory then
                 match depth with
                 | O => OutOfFuel
                 | S d =>
                     let* (_, s) := processFolderWith act d fullPath s in
                     each rest s
                 end
               else if Str.endsWith ".md" name then
                 let* (_, s) := act fullPath s in each rest s
               else each rest s
         end) files s
  end.

Definition processFolder (fuel : nat) (cwd folderPath outputDir : path)
    (s : state) : outcome unit :=
  processFolderWith
    (fun fullPath => processMarkdownFile fuel cwd fullPath outputDir InputFolder)
    (Fs.depth (fsys s)) folderPath s.

(** ** The rewrite pass *)

(** The table lookup of both callbacks: the name found for [key], else
    [cleanedLink], and then one more lookup of that name. *)
Definition renamedName (renamed : JsObj.t) (key cleanedLink : string) : string :=
  let updatedName := JsObj.get_or renamed key cleanedLink in
  match JsObj.read renamed (JsObj.to_string updatedName) with
  | Some again =>
      if JsObj.truthy again then JsObj.to_string again
      else JsObj.to_string updatedName
  | None => JsObj.to_string updatedName
  end.

Definition rewriteWikilink (renamed : JsObj.t) (m : string * option string)
  : option string :=
  let (link, alias) := m in
  let isAttachmentLink := negb (String.eqb (extname link) "") in
  match Uri.decodeURIComponent link with
  | None => None
  | Some decodedLink =>
      let cleanedLink := basename_str decodedLink in
      let updatedLink :=
        (decodedLink ++ (if isAttachmentLink then "" else ".md"))%string in
      let updatedName := renamedName renamed updatedLink cleanedLink in
      Some (match alias with
            | Some a => "[[" ++ updatedName ++ "|" ++ a ++ "]]"
            | None => "[[" ++ updatedName ++ "]]"
            end)%string
  end.

Definition rewriteMarkdownLink (renamed : JsObj.t) (m : string * string)
  : option string :=
  let (text, link) := m in
  match Uri.decodeURIComponent link with
  | None => None
  | Some decodedLink =>
      let cleanedLink := basename_str decodedLink in
      let updatedName := renamedName renamed decodedLink cleanedLink in
      Some ("[" ++ text ++ "](" ++ Uri.encodeURIComponent updatedName ++ ")")%string
  end.

(** [content.replace(regex, callback)] with a callback that may throw. *)
Fixpoint replaceWith {X} (f : X -> option string) (l : list (ascii + X))
  : option string :=
  match l with
  | [] => Some EmptyString
  | inl c :: r =>
      match replaceWith f r with
      | Some t => Some (String c t)
      | None => None
      end
  | inr x :: r =>
      match f x, replaceWith f r with
      | Some u, Some t => Some (u ++ t)%string
      | _, _ => None
      end
  end.

Definition rewriteContent (renamed : JsObj.t) (bytes : string) : option string :=
  match replaceWith (rewriteWikilink renamed)
          (Links.scan Links.wiki_match (Utf8.text bytes) 0) with
  | None => None
  | Some content' =>
      replaceWith (rewriteMarkdownLink renamed)
        (Links.scan Links.md_match_rewrite content' 0)
  end.

Definition updateLinks (filePath : path) (s : state) : outcome unit :=
  match Fs.readFile (fsys s) filePath with
  | inl e => Throw (IOError e filePath) s
  | inr content =>
      match rewriteContent (renamedFiles s) content with
      | None => Throw URIError s
      | Some content' =>
          match Fs.writeFile (fsys s) filePath content' with
          | inl e => Throw (IOError e filePath) s
          | inr f => Ok tt (set_fs s f)
          end
      end
  end.

Fixpoint updateLinksInDirectory (depth : nat) (dir : path) (s : state)
  : outcome unit :=
  match Fs.readdir (fsys s) dir with
  | inl e => Throw (IOError e dir) s
  | inr files =>
      (fix each (files : list (string * bool)) (s : state) : outcome unit :=
         match files with
         | [] => Ok tt s
         | (name, isDirectory) :: rest =>
             let fullPath := child dir name in
             if isDirectory then
               match depth with
               | O => OutOfFuel
               | S d =>
                   let* (_, s) := updateLinksInDirectory d fullPath s in
                   each rest s
               end
             else if Str.endsWith ".md" name then
               let* (_, s) := updateLinks fullPath s in each rest s
             else each rest s
         end) files s
  end.

(** ** main *)

(** How the process ends: its exit code and the last state. *)
Inductive ending :=
| Ended (code : nat) (s : state)
| NoFuel.

Definition initial (f : Fs.t) : state := State f [] [] [] [] [].

(** [basename(fullPath).replace(/\.md$/, "")]. *)
Definition outputName (fullPath : path) : string :=
  let b := basename fullPath in
  if Str.endsWith ".md" b then Str.take (String.length b - 3) b else b.

(** The [try] block of [main]: the walk from the seeds, then the rewrite
    pass over the output directory.  An input that is neither a folder nor
    a Markdown file is reported and [main] returns at once. *)
Definition run (fuel : nat) (cwd fullPath outputDir : path) (s : state)
  : outcome unit :=
  let* (_, s) :=
    if Fs.is_dir (fsys s) fullPath then
      processFolder fuel cwd fullPath outputDir s
    else if Fs.is_file (fsys s) fullPath && Str.endsWith ".md" (basename fullPath)
    then processMarkdownFile fuel cwd fullPath outputDir InputFile s
    else Exit 0 (emit s (Err "Invalid input path. Please provide a valid markdown file or folder.")) in
  updateLinksInDirectory (Fs.depth (fsys s)) outputDir s.

(** A thrown error is caught and printed, by the [catch] of [main] or by
    the one on its promise; neither sets an exit code. *)
Definition finish (o : outcome unit) : ending :=
  match o with
  | Ok _ s => Ended 0 s
  | Throw _ s => Ended 0 (emit s (Err "Error"))
  | Exit code s => Ended code s
  | OutOfFuel => NoFuel
  end.

(** [main], with [argv] the optional input path, [cwd] the working
    directory and [f] the file system at start. *)
Definition main (fuel : nat) (argv : option string) (cwd : path) (f : Fs.t)
  : ending :=
  let s := initial f in
  match argv with
  | None => Ended 1 (emit s (Err "Usage: node script.js <inputPath>"))
  | Some inputPath =>
      if String.eqb inputPath "" then
        Ended 1 (emit s (Err "Usage: node script.js <inputPath>"))
      else
        let fullPath := join VAULT_DIR inputPath in
        match Fs.stat_size f fullPath with
        | inl e => finish (Throw (IOError e fullPath) s)
        | inr _ =>
            let outputDir := join cwd (outputName fullPath) in
            finish (run fuel cwd fullPath outputDir
                      (emit s (Info ("Destination Path: " ++ show outputDir))))
        end
  end.

End Script.

(** ** Notions used to state the properties *)

(** What is left of [p] below [folder], when [p] lies in it. *)
Fixpoint below (folder p : path) : option path :=
  match folder, p with
  | [], _ => Some p
  | a :: folder', b :: p' => if String.eqb a b then below folder' p' else None
  | _ :: _, [] => None
  end.



(** The rewriter as the specification words it: decode the target, drop
    its path prefix, look the result up in the table, and follow one more
    hop when what was found is itself a key. *)
Definition specRewriteTarget (renamed : JsObj.t) (target : string)
  : option string :=
  match Uri.decodeURIComponent target with
  | None => None
  | Some decoded =>
      let bare := basename_str decoded in
      let found := JsObj.to_string (JsObj.get_or renamed bare bare) in
      Some (JsObj.to_string (JsObj.get_or renamed found found))
  end.

Definition wikilinkText (name : string) (alias : option string) : string :=
  match alias with
  | Some a => "[[" ++ name ++ "|" ++ a ++ "]]"
  | None => "[[" ++ name ++ "]]"
  end.

(** A read of the table at [k] gives a name, something truthy. *)
Definition named (renamed : JsObj.t) (k : string) : bool :=
  match JsObj.read renamed k with
  | Some v => JsObj.truthy v
  | None => false
  end.

(** The name the table gives for [key], [fallback] standing in when [key]
    is no key: at most one further read, at what the first one gave. *)
Inductive resolvesTo (renamed : JsObj.t) (key fallback : string)
  : string -> Prop :=
| resolves_bare :
    named renamed key = false ->
    named renamed fallback = false ->
    resolvesTo renamed key fallback fallback
| resolves_bare_hop : forall w,
    named renamed key = false ->
    JsObj.read renamed fallback = Some w -> JsObj.truthy w = true ->
    resolvesTo renamed key fallback (JsObj.to_string w)
| resolves_direct : forall v,
    JsObj.read renamed key = Some v -> JsObj.truthy v = true ->
    named renamed (JsObj.to_string v) = false ->
    resolvesTo renamed key fallback (JsObj.to_string v)
| resolves_hop : forall v w,
    JsObj.read renamed key = Some v -> JsObj.truthy v = true ->
    JsObj.read renamed (JsObj.to_string v) = Some w -> JsObj.truthy w = true ->
    resolvesTo renamed key fallback (JsObj.to_string w).

(** [out] is the scanned text [l] with every match replaced by a text
    that [R] gives for it, and every other character kept. *)
Inductive rewritten {X} (R : X -> string -> Prop)
  : list (ascii + X) -> string -> Prop :=
| rewritten_nil : rewritten R [] EmptyString
| rewritten_char : forall c l out,
    rewritten R l out -> rewritten R (inl c :: l) (String c out)
| rewritten_match : forall x l u out,
    R x u -> rewritten R l out -> rewritten R (inr x :: l) (u ++ out)%string.

(** What stands for a wikilink: the name the table gives for the decoded
    target with its path (and ".md" when it has no extension), between the
    brackets, before the alias as it was. *)
Definition wikilinkRewrite (renamed : JsObj.t) (m : string * option string)
    (u : string) : Prop :=
  exists decoded name,
    Uri.decodeURIComponent (fst m) = Some decoded
    /\ resolvesTo renamed
         (decoded ++ (if String.eqb (extname (fst m)) "" then ".md" else ""))%string
         (basename_str decoded) name
    /\ u = wikilinkText name (snd m).

(** What stands for a Markdown link: the text as it was, and the encoded
    name the table gives for the decoded target with its path. *)
Definition markdownRewrite (renamed : JsObj.t) (m : string * string)
    (u : string) : Prop :=
  exists decoded name,
    Uri.decodeURIComponent (snd m) = Some decoded
    /\ resolvesTo renamed decoded (basename_str decoded) name
    /\ u = ("[" ++ fst m ++ "](" ++ Uri.encodeURIComponent name ++ ")")%string.

(** One of the targets is no well-formed percent-encoding. *)
Definition undecodable (targets : list string) : Prop :=
  exists x, In x targets /\ Uri.decodeURIComponent x = None.

(** [out] is the document [bytes] read as text, with every wikilink
    rewritten, and then every Markdown link of what that gave. *)
Definition rewrittenText (renamed : JsObj.t) (bytes out : string) : Prop :=
  exists mid : string,
    rewritten (wikilinkRewrite renamed)
      (Links.scan Links.wiki_match (Utf8.text bytes) 0) mid
    /\ rewritten (markdownRewrite renamed)
         (Links.scan Links.md_match_rewrite mid 0) out.

(** The number of files under [dir] whose content is [c]. *)
Definition copiesOf (f : Fs.t) (dir : path) (c : string) : nat :=
  List.length
    (filter (fun e => (match below dir (fst e) with Some _ => true | None => false end)
                      && String.eqb (snd e) c) (Fs.files f)).

(** The walk left the files, both registries and the rename table alone. *)
Definition sameStore (s s' : state) : Prop :=
  fsys s' = fsys s /\ uniqueAttachments s' = uniqueAttachments s
  /\ uniqueNotes s' = uniqueNotes s /\ renamedFiles s' = renamedFiles s
  /\ visitedNotes s' = visitedNotes s.

(** A name that is one plain segment. *)
Definition plainName (n : string) : Prop :=
  Str.includes Str.slash n = false /\ n <> "" /\ n <> "." /\ n <> "..".

(** Under a path: a proper prefix of it. *)
Definition above (q p : path) : bool :=
  Path.is_prefix q p && (List.length q <? List.length p)%nat.


(** A target as [processLink] yields them: it carries an extension. *)
Definition target (ref : string) : Prop := Str.includes Str.dot ref = true.


(** The contents of all files. *)
Definition contents (f : Fs.t) : list string := map snd (Fs.files f).

(** The note links of a collection of documents. *)
Definition noteLinksOf (docs : list string) : list string :=
  flat_map (fun c => match linksOfContent c with
                     | Some l => noteLinks l
                     | None => []
                     end) docs.

(** How many of the link strings [U] are not yet in the visited set. *)
Definition pending (U : list string) (visited : JsSet.t) : nat :=
  List.length (filter (fun x => negb (JsSet.has visited x))
                 (nodup string_dec U)).

(** From [s] to [s'] the visited set is kept and no file has a content
    that no file had before. *)
Definition kept (s s' : state) : Prop :=
  incl (contents (fsys s')) (contents (fsys s))
  /\ visitedNotes s' = visitedNotes s.

(** The same for the walk, whose visited set may grow. *)
Definition grown (s s' : state) : Prop :=
  incl (contents (fsys s')) (contents (fsys s))
  /\ incl (visitedNotes s) (visitedNotes s').

(** The piece of the script ends, with fuel to spare, in a state related
    to the one it started from. *)
Definition ends {A} (R : state -> state -> Prop) (s : state) (o : outcome A)
  : Prop :=
  match o with
  | Ok _ s' | Throw _ s' | Exit _ s' => R s s'
  | OutOfFuel => False
  end.

(** What [copyFileToOutput] may do to a state: no file but [dst] changes
    its content or its permissions, and [dst] keeps what it had or has the
    bytes of [src]; registries, table and visited set stay. *)
Definition copied (src dst : path) (s s' : state) : Prop :=
  (forall q, q <> dst ->
     Fs.lookup (Fs.files (fsys s')) q = Fs.lookup (Fs.files (fsys s)) q
     /\ Fs.is_denied (fsys s') q = Fs.is_denied (fsys s) q
     /\ Fs.is_readonly (fsys s') q = Fs.is_readonly (fsys s) q)
  /\ (fsys s' = fsys s
      \/ exists c, Fs.readFile (fsys s) src = inr c
                   /\ Fs.lookup (Fs.files (fsys s')) dst = Some c)
  /\ uniqueAttachments s' = uniqueAttachments s
  /\ uniqueNotes s' = uniqueNotes s
  /\ renamedFiles s' = renamedFiles s
  /\ visitedNotes s' = visitedNotes s.

(** A string of ASCII characters only. *)
Definition asciiOnly (s : string) : bool :=
  Str.forallb (fun c => (nat_of_ascii c <? 128)%nat) s.

(** The pattern that a stem of plain characters compiles to: its
    characters in a row after [cur]. *)
Fixpoint literal (cur : Regex.re) (s : string) : Regex.re :=
  match s with
  | EmptyString => cur
  | String c t => literal (Regex.Seq cur (Regex.Chr c)) t
  end.

(** A non-empty string of letters and digits. *)
Definition alnumWord (s : string) : bool :=
  negb (String.eqb s "") && Str.forallb Str.is_alnum s.

(** The character that opens both kinds of link. *)
Definition bracket : ascii := "["%char.

(** Whatever state the piece of the script ends in is related to the one
    it started from. *)
Definition after {A} (R : state -> state -> Prop) (s : state) (o : outcome A)
  : Prop :=
  match o with
  | Ok _ s' | Throw _ s' | Exit _ s' => R s s'
  | OutOfFuel => True
  end.

(** The same files at the same places, with the same permissions, and the
    same registries, table and visited set: only contents and console may
    differ. *)
Definition samePaths (s s' : state) : Prop :=
  map fst (Fs.files (fsys s')) = map fst (Fs.files (fsys s))
  /\ Fs.denied (fsys s') = Fs.denied (fsys s)
  /\ Fs.readonly (fsys s') = Fs.readonly (fsys s)
  /\ uniqueAttachments s' = uniqueAttachments s
  /\ uniqueNotes s' = uniqueNotes s
  /\ renamedFiles s' = renamedFiles s
  /\ visitedNotes s' = visitedNotes s.




(** [p] is [dir] or lies in it. *)
Definition inside (dir p : path) : bool :=
  match below dir p with Some _ => true | None => false end.


(** Every value of the table is a content-derived unique name. *)
Definition tableOk (o : JsObj.t) : Prop :=
  forall k v, JsObj.get o k = Some v ->
    exists name c, v = uniqueNameOf name c.

(** From [s] to [s'] the RenameTable lost no key and took only unique
    names as values. *)
Definition tableGrows (s s' : state) : Prop :=
  (forall k, JsObj.get (renamedFiles s) k <> None ->
             JsObj.get (renamedFiles s') k <> None)
  /\ (tableOk (renamedFiles s) -> tableOk (renamedFiles s')).

(** The console of [s'] is that of [s] with more events after it. *)
Definition consoleGrows (s s' : state) : Prop :=
  exists evs, console s' = console s ++ evs.



(** The files below [dir] in the order of a depth-first walk: the entries
    of each directory in directory order, a directory standing for the
    files below it.  [fuel] bounds the depth. *)
Fixpoint walkOrder (fuel : nat) (f : Fs.t) (dir : path) : list path :=
  match Fs.readdir f dir with
  | inl _ => []
  | inr files =>
      flat_map (fun e : string * bool =>
                  if snd e then
                    match fuel with
                    | O => []
                    | S n => walkOrder n f (child dir (fst e))
                    end
                  else [child dir (fst e)]) files
  end.

(** No path is a file and a directory at once. *)
Definition properTree (f : Fs.t) : bool :=
  forallb (fun e => negb (Fs.is_dir f (fst e))) (Fs.files f).

(** The link carries no heading marker. *)
Definition headingFree (x : string) : bool := negb (Str.includes "#"%char x).

(** The raw targets the two patterns find in a document, wikilinks first. *)
Definition rawTargets (bytes : string) : list string :=
  let content := Utf8.text bytes in
  (map fst (Links.matches_of (Links.scan Links.wiki_match content 0))
   ++ map snd (Links.matches_of (Links.scan Links.md_match_parse content 0)))%list.

(** [p] names a Markdown document. *)
Definition isMarkdown (p : path) : bool := Str.endsWith ".md" (basename p).

(** [updateLinks] on each document of a list in turn. *)
Fixpoint updateEach (l : list path) (s : state) : outcome unit :=
  match l with
  | [] => Ok tt s
  | p :: rest => let* (_, s) := updateLinks p s in updateEach rest s
  end.

(** * Properties *)

(** ** Unique names *)

Arguments Sha256.hex : simpl never.
Arguments hashSuffix : simpl never.
Arguments uniqueNameOf : simpl never.

Section Properties.

Context {engine : RegExpEngine}.

Lemma hex_of_length : forall n x, String.length (Sha256.hex_of n x) = n.
Proof.
  induction n as [|n IH]; intro x; simpl; [reflexivity | now rewrite IH].
Qed.

Lemma take_app_exact : forall a b,
  Str.take (String.length a) (a ++ b) = a.
Proof.
  unfold Str.take. induction a as [|c a IH]; intro b; simpl.
  - destruct b; reflexivity.
  - now rewrite IH.
Qed.

(** The suffix is the hexadecimal form of the first digest word. *)
Lemma hashSuffix_first_word : forall c,
  hashSuffix c = Sha256.hex_of 8 (hd 0%N (Sha256.digest_words c)).
Proof.
  intro c. unfold hashSuffix, Sha256.hex, Sha256.digest_words.
  cbv zeta.
  set (r := Sha256.blocks _ _ _).
  cbn [map String.concat hd].
  rewrite <- (hex_of_length 8 (Sha256.ra r)) at 1.
  apply take_app_exact.
Qed.

Lemma hashSuffix_length : forall c, String.length (hashSuffix c) = 8.
Proof.
  intro c. rewrite hashSuffix_first_word. apply hex_of_length.
Qed.

(** C9: the unique name of a file is its stem, "_", the first 8
    hexadecimal characters of the SHA-256 of its content, and its
    extension; the suffix depends on the content alone, so two files of the
    same content, in any two states of any two runs, get the same suffix. *)
Theorem generateUniqueName_deterministic :
  forall (s1 s2 : state) (p1 p2 : path) (c : string),
    Fs.readFile (fsys s1) p1 = inr c ->
    Fs.readFile (fsys s2) p2 = inr c ->
    exists suffix : string,
      suffix = Str.take 8 (Sha256.hex c) /\
      String.length suffix = 8 /\
      generateUniqueName p1 s1
      = Ok (parse_name (basename p1) ++ "_" ++ suffix
            ++ parse_ext (basename p1))%string s1 /\
      generateUniqueName p2 s2
      = Ok (parse_name (basename p2) ++ "_" ++ suffix
            ++ parse_ext (basename p2))%string s2.
Proof.
  intros s1 s2 p1 p2 c H1 H2.
  exists (hashSuffix c). split; [reflexivity|]. split; [apply hashSuffix_length|].
  unfold generateUniqueName. rewrite H1, H2. split; reflexivity.
Qed.

(** ** The folder walk *)

Lemma below_child : forall folder name p rest,
  below (child folder name) p = Some rest ->
  below folder p = Some (name :: rest).
Proof.
  unfold child. induction folder as [|a folder IH]; intros name p rest H.
  - simpl in *. destruct p as [|b p]; [discriminate|].
    destruct (String.eqb_spec name b); [subst|discriminate].
    simpl in H. now inversion H.
  - destruct p as [|b p]; simpl in *; [discriminate|].
    destruct (String.eqb a b); [|discriminate]. now apply IH.
Qed.

Lemma below_self_child : forall folder name,
  below folder (child folder name) = Some [name].
Proof.
  unfold child. induction folder as [|a folder IH]; intro name; simpl.
  - reflexivity.
  - now rewrite String.eqb_refl.
Qed.





(** ** The rewrite pass *)

(** The lookup of both callbacks stops after one further hop. *)
Lemma renamedName_resolves : forall renamed key fallback,
  resolvesTo renamed key fallback (renamedName renamed key fallback).
Proof.
  intros renamed key fallback. unfold renamedName, JsObj.get_or.
  assert (Hbare : named renamed key = false ->
    resolvesTo renamed key fallback
      match JsObj.read renamed (JsObj.to_string (JsObj.Stored fallback)) with
      | Some again =>
          if JsObj.truthy again then JsObj.to_string again
          else JsObj.to_string (JsObj.Stored fallback)
      | None => JsObj.to_string (JsObj.Stored fallback)
      end).
  { intro Hk. cbn [JsObj.to_string].
    destruct (JsObj.read renamed fallback) as [w|] eqn:Hw.
    - destruct (JsObj.truthy w) eqn:Tw.
      + now apply resolves_bare_hop.
      + apply resolves_bare; [assumption|]. unfold named. now rewrite Hw.
    - apply resolves_bare; [assumption|]. unfold named. now rewrite Hw. }
  destruct (JsObj.read renamed key) as [v|] eqn:Hv.
  - destruct (JsObj.truthy v) eqn:Tv.
    + destruct (JsObj.read renamed (JsObj.to_string v)) as [w|] eqn:Hw.
      * destruct (JsObj.truthy w) eqn:Tw.
        -- eapply resolves_hop; eauto.
        -- apply resolves_direct; [assumption|assumption|].
           unfold named. now rewrite Hw.
      * apply resolves_direct; [assumption|assumption|].
        unfold named. now rewrite Hw.
    + apply Hbare. unfold named. now rewrite Hv.
  - apply Hbare. unfold named. now rewrite Hv.
Qed.

Lemma rewriteWikilink_spec : forall renamed m u,
  rewriteWikilink renamed m = Some u -> wikilinkRewrite renamed m u.
Proof.
  intros renamed [link alias] u H. unfold rewriteWikilink in H.
  destruct (Uri.decodeURIComponent link) as [decoded|] eqn:Hd; [|discriminate].
  exists decoded. eexists. cbn [fst snd]. split; [exact Hd|]. split.
  - apply renamedName_resolves.
  - inversion H. unfold wikilinkText.
    destruct (String.eqb (extname link) ""); destruct alias; reflexivity.
Qed.

Lemma rewriteMarkdownLink_spec : forall renamed m u,
  rewriteMarkdownLink renamed m = Some u -> markdownRewrite renamed m u.
Proof.
  intros renamed [text link] u H. unfold rewriteMarkdownLink in H.
  destruct (Uri.decodeURIComponent link) as [decoded|] eqn:Hd; [|discriminate].
  exists decoded. eexists. cbn [fst snd]. split; [exact Hd|]. split.
  - apply renamedName_resolves.
  - now inversion H.
Qed.

Lemma replaceWith_rewritten : forall X (f : X -> option string)
    (R : X -> string -> Prop) l out,
  (forall x u, f x = Some u -> R x u) ->
  replaceWith f l = Some out -> rewritten R l out.
Proof.
  intros X f R l. induction l as [|[c|x] l IH]; intros out HR H; simpl in H.
  - inversion H. constructor.
  - destruct (replaceWith f l) as [t|]; [|discriminate]. inversion H.
    constructor. now apply IH.
  - destruct (f x) as [u|] eqn:Hx; [|discriminate].
    destruct (replaceWith f l) as [t|]; [|discriminate]. inversion H.
    constructor; [now apply HR|now apply IH].
Qed.

Lemma replaceWith_none : forall X (f : X -> option string) l,
  replaceWith f l = None ->
  exists x, In x (Links.matches_of l) /\ f x = None.
Proof.
  intros X f l. induction l as [|[c|x] l IH]; intro H; simpl in H.
  - discriminate.
  - destruct (replaceWith f l) as [t|]; [discriminate|].
    destruct (IH eq_refl) as [x [Hin Hx]]. exists x. now split.
  - destruct (f x) as [u|] eqn:Hx.
    + destruct (replaceWith f l) as [t|]; [discriminate|].
      destruct (IH eq_refl) as [y [Hin Hy]]. exists y. split; [now right|exact Hy].
    + exists x. split; [now left|exact Hx].
Qed.

(** What [updateLinks] does with a document it could read. *)
Lemma updateLinks_rewrites :
  forall (filePath : path) (s : state) (bytes : string),
    Fs.readFile (fsys s) filePath = inr bytes ->
    let renamed := renamedFiles s in
    let wikilinks := Links.scan Links.wiki_match (Utf8.text bytes) 0 in
    (exists out : string,
       rewrittenText renamed bytes out
       /\ rewriteContent renamed bytes = Some out
       /\ updateLinks filePath s
          = match Fs.writeFile (fsys s) filePath out with
            | inl e => Throw (IOError e filePath) s
            | inr f => Ok tt (set_fs s f)
            end)
    \/ (updateLinks filePath s = Throw URIError s
        /\ (undecodable (map fst (Links.matches_of wikilinks))
            \/ exists mid : string,
                 rewritten (wikilinkRewrite renamed) wikilinks mid
                 /\ undecodable
                      (map snd (Links.matches_of
                                  (Links.scan Links.md_match_rewrite mid 0))))).
Proof.
  intros filePath s bytes Hr renamed wikilinks.
  unfold updateLinks, rewriteContent. rewrite Hr. fold renamed. fold wikilinks.
  destruct (replaceWith (rewriteWikilink renamed) wikilinks) as [mid|] eqn:Hw.
  - assert (Hmid : rewritten (wikilinkRewrite renamed) wikilinks mid)
      by (eapply replaceWith_rewritten; [apply rewriteWikilink_spec|exact Hw]).
    destruct (replaceWith (rewriteMarkdownLink renamed)
                (Links.scan Links.md_match_rewrite mid 0)) as [out|] eqn:Hm.
    + left. exists out. split; [|split; reflexivity].
      exists mid. split; [exact Hmid|].
      eapply replaceWith_rewritten; [apply rewriteMarkdownLink_spec|exact Hm].
    + right. split; [reflexivity|]. right. exists mid. split; [exact Hmid|].
      destruct (replaceWith_none _ _ _ Hm) as [[text link] [Hin Hx]].
      exists link. split; [now apply (in_map snd) in Hin|].
      unfold rewriteMarkdownLink in Hx.
      now destruct (Uri.decodeURIComponent link).
  - right. split; [reflexivity|]. left.
    destruct (replaceWith_none _ _ _ Hw) as [[link alias] [Hin Hx]].
    exists link. split; [now apply (in_map fst) in Hin|].
    unfold rewriteWikilink in Hx.
    now destruct (Uri.decodeURIComponent link).
Qed.

(** ** Path resolution *)

Lemma path_eqb_eq : forall p q, Path.eqb p q = true <-> p = q.
Proof.
  induction p as [|a p IH]; destruct q as [|b q]; simpl; split; intro H;
    try reflexivity; try discriminate.
  - apply andb_prop in H. destruct H as [H1 H2].
    apply String.eqb_eq in H1. apply IH in H2. now subst.
  - inversion H; subst. rewrite String.eqb_refl. simpl. now apply IH.
Qed.

Lemma path_eqb_refl : forall p, Path.eqb p p = true.
Proof. intro p. now apply path_eqb_eq. Qed.

Lemma lookup_In : forall l p c, Fs.lookup l p = Some c -> In (p, c) l.
Proof.
  induction l as [|[q d] l IH]; intros p c H; simpl in *; [discriminate|].
  destruct (Path.eqb q p) eqn:E.
  - apply path_eqb_eq in E. inversion H; subst. now left.
  - right. now apply IH.
Qed.

Lemma In_lookup : forall l p c, In (p, c) l -> exists d, Fs.lookup l p = Some d.
Proof.
  induction l as [|[q d] l IH]; intros p c H; simpl in *; [contradiction|].
  destruct (Path.eqb q p) eqn:E; [now exists d|].
  destruct H as [H|H].
  - inversion H; subst. now rewrite path_eqb_refl in E.
  - eapply IH; eauto.
Qed.

Lemma one_below : forall (dir p : path),
  dir = firstn (List.length dir) p ->
  List.length p = S (List.length dir) ->
  p = child dir (nth (List.length dir) p "").
Proof.
  unfold child. induction dir as [|a dir IH]; intros p Hp Hl.
  - destruct p as [|x [|y r]]; simpl in Hl; try discriminate. reflexivity.
  - destruct p as [|x p]; simpl in *; [discriminate|].
    inversion Hp as [[Ha Hd]]. rewrite <- Hd. f_equal.
    apply IH; [assumption|lia].
Qed.

(** An entry that [readdir] reports as a file is a file of the directory. *)
Lemma entries_file : forall dir l seen name,
  In (name, false) (Fs.entries dir l seen) ->
  exists c, In (child dir name, c) l.
Proof.
  intros dir. induction l as [|[p c] l IH]; intros seen name H; simpl in H.
  - contradiction.
  - destruct (is_prefix dir p && (List.length dir <? List.length p)%nat) eqn:E.
    + destruct (existsb (String.eqb (nth (List.length dir) p "")) seen).
      * destruct (IH _ _ H) as [d Hd]. exists d. now right.
      * destruct H as [H|H].
        -- inversion H as [[Hn Hl]]. exists c. left.
           apply andb_prop in E. destruct E as [Ep El].
           apply path_eqb_eq in Ep. apply Nat.ltb_lt in El.
           apply Nat.ltb_ge in Hl.
           assert (Hlen : List.length p = S (List.length dir)) by lia.
           f_equal. subst name. apply one_below; assumption.
        -- destruct (IH _ _ H) as [d Hd]. exists d. now right.
    + destruct (IH _ _ H) as [d Hd]. exists d. now right.
Qed.

Lemma below_child_self : forall dir name rest p,
  below (child dir name) p = Some rest -> below dir p <> None.
Proof.
  intros dir name rest p H. rewrite (below_child _ _ _ _ H). discriminate.
Qed.

Lemma basename_child : forall dir name, basename (child dir name) = name.
Proof. intros. unfold basename, child. apply last_last. Qed.

(** What the search returns is a file of that name inside the directory
    searched, and the search leaves the state as it is. *)
Lemma findFileInVault_sound : forall fuel dir name s p s',
  findFileInVault fuel dir name s = Ok (Some p) s' ->
  s' = s /\ Fs.is_file (fsys s) p = true /\ basename p = name
  /\ below dir p <> None.
Proof.
  induction fuel as [|fuel IHf]; intros dir name s p s' H; simpl in H;
    destruct (Fs.readdir (fsys s) dir) as [e|files] eqn:Er; try discriminate;
    unfold Fs.readdir in Er;
    destruct (Fs.is_file (fsys s) dir); try discriminate;
    destruct (Fs.is_dir (fsys s) dir); try discriminate;
    inversion Er as [Ef]; clear Er;
    assert (Hin : forall x, In x files -> In x (Fs.entries dir (Fs.files (fsys s)) []))
      by (intros x Hx; now rewrite Ef);
    clear Ef; induction files as [|[n isdir] rest IH];
    try discriminate.
  - destruct isdir; [discriminate|].
    destruct (String.eqb_spec n name).
    + inversion H; subst. split; [reflexivity|].
      destruct (entries_file _ _ _ _ (Hin _ (or_introl eq_refl))) as [c Hc].
      destruct (In_lookup _ _ _ Hc) as [d Hd].
      unfold Fs.is_file. rewrite Hd. split; [reflexivity|].
      split; [apply basename_child|]. rewrite below_self_child. discriminate.
    + apply IH; [assumption|]. intros x Hx. apply Hin. now right.
  - destruct isdir.
    + destruct (findFileInVault fuel (child dir n) name s) as [[q|] t| | |] eqn:Ec;
        try discriminate.
      * inversion H; subst.
        destruct (IHf _ _ _ _ _ Ec) as [_ [Hf [Hb Hbel]]].
        split; [reflexivity|]. split; [assumption|]. split; [assumption|].
        destruct (below (child dir n) p) as [r|] eqn:Eb; [|contradiction].
        eapply below_child_self; eauto.
      * apply IH; [assumption|]. intros x Hx. apply Hin. now right.
    + destruct (String.eqb_spec n name).
      * inversion H; subst. split; [reflexivity|].
        destruct (entries_file _ _ _ _ (Hin _ (or_introl eq_refl))) as [c Hc].
        destruct (In_lookup _ _ _ Hc) as [d Hd].
        unfold Fs.is_file. rewrite Hd. split; [reflexivity|].
        split; [apply basename_child|]. rewrite below_self_child. discriminate.
      * apply IH; [assumption|]. intros x Hx. apply Hin. now right.
Qed.

(** ** Placement *)

(** ** Dedup by content *)

Lemma emits_fields : forall evs s,
  fsys (emits s evs) = fsys s
  /\ uniqueAttachments (emits s evs) = uniqueAttachments s
  /\ uniqueNotes (emits s evs) = uniqueNotes s
  /\ renamedFiles (emits s evs) = renamedFiles s
  /\ visitedNotes (emits s evs) = visitedNotes s.
Proof.
  unfold emits. induction evs as [|e evs IH]; intro s; simpl.
  - repeat split.
  - destruct (IH (emit s e)) as [H1 [H2 [H3 [H4 H5]]]].
    rewrite H1, H2, H3, H4, H5. repeat split.
Qed.

(** Making the shared directory changes nothing in the state: it is there,
    or an empty directory is made, or the making fails. *)
Lemma ensureDir_cases : forall dir s,
  ensureDir dir s = Ok tt s
  \/ exists e, ensureDir dir s = Throw (IOError e dir) s.
Proof.
  intros dir s. unfold ensureDir, Fs.mkdir.
  destruct (Fs.access (fsys s) dir); [|now left].
  destruct (Fs.is_file (fsys s) dir || Fs.is_dir (fsys s) dir);
    [right; eauto|].
  destruct (Fs.is_dir (fsys s) (dirname dir)); [|right; eauto].
  left. now destruct s.
Qed.

Lemma readFile_lookup : forall f p c,
  Fs.readFile f p = inr c -> Fs.lookup (Fs.files f) p = Some c.
Proof.
  unfold Fs.readFile. intros f p c H.
  destruct (Fs.lookup (Fs.files f) p) as [d|].
  - destruct (Fs.is_denied f p); [discriminate|]. now inversion H.
  - destruct (Fs.is_dir f p); discriminate.
Qed.

Lemma sameContent_equal : forall f ep rp c,
  Fs.readFile f ep = inr c -> Fs.readFile f rp = inr c ->
  sameContent f ep rp = inr true.
Proof.
  intros f ep rp c He Hr. unfold sameContent, Fs.stat_size.
  rewrite (readFile_lookup _ _ _ He), (readFile_lookup _ _ _ Hr).
  rewrite Nat.eqb_refl, He, Hr. now rewrite String.eqb_refl.
Qed.

(** The first loop finds an entry as soon as the registry holds one of the
    candidate's basename and content. *)
Lemma findSameContent_found : forall f registry name rp ep ref c,
  In (ep, ref) registry -> basename ep = name ->
  Fs.readFile f ep = inr c -> Fs.readFile f rp = inr c ->
  exists ep' evs,
    findSameContent f registry name rp = (Some ep', evs)
    /\ basename ep' = name.
Proof.
  induction registry as [|[q r] registry IH]; intros name rp ep ref c Hin Hb He Hr.
  - contradiction.
  - simpl. destruct (String.eqb_spec (basename q) name) as [Hq|Hq].
    + destruct (sameContent f q rp) as [e|[|]] eqn:Es.
      * destruct Hin as [Hin|Hin].
        -- inversion Hin; subst q r.
           rewrite (sameContent_equal _ _ _ _ He Hr) in Es. discriminate.
        -- destruct (IH _ _ _ _ _ Hin Hb He Hr) as [ep' [evs [H1 H2]]].
           rewrite H1. eauto.
      * eauto.
      * destruct Hin as [Hin|Hin].
        -- inversion Hin; subst q r.
           rewrite (sameContent_equal _ _ _ _ He Hr) in Es. discriminate.
        -- eapply IH; eauto.
    + destruct Hin as [Hin|Hin].
      * inversion Hin; subst q r. contradiction.
      * eapply IH; eauto.
Qed.

(** C1, as the code has it: dedup is by basename.  When a registry, of
    notes or of attachments, holds an entry whose output basename is the
    candidate's and whose file has the candidate's bytes, the step stops at
    the first such entry and records no new export: the files, both
    registries and the rename table are left as they were. *)
Theorem same_name_same_content_exported_once :
  forall (ref : string) (resolvedPath outputDir : path) (s : state)
         (existingPath : path) (existingRef c : string),
    basename existingPath = basename resolvedPath ->
    Fs.readFile (fsys s) existingPath = inr c ->
    Fs.readFile (fsys s) resolvedPath = inr c ->
    (In (existingPath, existingRef) (uniqueAttachments s) ->
     exists s', exportAttachment ref resolvedPath outputDir s = Ok tt s'
                /\ sameStore s s')
    /\ (In (existingPath, existingRef) (uniqueNotes s) ->
        exists s', exportNote ref resolvedPath outputDir s = Ok false s'
                   /\ sameStore s s').
Proof.
  intros ref rp out s ep eref c Hb He Hr. split; intro Hin.
  - destruct (findSameContent_found _ _ _ rp _ _ _ Hin Hb He Hr)
      as [ep' [evs [Hf _]]].
    unfold exportAttachment. rewrite Hf.
    eexists. split; [reflexivity|].
    destruct (emits_fields evs s) as [H1 [H2 [H3 [H4 H5]]]].
    unfold sameStore. simpl. auto.
  - destruct (findSameContent_found _ _ _ rp _ _ _ Hin Hb He Hr)
      as [ep' [evs [Hf _]]].
    unfold exportNote. rewrite Hf.
    eexists. split; [reflexivity|].
    destruct (emits_fields evs s) as [H1 [H2 [H3 [H4 H5]]]].
    unfold sameStore. simpl. auto.
Qed.

(** ** Names and paths *)

Lemma rev_to_rev_to : forall s acc t,
  Str.rev_to (Str.rev_to s acc) t = Str.rev_to acc (s ++ t)%string.
Proof.
  induction s as [|c s IH]; intros acc t; simpl; [reflexivity|].
  now rewrite IH.
Qed.

Lemma append_nil_r : forall s : string, (s ++ "")%string = s.
Proof. induction s as [|c s IH]; simpl; [reflexivity | now rewrite IH]. Qed.

Lemma split_acc_no_sep : forall c s cur,
  Str.includes c s = false ->
  Str.split_acc c s cur = [Str.rev (Str.rev_to s cur)].
Proof.
  intros c. induction s as [|a s IH]; intros cur H; simpl in *.
  - reflexivity.
  - apply orb_false_elim in H. destruct H as [Ha Hs].
    rewrite Ha. now apply IH.
Qed.

Lemma split_no_sep : forall c s,
  Str.includes c s = false -> Str.split c s = [s].
Proof.
  intros c s H. unfold Str.split. rewrite (split_acc_no_sep _ _ _ H).
  unfold Str.rev. rewrite rev_to_rev_to. simpl. now rewrite append_nil_r.
Qed.

Lemma join_plain : forall dir n, plainName n -> join dir n = child dir n.
Proof.
  intros dir n [Hs [H1 [H2 H3]]]. unfold join. rewrite (split_no_sep _ _ Hs).
  simpl. unfold push_seg.
  destruct (String.eqb_spec n ""); [contradiction|].
  destruct (String.eqb_spec n "."); [contradiction|].
  destruct (String.eqb_spec n ".."); [contradiction|]. reflexivity.
Qed.

Lemma includes_app : forall c a b,
  Str.includes c (a ++ b)%string = Str.includes c a || Str.includes c b.
Proof.
  intros c. induction a as [|x a IH]; intro b; simpl; [reflexivity|].
  rewrite IH. now rewrite orb_assoc.
Qed.

Lemma includes_substring : forall c s n m,
  Str.includes c s = false -> Str.includes c (String.substring n m s) = false.
Proof.
  intros c. induction s as [|x s IH]; intros n m H; simpl in *.
  - destruct n, m; reflexivity.
  - apply orb_false_elim in H. destruct H as [Hx Hs].
    destruct n as [|n].
    + destruct m as [|m]; simpl; [reflexivity|]. rewrite Hx. simpl. now apply IH.
    + now apply IH.
Qed.

Lemma length_substring : forall s n m,
  String.length (String.substring n m s) = Nat.min m (String.length s - n).
Proof.
  induction s as [|x s IH]; intros n m; simpl.
  - destruct n, m; reflexivity.
  - destruct n as [|n].
    + destruct m as [|m]; simpl; [reflexivity|]. rewrite IH. f_equal. f_equal. lia.
    + rewrite IH. reflexivity.
Qed.

Lemma string_length_app : forall a b : string,
  String.length (a ++ b)%string = String.length a + String.length b.
Proof. induction a as [|x a IH]; intro b; simpl; [reflexivity | now rewrite IH]. Qed.

Lemma hex_digit_no_slash : forall n,
  (n < 16)%N -> Ascii.eqb (Sha256.hex_digit n) Str.slash = false.
Proof.
  intros n H.
  assert (Hn : exists k, (k < 16)%nat /\ n = N.of_nat k).
  { exists (N.to_nat n). split; [lia | now rewrite N2Nat.id]. }
  destruct Hn as [k [Hk ->]].
  do 16 (destruct k as [|k]; [reflexivity|]). lia.
Qed.

Lemma hex_of_no_slash : forall n x,
  Str.includes Str.slash (Sha256.hex_of n x) = false.
Proof.
  induction n as [|n IH]; intro x; simpl; [reflexivity|].
  rewrite IH. rewrite hex_digit_no_slash; [reflexivity|].
  apply N.mod_lt. discriminate.
Qed.

Lemma hashSuffix_no_slash : forall c,
  Str.includes Str.slash (hashSuffix c) = false.
Proof. intro c. rewrite hashSuffix_first_word. apply hex_of_no_slash. Qed.

(** A unique name is one plain segment, and never the natural name. *)
Lemma uniqueNameOf_plain : forall name c,
  Str.includes Str.slash name = false -> plainName (uniqueNameOf name c).
Proof.
  intros name c H. unfold plainName, uniqueNameOf.
  split.
  - rewrite !includes_app. unfold parse_name, parse_ext, Str.take.
    rewrite (includes_substring _ _ _ _ H), hashSuffix_no_slash. simpl.
    unfold extname_seg. destruct (Str.lastIndexOf Str.dot name) as [[|i]|];
      try reflexivity.
    destruct (String.eqb name ".."); [reflexivity|].
    unfold Str.drop. now apply includes_substring.
  - assert (Hl : 9 <= String.length
                        (parse_name name ++ "_" ++ hashSuffix c ++ parse_ext name)).
    { rewrite !string_length_app, hashSuffix_length. simpl. lia. }
    repeat split; intro E; rewrite E in Hl; simpl in Hl; lia.
Qed.

Lemma extname_seg_length : forall b,
  String.length (extname_seg b) <= String.length b.
Proof.
  intro b. unfold extname_seg.
  destruct (Str.lastIndexOf Str.dot b) as [[|i]|]; simpl; try lia.
  destruct (String.eqb b ".."); simpl; [lia|].
  unfold Str.drop. rewrite length_substring. lia.
Qed.

Lemma uniqueNameOf_longer : forall name c,
  String.length name < String.length (uniqueNameOf name c).
Proof.
  intros name c. unfold uniqueNameOf.
  rewrite !string_length_app, hashSuffix_length.
  unfold parse_name, parse_ext, Str.take.
  rewrite length_substring. pose proof (extname_seg_length name). simpl. lia.
Qed.

Lemma uniqueNameOf_fresh : forall name c, uniqueNameOf name c <> name.
Proof.
  intros name c E. pose proof (uniqueNameOf_longer name c) as H.
  rewrite E in H. lia.
Qed.




(** ** Files after a copy or a rename *)

Lemma lookup_put_same : forall l p c, Fs.lookup (Fs.put l p c) p = Some c.
Proof.
  induction l as [|[q d] l IH]; intros p c; simpl.
  - now rewrite path_eqb_refl.
  - destruct (Path.eqb q p) eqn:E; simpl; rewrite E; [reflexivity|apply IH].
Qed.

Lemma lookup_put_other : forall l p c q,
  q <> p -> Fs.lookup (Fs.put l p c) q = Fs.lookup l q.
Proof.
  induction l as [|[r d] l IH]; intros p c q H; simpl.
  - destruct (Path.eqb p q) eqn:E; [|reflexivity].
    apply path_eqb_eq in E. now elim H.
  - destruct (Path.eqb r p) eqn:E; simpl.
    + apply path_eqb_eq in E. subst r.
      destruct (Path.eqb p q) eqn:E2; [|reflexivity].
      apply path_eqb_eq in E2. now elim H.
    + destruct (Path.eqb r q); [reflexivity|]. now apply IH.
Qed.






Lemma blocked_spec : forall f n d,
  Fs.blocked f n d = true ->
  exists k, Fs.is_file f (firstn k d) = true /\ k <= n.
Proof.
  intros f. induction n as [|n IH]; intros d H; cbn [Fs.blocked] in H;
    [discriminate|].
  apply orb_prop in H. destruct H as [H|H].
  - exists (S n). split; [assumption|lia].
  - destruct (IH _ H) as [k [Hk Hle]]. exists k. split; [assumption|lia].
Qed.



Lemma child_length : forall dir a, List.length (child dir a) = S (List.length dir).
Proof. intros. unfold child. rewrite List.length_app. simpl. lia. Qed.

Lemma dirname_child : forall dir a, dirname (child dir a) = dir.
Proof. intros. unfold dirname, child. apply removelast_last. Qed.

(** ** Name collisions *)






Lemma jsmap_set_In : forall m k v, In (k, v) (JsMap.set m k v).
Proof.
  induction m as [|[q w] m IH]; intros k v; simpl.
  - now left.
  - destruct (Path.eqb q k) eqn:E.
    + apply path_eqb_eq in E. subst q. now left.
    + right. apply IH.
Qed.


Lemma path_eqb_neq : forall p q, p <> q -> Path.eqb p q = false.
Proof.
  intros p q H. destruct (Path.eqb p q) eqn:E; [|reflexivity].
  apply path_eqb_eq in E. contradiction.
Qed.

Lemma path_eqb_sym : forall p q, Path.eqb p q = Path.eqb q p.
Proof.
  intros p q. destruct (Path.eqb q p) eqn:E.
  - apply path_eqb_eq in E. subst. apply path_eqb_refl.
  - apply path_eqb_neq. intro H. subst. now rewrite path_eqb_refl in E.
Qed.


Lemma readFile_not_denied : forall f p c,
  Fs.readFile f p = inr c -> Fs.is_denied f p = false.
Proof.
  unfold Fs.readFile. intros f p c H.
  destruct (Fs.lookup (Fs.files f) p).
  - destruct (Fs.is_denied f p); [discriminate|reflexivity].
  - destruct (Fs.is_dir f p); discriminate.
Qed.

Lemma put_same : forall l p c, Fs.lookup l p = Some c -> Fs.put l p c = l.
Proof.
  induction l as [|[q d] l IH]; intros p c H; simpl in *; [discriminate|].
  destruct (Path.eqb q p).
  - now inversion H.
  - f_equal. now apply IH.
Qed.

(** Membership in a permission list after a removal and after a file took
    the permission of another. *)
Lemma mem_without : forall l p q,
  existsb (Path.eqb p) (Fs.without l q)
  = existsb (Path.eqb p) l && negb (Path.eqb p q).
Proof.
  unfold Fs.without. induction l as [|a l IH]; intros p q; simpl; [reflexivity|].
  destruct (Path.eqb a q) eqn:Eaq; simpl.
  - rewrite IH. apply path_eqb_eq in Eaq. subst a.
    destruct (Path.eqb p q); simpl; [now rewrite andb_false_r|reflexivity].
  - rewrite IH. destruct (Path.eqb p a) eqn:Epa; simpl; [|reflexivity].
    apply path_eqb_eq in Epa. subst a. now rewrite Eaq.
Qed.

Lemma mem_as_of : forall l src dst p,
  existsb (Path.eqb p) (Fs.as_of l src dst)
  = if Path.eqb p dst then existsb (Path.eqb src) l else existsb (Path.eqb p) l.
Proof.
  intros l src dst p. unfold Fs.as_of.
  destruct (existsb (Path.eqb src) l) eqn:E; simpl; rewrite mem_without;
    destruct (Path.eqb p dst); simpl; try reflexivity;
    try apply andb_false_r; apply andb_true_r.
Qed.


(** A copy that succeeds: the destination has the bytes of the source. *)
Lemma copyFileToOutput_copies : forall src dst c s,
  Fs.readFile (fsys s) src = inr c ->
  Fs.blocked (fsys s) (List.length (dirname dst)) (dirname dst) = false ->
  Fs.is_dir (fsys s) dst = false ->
  Fs.is_readonly (fsys s) dst = false ->
  exists f',
    copyFileToOutput src dst s = Ok tt (set_fs s f')
    /\ Fs.files f' = Fs.put (Fs.files (fsys s)) dst c
    /\ forall q, q <> dst ->
         Fs.is_denied f' q = Fs.is_denied (fsys s) q
         /\ Fs.is_readonly f' q = Fs.is_readonly (fsys s) q.
Proof.
  intros src dst c s Hr Hb Hd Hro.
  unfold copyFileToOutput, Fs.access_r, Fs.is_file.
  rewrite (readFile_lookup _ _ _ Hr), (readFile_not_denied _ _ _ Hr).
  unfold Fs.copyFile. rewrite Hb, Hr, Hd, Hro, andb_false_r.
  destruct (Path.eqb src dst) eqn:E.
  - apply path_eqb_eq in E. subst dst. exists (fsys s).
    split; [now destruct s|]. split; [|now split].
    symmetry. apply put_same. now apply readFile_lookup.
  - eexists. split; [reflexivity|]. split; [reflexivity|]. intros q Hq.
    unfold Fs.is_denied, Fs.is_readonly. cbn [Fs.denied Fs.readonly].
    rewrite mem_without, mem_as_of, !(path_eqb_neq _ _ Hq).
    now rewrite andb_true_r.
Qed.

(** What a copy, a rename and a write that succeed have done. *)
Lemma copyFile_inr : forall f src dst f',
  Fs.copyFile f src dst = inr f' ->
  exists c,
    Fs.readFile f src = inr c
    /\ Fs.files f' = Fs.put (Fs.files f) dst c
    /\ Fs.blocked f (List.length (dirname dst)) (dirname dst) = false
    /\ Fs.is_dir f dst = false
    /\ forall q, q <> dst ->
         Fs.is_denied f' q = Fs.is_denied f q
         /\ Fs.is_readonly f' q = Fs.is_readonly f q.
Proof.
  intros f src dst f' H. unfold Fs.copyFile in H.
  destruct (Fs.blocked f _ _) eqn:Hb; [discriminate|].
  destruct (Fs.readFile f src) as [e|c] eqn:Hr; [discriminate|].
  destruct (Fs.is_dir f dst) eqn:Hd; [discriminate|].
  destruct (Fs.is_file f dst && Fs.is_readonly f dst); [discriminate|].
  exists c. split; [reflexivity|].
  destruct (Path.eqb src dst) eqn:E; inversion H; subst f'; clear H.
  - apply path_eqb_eq in E. subst dst.
    split; [symmetry; apply put_same; now apply readFile_lookup|].
    repeat split; reflexivity.
  - split; [reflexivity|]. split; [reflexivity|]. split; [reflexivity|].
    intros q Hq. unfold Fs.is_denied, Fs.is_readonly. cbn [Fs.denied Fs.readonly].
    rewrite mem_without, mem_as_of, !(path_eqb_neq _ _ Hq).
    now rewrite andb_true_r.
Qed.

Lemma rename_inr : forall f src dst f',
  Fs.rename f src dst = inr f' ->
  exists c,
    Fs.lookup (Fs.files f) src = Some c
    /\ ((src = dst /\ f' = f)
        \/ (src <> dst
            /\ Fs.is_dir f dst = false
            /\ Fs.files f' = Fs.put (Fs.remove (Fs.files f) src) dst c
            /\ forall q, q <> src -> q <> dst ->
                 Fs.is_denied f' q = Fs.is_denied f q
                 /\ Fs.is_readonly f' q = Fs.is_readonly f q)).
Proof.
  intros f src dst f' H. unfold Fs.rename in H.
  destruct (Fs.lookup (Fs.files f) src) as [c|] eqn:Hl;
    [|destruct (Fs.is_dir f src); discriminate].
  exists c. split; [reflexivity|].
  destruct (Path.eqb src dst) eqn:E.
  - left. apply path_eqb_eq in E. inversion H. now split.
  - right. destruct (Fs.is_dir f dst) eqn:Hd; [discriminate|].
    inversion H; subst f'; clear H.
    split; [intro Q; subst; now rewrite path_eqb_refl in E|].
    split; [reflexivity|]. split; [reflexivity|]. intros q H1 H2.
    unfold Fs.is_denied, Fs.is_readonly. cbn [Fs.denied Fs.readonly].
    rewrite !mem_without, !mem_as_of, !(path_eqb_neq _ _ H1),
      !(path_eqb_neq _ _ H2).
    now rewrite !andb_true_r.
Qed.

Lemma writeFile_inr : forall f p c f',
  Fs.writeFile f p c = inr f' ->
  Fs.files f' = Fs.put (Fs.files f) p c
  /\ (Fs.lookup (Fs.files f) p <> None ->
      Fs.denied f' = Fs.denied f /\ Fs.readonly f' = Fs.readonly f).
Proof.
  intros f p c f' H. unfold Fs.writeFile in H.
  destruct (Fs.lookup (Fs.files f) p) as [d|] eqn:Hl.
  - destruct (Fs.is_readonly f p); [discriminate|]. inversion H.
    split; [reflexivity|]. now split.
  - destruct (Fs.is_dir f p); [discriminate|].
    destruct (Fs.is_dir f (dirname p)); [|discriminate]. inversion H.
    split; [reflexivity|]. intro Q. now elim Q.
Qed.

Section Collision.

Variables (dir : path) (name : string).
Hypothesis name_plain : plainName name.


End Collision.

Lemma is_dir_above : forall f p,
  Fs.is_dir f p = existsb (fun e => above p (fst e)) (Fs.files f).
Proof. reflexivity. Qed.

Lemma is_dir_files : forall f f' p,
  Fs.files f' = Fs.files f -> Fs.is_dir f' p = Fs.is_dir f p.
Proof. intros f f' p H. unfold Fs.is_dir. now rewrite H. Qed.





(** ** Termination of the walk *)

Lemma entries_dir : forall dir l seen name,
  In (name, true) (Fs.entries dir l seen) ->
  exists p c, In (p, c) l /\ S (List.length dir) < List.length p.
Proof.
  intros dir. induction l as [|[p c] l IH]; intros seen name H; simpl in H.
  - contradiction.
  - destruct (is_prefix dir p && (List.length dir <? List.length p)%nat).
    + destruct (existsb (String.eqb (nth (List.length dir) p "")) seen).
      * destruct (IH _ _ H) as [q [d [Hq Hl]]]. exists q, d. split; [now right|lia].
      * destruct H as [H|H].
        -- inversion H as [[Hn Hl]]. apply Nat.ltb_lt in Hl.
           exists p, c. split; [now left|lia].
        -- destruct (IH _ _ H) as [q [d [Hq Hl]]].
           exists q, d. split; [now right|lia].
    + destruct (IH _ _ H) as [q [d [Hq Hl]]]. exists q, d. split; [now right|lia].
Qed.

Lemma depth_ge : forall f p c,
  In (p, c) (Fs.files f) -> List.length p <= Fs.depth f.
Proof.
  intros f. unfold Fs.depth. induction (Fs.files f) as [|[q d] l IH];
    intros p c H; simpl in *; [contradiction|].
  destruct H as [H|H].
  - inversion H; subst. lia.
  - specialize (IH _ _ H). lia.
Qed.

(** With fuel for the depth of the file system the search ends, and in the
    state it started from. *)
Lemma findFileInVault_ends : forall fuel dir name s,
  Fs.depth (fsys s) <= List.length dir + fuel + 1 ->
  (exists r, findFileInVault fuel dir name s = Ok r s)
  \/ (exists e, findFileInVault fuel dir name s = Throw e s).
Proof.
  induction fuel as [|fuel IHf]; intros dir name s Hd; simpl;
    unfold Fs.readdir;
    (destruct (Fs.is_file (fsys s) dir); [right; eexists; reflexivity|]);
    (destruct (Fs.is_dir (fsys s) dir); [|right; eexists; reflexivity]);
    remember (Fs.entries dir (Fs.files (fsys s)) []) as files eqn:Ef;
    assert (Hin : forall x, In x files -> In x (Fs.entries dir (Fs.files (fsys s)) []))
      by (intros x Hx; now rewrite <- Ef);
    clear Ef; induction files as [|[n isdir] rest IH];
    try (left; eexists; reflexivity).
  - destruct isdir.
    + exfalso. destruct (entries_dir _ _ _ _ (Hin _ (or_introl eq_refl)))
        as [p [c [Hp Hl]]].
      apply depth_ge in Hp. lia.
    + destruct (String.eqb n name); [left; eexists; reflexivity|].
      apply IH. intros x Hx. apply Hin. now right.
  - destruct isdir.
    + destruct (IHf (child dir n) name s) as [[r Hr]|[e He]].
      * rewrite child_length. lia.
      * rewrite Hr. destruct r; [left; eexists; reflexivity|].
        apply IH. intros x Hx. apply Hin. now right.
      * rewrite He. right; eexists; reflexivity.
    + destruct (String.eqb n name); [left; eexists; reflexivity|].
      apply IH. intros x Hx. apply Hin. now right.
Qed.

Lemma incl_contents_refl : forall s : state,
  incl (contents (fsys s)) (contents (fsys s)).
Proof. intro s. apply incl_refl. Qed.

Lemma keeps_resolveFilePath : forall basePath link s,
  (exists r, resolveFilePath basePath link s = Ok r s)
  \/ (exists e, resolveFilePath basePath link s = Throw e s).
Proof.
  intros basePath link s. unfold resolveFilePath.
  destruct (negb (Str.includes Str.slash link)).
  - destruct (Fs.access (fsys s) (join ATTACHMENTS_DIR link));
      [|left; eexists; reflexivity].
    apply findFileInVault_ends. lia.
  - destruct (Str.startsWith "../" link || Str.startsWith "./" link);
      left; eexists; reflexivity.
Qed.

Lemma kept_refl : forall s, kept s s.
Proof. intro s. split; [apply incl_refl|reflexivity]. Qed.

Lemma kept_trans : forall s1 s2 s3, kept s1 s2 -> kept s2 s3 -> kept s1 s3.
Proof.
  intros s1 s2 s3 [H1 H2] [H3 H4]. split.
  - eapply incl_tran; eauto.
  - congruence.
Qed.

Lemma grown_refl : forall s, grown s s.
Proof. intro s. split; apply incl_refl. Qed.

Lemma grown_trans : forall s1 s2 s3, grown s1 s2 -> grown s2 s3 -> grown s1 s3.
Proof.
  intros s1 s2 s3 [H1 H2] [H3 H4]. split; eapply incl_tran; eauto.
Qed.

Lemma kept_grown : forall s s', kept s s' -> grown s s'.
Proof.
  intros s s' [H1 H2]. split; [assumption|]. rewrite H2. apply incl_refl.
Qed.

Lemma ends_weaken : forall A (R R' : state -> state -> Prop) s (o : outcome A),
  (forall s', R s s' -> R' s s') -> ends R s o -> ends R' s o.
Proof. intros A R R' s o H. destruct o; simpl; auto. Qed.

Lemma ends_bind : forall A B (R : state -> state -> Prop) s (m : outcome A)
    (k : A -> state -> outcome B),
  (forall s1 s2 s3, R s1 s2 -> R s2 s3 -> R s1 s3) ->
  ends R s m ->
  (forall a s', m = Ok a s' -> R s s' -> ends R s' (k a s')) ->
  ends R s (bind m k).
Proof.
  intros A B R s m k Ht Hm Hk. destruct m as [a s'| | |]; simpl in *; auto.
  specialize (Hk a s' eq_refl Hm).
  destruct (k a s'); simpl in *; eauto.
Qed.

Lemma ends_step : forall A (R : state -> state -> Prop) s s' (o : outcome A),
  (forall s1 s2 s3, R s1 s2 -> R s2 s3 -> R s1 s3) ->
  R s s' -> ends R s' o -> ends R s o.
Proof. intros A R s s' o Ht H Ho. destruct o; simpl in *; eauto. Qed.

Lemma kept_emit : forall s e, kept s (emit s e).
Proof. intros. split; [apply incl_refl|reflexivity]. Qed.

(** A state that differs from [s] only in registries, table or console. *)
Ltac kept_same := split; [apply incl_refl|reflexivity].

Lemma kept_emits : forall evs s, kept s (emits s evs).
Proof.
  intros evs s. destruct (emits_fields evs s) as [H1 [_ [_ [_ H5]]]].
  split; [rewrite H1; apply incl_refl|assumption].
Qed.

Lemma contents_put : forall l p c,
  incl (map snd (Fs.put l p c)) (c :: map snd l).
Proof.
  induction l as [|[q d] l IH]; intros p c; simpl.
  - apply incl_refl.
  - destruct (Path.eqb q p); simpl.
    + intros x [Hx|Hx]; [now left|]. right. now right.
    + intros x [Hx|Hx]; [right; now left|].
      destruct (IH p c x Hx) as [H|H]; [now left|]. right. now right.
Qed.

Lemma contents_remove : forall l p, incl (map snd (Fs.remove l p)) (map snd l).
Proof.
  unfold Fs.remove. induction l as [|[q d] l IH]; intro p; simpl.
  - apply incl_refl.
  - destruct (Path.eqb q p); simpl.
    + apply incl_tl. apply IH.
    + intros x [Hx|Hx]; [now left|]. right. now apply (IH p).
Qed.

Lemma lookup_contents : forall l p c,
  Fs.lookup l p = Some c -> In c (map snd l).
Proof.
  intros l p c H. apply lookup_In in H. now apply (in_map snd) in H.
Qed.

Lemma keeps_copyFileToOutput : forall src dst s,
  ends kept s (copyFileToOutput src dst s).
Proof.
  intros src dst s. unfold copyFileToOutput.
  destruct (Fs.access_r (fsys s) src) as [[]|]; try kept_same.
  destruct (Fs.copyFile (fsys s) src dst) as [[]|f'] eqn:Ec; try kept_same.
  destruct (copyFile_inr _ _ _ _ Ec) as [c [Hr [Hf _]]].
  unfold ends, kept, contents. cbn [fsys set_fs visitedNotes set_renamed].
  split; [|reflexivity]. rewrite Hf.
  eapply incl_tran; [apply contents_put|].
  intros x [Hx|Hx]; [|assumption]. subst x.
  eapply lookup_contents. eapply readFile_lookup. eauto.
Qed.

Lemma generateUniqueName_cases : forall p s,
  (exists u, generateUniqueName p s = Ok u s)
  \/ (exists s', generateUniqueName p s = Exit 1 s' /\ kept s s').
Proof.
  intros p s. unfold generateUniqueName.
  destruct (Fs.readFile (fsys s) p); [right|left]; eexists; eauto.
  split; [reflexivity|kept_same].
Qed.

Lemma keeps_renameExisting : forall dir registry existingPath ref s,
  ends kept s (renameExisting dir registry existingPath ref s).
Proof.
  intros dir registry ep ref s. unfold renameExisting.
  destruct (generateUniqueName_cases ep s) as [[u Hu]|[s' [Hs Hk]]];
    [rewrite Hu|rewrite Hs; exact Hk].
  cbn [bind].
  destruct (Fs.rename (fsys s) (join dir (basename ep)) (join dir u))
    as [e|f'] eqn:Er; [kept_same|].
  destruct (rename_inr _ _ _ _ Er) as [c [Hl [[_ Hf]|[_ [_ [Hf _]]]]]].
  - subst f'. simpl. kept_same.
  - unfold ends, kept, contents. cbn [fsys set_fs visitedNotes set_renamed].
    split; [|reflexivity]. rewrite Hf.
    eapply incl_tran; [apply contents_put|].
    intros x [Hx|Hx].
    + subst x. eapply lookup_contents; eauto.
    + eapply contents_remove; eauto.
Qed.

Lemma keeps_generateUniqueName : forall p s,
  ends kept s (generateUniqueName p s).
Proof.
  intros p s. destruct (generateUniqueName_cases p s) as [[u Hu]|[s' [Hs Hk]]].
  - rewrite Hu. apply kept_refl.
  - rewrite Hs. exact Hk.
Qed.

Lemma keeps_exportAttachment : forall ref resolvedPath outputDir s,
  ends kept s (exportAttachment ref resolvedPath outputDir s).
Proof.
  intros ref rp out s. unfold exportAttachment.
  destruct (findSameContent _ _ _ _) as [[ep|] evs].
  - simpl. eapply kept_trans; [apply kept_emits|kept_same].
  - eapply ends_step; [exact kept_trans|apply kept_emits|].
    apply ends_bind; [exact kept_trans| |].
    + destruct (findSameName _ _) as [[ep eref]|]; [|apply kept_refl].
      apply ends_bind; [exact kept_trans|apply keeps_renameExisting|].
      intros m s1 _ _. simpl. kept_same.
    + intros [] s1 _ _.
      destruct (patternHits _ _) as [[|]|]; [| |apply kept_refl].
      * apply ends_bind; [exact kept_trans| |].
        -- apply ends_bind; [exact kept_trans|apply keeps_generateUniqueName|].
           intros u s2 _ _. simpl. kept_same.
        -- intros u s2 _ _.
           apply ends_bind; [exact kept_trans|apply keeps_copyFileToOutput|].
           intros [] s3 _ _. simpl. kept_same.
      * apply ends_bind; [exact kept_trans|apply kept_refl|].
        intros u s2 _ _.
        apply ends_bind; [exact kept_trans|apply keeps_copyFileToOutput|].
        intros [] s3 _ _. simpl. kept_same.
Qed.

Lemma keeps_eachAttachment : forall refs basePath outputDir s,
  ends kept s (eachAttachment refs basePath outputDir s).
Proof.
  induction refs as [|ref refs IH]; intros basePath out s; simpl.
  - apply kept_refl.
  - destruct (keeps_resolveFilePath basePath ref s) as [[r Hr]|[e He]];
      [rewrite Hr|rewrite He; apply kept_refl].
    simpl. destruct r as [rp|].
    + apply ends_bind; [exact kept_trans|apply keeps_exportAttachment|].
      intros [] s1 _ _. apply IH.
    + eapply ends_step; [exact kept_trans| |apply IH]. kept_same.
Qed.

Lemma keeps_resolveAndCopyAttachments : forall refs basePath outputDir s,
  ends kept s (resolveAndCopyAttachments refs basePath outputDir s).
Proof.
  intros refs basePath out s. unfold resolveAndCopyAttachments.
  destruct (ensureDir_cases (attachmentsDir out) s) as [He|[e He]];
    rewrite He; [apply keeps_eachAttachment|apply kept_refl].
Qed.

Lemma keeps_exportNote : forall note resolvedPath outputDir s,
  ends kept s (exportNote note resolvedPath outputDir s).
Proof.
  intros note rp out s. unfold exportNote.
  destruct (findSameContent _ _ _ _) as [[ep|] evs].
  - simpl. eapply kept_trans; [apply kept_emits|kept_same].
  - eapply ends_step; [exact kept_trans|apply kept_emits|].
    destruct (patternHits _ _) as [hits|]; [|apply kept_refl].
    apply ends_bind; [exact kept_trans| |].
    + destruct (findSameName _ _) as [[ep eref]|]; [|apply kept_refl].
      apply ends_bind; [exact kept_trans|apply keeps_renameExisting|].
      intros m s1 _ _. simpl. kept_same.
    + intros cd s1 _ _.
      apply ends_bind; [exact kept_trans| |].
      * destruct cd; [|apply kept_refl].
        apply ends_bind; [exact kept_trans|apply keeps_generateUniqueName|].
        intros u s2 _ _. simpl. kept_same.
      * intros u s2 _ _.
        apply ends_bind; [exact kept_trans|apply keeps_copyFileToOutput|].
        intros [] s3 _ _. simpl. kept_same.
Qed.

(** Parsing leaves the state alone, and the note links it returns are note
    links of a file's content. *)
Lemma parseMarkdownForLinks_cases : forall p s,
  (exists l, parseMarkdownForLinks p s = Ok l s
             /\ incl (noteLinks l) (noteLinksOf (contents (fsys s))))
  \/ (exists e, parseMarkdownForLinks p s = Throw e s).
Proof.
  intros p s. unfold parseMarkdownForLinks.
  destruct (Fs.readFile (fsys s) p) as [e|c] eqn:Er;
    [right; eexists; reflexivity|].
  destruct (linksOfContent c) as [l|] eqn:El; [|right; eexists; reflexivity].
  left. exists l. split; [reflexivity|].
  intros x Hx. unfold noteLinksOf. apply in_flat_map. exists c. split.
  - unfold contents. eapply lookup_contents. eapply readFile_lookup. eauto.
  - now rewrite El.
Qed.

(** The walk is the making of the directory and then the loop. *)
Lemma resolveAndCopyNotes_S : forall fuel cwd notes basePath outputDir s,
  resolveAndCopyNotes (S fuel) cwd notes basePath outputDir s
  = let* (_, s) := ensureDir (referencesDir outputDir) s in
    eachNote fuel cwd notes basePath outputDir s.
Proof. reflexivity. Qed.

(** One turn of the loop over note links. *)
Lemma eachNote_nil : forall fuel cwd basePath outputDir s,
  eachNote fuel cwd [] basePath outputDir s = Ok tt s.
Proof. reflexivity. Qed.

Lemma eachNote_cons : forall fuel cwd note rest basePath outputDir s,
  eachNote fuel cwd (note :: rest) basePath outputDir s
  = if JsSet.has (visitedNotes s) note
    then eachNote fuel cwd rest basePath outputDir s
    else
      let* (resolvedPath, s) :=
        resolveFilePath basePath note
          (set_visited s (JsSet.add (visitedNotes s) note)) in
      match resolvedPath with
      | None =>
          eachNote fuel cwd rest basePath outputDir
            (logWarning s ("Note not found: " ++ note))
      | Some resolvedPath =>
          if inOutputDir cwd outputDir (basename resolvedPath) then
            eachNote fuel cwd rest basePath outputDir
              (set_notes s (JsMap.set (uniqueNotes s) resolvedPath note))
          else
            let* (exported, s) := exportNote note resolvedPath outputDir s in
            if exported then
              let* (l, s) := parseMarkdownForLinks resolvedPath s in
              let* (_, s) :=
                resolveAndCopyAttachments (attachmentLinks l) resolvedPath
                  outputDir s in
              let* (l, s) := parseMarkdownForLinks resolvedPath s in
              let* (_, s) :=
                resolveAndCopyNotes fuel cwd (noteLinks l) resolvedPath
                  outputDir s in
              eachNote fuel cwd rest basePath outputDir s
            else eachNote fuel cwd rest basePath outputDir s
      end.
Proof. reflexivity. Qed.

Lemma has_In : forall v x, JsSet.has v x = true <-> In x v.
Proof.
  intros v x. unfold JsSet.has. rewrite existsb_exists. split.
  - intros [y [Hy E]]. apply String.eqb_eq in E. now subst.
  - intro H. exists x. split; [assumption|apply String.eqb_refl].
Qed.

Lemma add_incl : forall v x, incl v (JsSet.add v x) /\ In x (JsSet.add v x).
Proof.
  intros v x. unfold JsSet.add. destruct (JsSet.has v x) eqn:E.
  - split; [apply incl_refl|now apply has_In].
  - split; [apply incl_appl, incl_refl|apply in_or_app; right; now left].
Qed.

Lemma filter_length_le : forall (f g : string -> bool) l,
  (forall x, f x = true -> g x = true) ->
  List.length (filter f l) <= List.length (filter g l).
Proof.
  intros f g l H. induction l as [|a l IH]; simpl; [lia|].
  destruct (f a) eqn:Ef.
  - rewrite (H _ Ef). simpl. lia.
  - destruct (g a); simpl; lia.
Qed.

Lemma filter_length_lt : forall (f g : string -> bool) l n,
  (forall x, f x = true -> g x = true) ->
  In n l -> g n = true -> f n = false ->
  List.length (filter f l) < List.length (filter g l).
Proof.
  intros f g l n H. induction l as [|a l IH]; intros Hin Hg Hf; simpl.
  - contradiction.
  - destruct Hin as [Hin|Hin].
    + subst a. rewrite Hg, Hf. simpl.
      pose proof (filter_length_le f g l H). lia.
    + specialize (IH Hin Hg Hf). destruct (f a) eqn:Ef.
      * rewrite (H _ Ef). simpl. lia.
      * destruct (g a); simpl; lia.
Qed.

Lemma pending_mono : forall U v v',
  incl v v' -> pending U v' <= pending U v.
Proof.
  intros U v v' H. unfold pending. apply filter_length_le.
  intros x Hx. apply negb_true_iff in Hx. apply negb_true_iff.
  destruct (JsSet.has v x) eqn:E; [|reflexivity].
  apply has_In in E. apply H in E. apply has_In in E. congruence.
Qed.

Lemma pending_add : forall U v n,
  In n U -> JsSet.has v n = false ->
  pending U (JsSet.add v n) < pending U v.
Proof.
  intros U v n Hin Hv. unfold pending.
  apply filter_length_lt with (n := n).
  - intros x Hx. apply negb_true_iff in Hx. apply negb_true_iff.
    destruct (JsSet.has v x) eqn:E; [|reflexivity].
    apply has_In in E. apply (proj1 (add_incl v n)) in E.
    apply has_In in E. congruence.
  - now apply nodup_In.
  - now rewrite Hv.
  - apply negb_false_iff. apply has_In. apply add_incl.
Qed.

Lemma noteLinksOf_incl : forall C C',
  incl C' C -> incl (noteLinksOf C') (noteLinksOf C).
Proof.
  intros C C' H x Hx. unfold noteLinksOf in *.
  apply in_flat_map in Hx. destruct Hx as [c [Hc Hx]].
  apply in_flat_map. exists c. split; [now apply H|assumption].
Qed.

(** The walk ends whenever its fuel exceeds the number of note links of
    the store that are not yet visited. *)
Lemma walk_ends : forall U fuel cwd notes basePath outputDir s,
  incl (noteLinksOf (contents (fsys s))) U ->
  incl notes U ->
  pending U (visitedNotes s) < fuel ->
  ends grown s (resolveAndCopyNotes fuel cwd notes basePath outputDir s).
Proof.
  intros U. induction fuel as [|fuel IHf];
    intros cwd notes base out s HU Hn Hp; [lia|].
  rewrite resolveAndCopyNotes_S.
  destruct (ensureDir_cases (referencesDir out) s) as [He|[e He]];
    rewrite He; clear He; [cbn [bind]|apply grown_refl].
  revert s HU Hp. induction notes as [|n rest IHn]; intros s HU Hp.
  - rewrite eachNote_nil. apply grown_refl.
  - rewrite eachNote_cons.
    assert (Hrest : incl rest U) by (intros x Hx; apply Hn; now right).
    assert (HnU : In n U) by (apply Hn; now left).
    specialize (IHn Hrest).
    assert (Hnext : forall s', grown s s' ->
              ends grown s' (eachNote fuel cwd rest base out s')).
    { intros s' Hg. apply IHn.
      - eapply incl_tran; [apply noteLinksOf_incl; apply Hg|exact HU].
      - pose proof (pending_mono U _ _ (proj2 Hg)). lia. }
    destruct (JsSet.has (visitedNotes s) n) eqn:Hv.
    + apply Hnext. apply grown_refl.
    + cbv zeta. set (s1 := set_visited s (JsSet.add (visitedNotes s) n)).
      assert (G1 : grown s s1) by (split; [apply incl_refl|apply add_incl]).
      eapply ends_step; [exact grown_trans|exact G1|].
      destruct (keeps_resolveFilePath base n s1) as [[r Hr]|[e He]];
        [rewrite Hr|rewrite He; apply grown_refl].
      cbn [bind]. destruct r as [rp|].
      * destruct (inOutputDir cwd out (basename rp)).
        -- assert (G : grown s1 (set_notes s1 (JsMap.set (uniqueNotes s1) rp n)))
             by (split; apply incl_refl).
           eapply ends_step; [exact grown_trans|exact G|].
           apply Hnext. eapply grown_trans; eauto.
        -- apply ends_bind; [exact grown_trans| |].
           { eapply ends_weaken; [|apply keeps_exportNote]. apply kept_grown. }
           intros exported s2 _ G2.
           assert (G02 : grown s s2) by (eapply grown_trans; eauto).
           destruct exported; [|now apply Hnext].
           destruct (parseMarkdownForLinks_cases rp s2) as [[l [Hl _]]|[e He]];
             [rewrite Hl|rewrite He; apply grown_refl].
           cbn [bind].
           apply ends_bind; [exact grown_trans| |].
           { eapply ends_weaken; [|apply keeps_resolveAndCopyAttachments].
             apply kept_grown. }
           intros [] s3 _ G3.
           assert (G03 : grown s s3) by (eapply grown_trans; eauto).
           destruct (parseMarkdownForLinks_cases rp s3) as [[l' [Hl' Hin']]|[e He]];
             [rewrite Hl'|rewrite He; apply grown_refl].
           cbn [bind].
           assert (HU3 : incl (noteLinksOf (contents (fsys s3))) U).
           { eapply incl_tran; [apply noteLinksOf_incl; apply G03|exact HU]. }
           apply ends_bind; [exact grown_trans| |].
           { apply IHf.
             - exact HU3.
             - eapply incl_tran; eauto.
             - assert (H13 : incl (visitedNotes s1) (visitedNotes s3)).
               { eapply incl_tran; [apply G2|apply G3]. }
               pose proof (pending_mono U _ _ H13).
               pose proof (pending_add U (visitedNotes s) n HnU Hv).
               unfold s1 in H. simpl in H. lia. }
           intros [] s4 _ G4. apply Hnext. eapply grown_trans; eauto.
      * assert (G : grown s1 (logWarning s1 ("Note not found: " ++ n)))
          by (split; apply incl_refl).
        eapply ends_step; [exact grown_trans|exact G|].
        apply Hnext. eapply grown_trans; eauto.
Qed.

(** The graph walk terminates on every finite store, cyclic or not: from
    any state, with fuel beyond the number of distinct note links of the
    store that are not yet visited, the walk over links of a stored
    document ends; the visited set has only grown and no content has
    appeared that no file had before. *)
Theorem walk_terminates :
  forall (cwd : path) (notes : list string) (basePath outputDir : path)
         (s : state) (fuel : nat),
    incl notes (noteLinksOf (contents (fsys s))) ->
    pending (noteLinksOf (contents (fsys s))) (visitedNotes s) < fuel ->
    ends grown s (resolveAndCopyNotes fuel cwd notes basePath outputDir s).
Proof.
  intros cwd notes base out s fuel Hn Hf.
  apply (walk_ends (noteLinksOf (contents (fsys s)))); auto.
  apply incl_refl.
Qed.

(** * Further properties of the code *)

(** ** Export without a collision *)

Lemma findSameName_none_content : forall f registry name rp,
  findSameName registry name = None ->
  findSameContent f registry name rp = (None, []).
Proof.
  unfold findSameName. induction registry as [|[q r] registry IH];
    intros name rp H; simpl in *; [reflexivity|].
  destruct (String.eqb (basename q) name); [discriminate|]. now apply IH.
Qed.

(** A readable file whose basename no registered file carries, and that the
    collision pattern does not hit, is exported under its own basename into
    the shared directory: the copy has the file's bytes, the registry gains
    the entry for the reference, the RenameTable is left alone and no other
    file changes.  This holds for attachments and for notes alike, when the
    destination is free to be written. *)
Theorem fresh_export_under_basename :
  forall (ref : string) (outputDir resolvedPath : path) (s : state) (c : string),
    let name := basename resolvedPath in
    Fs.readFile (fsys s) resolvedPath = inr c ->
    plainName name ->
    (let dir := attachmentsDir outputDir in
     findSameName (uniqueAttachments s) name = None ->
     patternHits (uniqueAttachments s) name = Some false ->
     Fs.blocked (fsys s) (List.length dir) dir = false ->
     Fs.is_dir (fsys s) (child dir name) = false ->
     Fs.is_readonly (fsys s) (child dir name) = false ->
     exists s',
       exportAttachment ref resolvedPath outputDir s = Ok tt s'
       /\ Fs.lookup (Fs.files (fsys s')) (child dir name) = Some c
       /\ (forall q, q <> child dir name ->
           Fs.lookup (Fs.files (fsys s')) q = Fs.lookup (Fs.files (fsys s)) q)
       /\ renamedFiles s' = renamedFiles s
       /\ In (child dir name, ref) (uniqueAttachments s'))
    /\ (let dir := referencesDir outputDir in
        findSameName (uniqueNotes s) name = None ->
        patternHits (uniqueNotes s) name = Some false ->
        Fs.blocked (fsys s) (List.length dir) dir = false ->
        Fs.is_dir (fsys s) (child dir name) = false ->
        Fs.is_readonly (fsys s) (child dir name) = false ->
        exists s',
          exportNote ref resolvedPath outputDir s = Ok true s'
          /\ Fs.lookup (Fs.files (fsys s')) (child dir name) = Some c
          /\ (forall q, q <> child dir name ->
              Fs.lookup (Fs.files (fsys s')) q = Fs.lookup (Fs.files (fsys s)) q)
          /\ renamedFiles s' = renamedFiles s
          /\ In (child dir name, ref) (uniqueNotes s')).
Proof.
  intros ref out rp s c name Hr Hp. subst name. split.
  - intros dir Hn Hpat Hb Hd Hro. subst dir.
    destruct (copyFileToOutput_copies rp
                (child (attachmentsDir out) (basename rp)) c s Hr)
      as [f' [Hc [Hf _]]]; try assumption; [now rewrite dirname_child|].
    unfold exportAttachment.
    rewrite (findSameName_none_content _ _ _ rp Hn).
    cbn [emits fold_left]. rewrite Hn. cbn [bind]. rewrite Hpat. cbn [bind].
    rewrite (join_plain _ _ Hp), Hc. cbn [bind].
    eexists. split; [reflexivity|].
    cbn [fsys set_attachments set_fs renamedFiles uniqueAttachments].
    rewrite Hf.
    split; [apply lookup_put_same|].
    split; [intros q Hq; now apply lookup_put_other|].
    split; [reflexivity|apply jsmap_set_In].
  - intros dir Hn Hpat Hb Hd Hro. subst dir.
    destruct (copyFileToOutput_copies rp
                (child (referencesDir out) (basename rp)) c s Hr)
      as [f' [Hc [Hf _]]]; try assumption; [now rewrite dirname_child|].
    unfold exportNote.
    rewrite (findSameName_none_content _ _ _ rp Hn).
    cbn [emits fold_left]. rewrite Hn, Hpat. cbn [bind].
    rewrite (join_plain _ _ Hp), Hc. cbn [bind].
    eexists. split; [reflexivity|].
    cbn [fsys set_notes set_fs renamedFiles uniqueNotes].
    rewrite Hf.
    split; [apply lookup_put_same|].
    split; [intros q Hq; now apply lookup_put_other|].
    split; [reflexivity|apply jsmap_set_In].
Qed.

(** ** The content check *)

Lemma sameContent_true : forall f ep rp,
  sameContent f ep rp = inr true ->
  exists c, Fs.readFile f ep = inr c /\ Fs.readFile f rp = inr c.
Proof.
  intros f ep rp H. unfold sameContent in H.
  destruct (Fs.stat_size f ep) as [e|n]; [discriminate|].
  destruct (Fs.stat_size f rp) as [e|m]; [discriminate|].
  destruct (n =? m)%nat; [|discriminate].
  destruct (Fs.readFile f ep) as [e|a]; [discriminate|].
  destruct (Fs.readFile f rp) as [e|b]; [discriminate|].
  inversion H as [E]. apply String.eqb_eq in E. subst b. now exists a.
Qed.

Lemma findSameContent_sound : forall f registry name rp ep evs,
  findSameContent f registry name rp = (Some ep, evs) ->
  exists ref c,
    In (ep, ref) registry /\ basename ep = name
    /\ Fs.readFile f ep = inr c /\ Fs.readFile f rp = inr c.
Proof.
  induction registry as [|[q r] registry IH]; intros name rp ep evs H;
    simpl in H; [discriminate|].
  destruct (String.eqb_spec (basename q) name) as [Hq|Hq].
  - destruct (sameContent f q rp) as [e|[|]] eqn:Es.
    + destruct (findSameContent f registry name rp) as [r' evs'] eqn:Er.
      inversion H; subst r'.
      destruct (IH _ _ _ _ Er) as [ref [c [Hi Hj]]].
      exists ref, c. split; [now right|exact Hj].
    + inversion H; subst q.
      destruct (sameContent_true _ _ _ Es) as [c [Hc1 Hc2]].
      exists r, c. repeat split; auto. now left.
    + destruct (IH _ _ _ _ H) as [ref [c [Hi Hj]]].
      exists ref, c. split; [now right|exact Hj].
  - destruct (IH _ _ _ _ H) as [ref [c [Hi Hj]]].
    exists ref, c. split; [now right|exact Hj].
Qed.

(** A note is skipped for its content, and so not walked any further, only
    when the notes registry holds a file of its basename that is readable
    and has exactly its bytes; the skip changes no file, registry or table. *)
Theorem note_skipped_only_if_identical :
  forall (note : string) (resolvedPath outputDir : path) (s s' : state),
    exportNote note resolvedPath outputDir s = Ok false s' ->
    sameStore s s'
    /\ exists existingPath ref c,
         In (existingPath, ref) (uniqueNotes s)
         /\ basename existingPath = basename resolvedPath
         /\ Fs.readFile (fsys s) existingPath = inr c
         /\ Fs.readFile (fsys s) resolvedPath = inr c.
Proof.
  intros note rp out s s' H. unfold exportNote in H.
  destruct (findSameContent (fsys s) (uniqueNotes s) (basename rp) rp)
    as [[ep|] evs] eqn:Ef.
  - inversion H; subst s'. split.
    + destruct (emits_fields evs s) as [H1 [H2 [H3 [H4 H5]]]].
      unfold sameStore. simpl. auto.
    + destruct (findSameContent_sound _ _ _ _ _ _ Ef) as [ref [c Hc]].
      exists ep, ref, c. exact Hc.
  - exfalso.
    destruct (patternHits _ _) as [hits|]; [|discriminate].
    match type of H with
    | bind ?m _ = _ => destruct m as [cd s1| | |]; try discriminate
    end.
    cbn [bind] in H.
    match type of H with
    | bind ?m _ = _ => destruct m as [u s2| | |]; try discriminate
    end.
    cbn [bind] in H.
    match type of H with
    | bind ?m _ = _ => destruct m as [[] s3| | |]; try discriminate
    end.
Qed.

(** ** The copy helper *)

(** [copyFileToOutput] returns or throws and never ends the process.  When
    it returns, no file other than the destination has changed, in content
    or permissions, the destination keeps what it had or has the bytes of
    the source, and registries, RenameTable and visited set are as before;
    when it throws, nothing has changed at all.  A failure of the access
    check, of the making of the directory or of the copy itself is a
    warning when its code is ENOENT, and is thrown again otherwise.  The
    access check answers ENOENT exactly when nothing is at the source path
    and no file lies on the way to it: a path that runs through a file
    fails with ENOTDIR and is thrown. *)
Theorem copyFileToOutput_effect :
  forall (src dst : path) (s : state),
    ((exists s', copyFileToOutput src dst s = Ok tt s' /\ copied src dst s s')
     \/ exists e, copyFileToOutput src dst s = Throw e s)
    /\ (Fs.access_r (fsys s) src = Some Fs.ENOENT ->
        copyFileToOutput src dst s
        = Ok tt (logWarning s ("Source file not found: " ++ show src)))
    /\ (forall e, Fs.access_r (fsys s) src = Some e -> e <> Fs.ENOENT ->
        copyFileToOutput src dst s = Throw (IOError e src) s)
    /\ (forall e, Fs.access_r (fsys s) src = None ->
        Fs.copyFile (fsys s) src dst = inl e -> e <> Fs.ENOENT ->
        copyFileToOutput src dst s = Throw (IOError e dst) s)
    /\ (Fs.access_r (fsys s) src = Some Fs.ENOENT
        <-> Fs.is_file (fsys s) src = false
            /\ Fs.is_dir (fsys s) src = false
            /\ Fs.blocked (fsys s) (List.length (dirname src)) (dirname src)
               = false).
Proof.
  intros src dst s.
  assert (Hsame : copied src dst s s)
    by (unfold copied; repeat split; auto).
  assert (Hwarn : copied src dst s
                    (logWarning s ("Source file not found: " ++ show src)))
    by (unfold copied; repeat split; auto).
  split; [|split; [|split; [|split]]].
  - unfold copyFileToOutput.
    destruct (Fs.access_r (fsys s) src) as [[]|] eqn:Ea;
      try (right; eexists; reflexivity).
    + left. eexists. split; [reflexivity|exact Hwarn].
    + destruct (Fs.copyFile (fsys s) src dst) as [[]|f'] eqn:Ec;
        try (right; eexists; reflexivity).
      * left. eexists. split; [reflexivity|exact Hwarn].
      * left. eexists. split; [reflexivity|].
        destruct (copyFile_inr _ _ _ _ Ec) as [c [Hr [Hf [_ [_ Hperm]]]]].
        unfold copied. cbn [fsys set_fs uniqueAttachments uniqueNotes
                            renamedFiles visitedNotes].
        split; [|split; [|repeat split]].
        -- intros q Hq. rewrite Hf. split; [now apply lookup_put_other|].
           now apply Hperm.
        -- right. exists c. split; [exact Hr|]. rewrite Hf.
           apply lookup_put_same.
  - intro Ea. unfold copyFileToOutput. now rewrite Ea.
  - intros e Ea Hne. unfold copyFileToOutput. rewrite Ea.
    destruct e; try reflexivity; now elim Hne.
  - intros e Ea Ec Hne. unfold copyFileToOutput. rewrite Ea, Ec.
    destruct e; try reflexivity; now elim Hne.
  - unfold Fs.access_r, Fs.missing.
    destruct (Fs.is_file (fsys s) src).
    + split; [destruct (Fs.is_denied (fsys s) src); discriminate|].
      intros [H _]. discriminate.
    + destruct (Fs.is_dir (fsys s) src).
      * split; [discriminate|]. intros [_ [H _]]. discriminate.
      * destruct (Fs.blocked (fsys s) _ _).
        -- split; [discriminate|]. intros [_ [_ H]]. discriminate.
        -- split; [now repeat split|reflexivity].
Qed.

(** ** The collision pattern *)

Lemma matches_alt : forall s a b,
  Regex.matches (Regex.Alt a b) s = Regex.matches a s || Regex.matches b s.
Proof.
  induction s as [|c s IH]; intros a b; simpl; [reflexivity|apply IH].
Qed.

Lemma matches_seq_null : forall a b y,
  Regex.nullable a = true -> Regex.matches b y = true ->
  Regex.matches (Regex.Seq a b) y = true.
Proof.
  intros a b y Ha Hb. destruct y as [|c t]; simpl in *.
  - now rewrite Ha, Hb.
  - rewrite Ha, matches_alt, Hb. apply orb_true_r.
Qed.

Lemma matches_seq : forall x a b y,
  Regex.matches a x = true -> Regex.matches b y = true ->
  Regex.matches (Regex.Seq a b) (x ++ y) = true.
Proof.
  induction x as [|c x IH]; intros a b y Ha Hb; simpl in *.
  - now apply matches_seq_null.
  - destruct (Regex.nullable a).
    + rewrite matches_alt, (IH _ _ _ Ha Hb). reflexivity.
    + now apply IH.
Qed.

Lemma matches_star_alnum : forall s,
  Str.forallb Str.is_alnum s = true ->
  Regex.matches (Regex.Star Regex.Alnum) s = true.
Proof.
  induction s as [|c s IH]; intro H; simpl in *; [reflexivity|].
  apply andb_prop in H. destruct H as [Hc Hs]. rewrite Hc.
  apply (matches_seq_null Regex.Eps); [reflexivity|now apply IH].
Qed.

Lemma matches_plus_alnum : forall s,
  alnumWord s = true -> Regex.matches (Regex.Plus Regex.Alnum) s = true.
Proof.
  intros s H. unfold alnumWord in H. apply andb_prop in H.
  destruct H as [Hn Ha]. destruct s as [|c s]; [discriminate|].
  simpl in Ha. apply andb_prop in Ha. destruct Ha as [Hc Hs].
  unfold Regex.Plus. simpl. rewrite Hc.
  apply (matches_seq_null Regex.Eps); [reflexivity|].
  now apply matches_star_alnum.
Qed.

Lemma matches_chr : forall c, Regex.matches (Regex.Chr c) (String c "") = true.
Proof. intro c. simpl. now rewrite Ascii.eqb_refl. Qed.

Lemma matches_literal : forall s cur x,
  Regex.matches cur x = true ->
  Regex.matches (literal cur s) (x ++ s) = true.
Proof.
  induction s as [|c s IH]; intros cur x H; simpl.
  - now rewrite append_nil_r.
  - replace (x ++ String c s)%string with ((x ++ String c "") ++ s)%string.
    + apply IH. apply matches_seq; [assumption|apply matches_chr].
    + clear. induction x as [|a x IHx]; simpl; [reflexivity|now rewrite IHx].
Qed.

Lemma plain_cases : forall c,
  Regex.plain c = true ->
  Ascii.eqb c ")"%char = false /\ Ascii.eqb c "("%char = false
  /\ Ascii.eqb c "."%char = false /\ c <> "*"%char /\ c <> "+"%char
  /\ c <> "?"%char.
Proof.
  intros c H.
  repeat split;
    try (match goal with
         | |- Ascii.eqb c ?d = false =>
             destruct (Ascii.eqb_spec c d); [subst c; discriminate|reflexivity]
         end);
    intro E; subst c; discriminate.
Qed.

Lemma quantified_plain : forall a t,
  Str.forallb Regex.plain t = true -> Regex.quantified a t = (a, t).
Proof.
  intros a t H. destruct t as [|c t]; [reflexivity|].
  simpl in H. apply andb_prop in H. destruct H as [Hc _].
  destruct (plain_cases _ Hc) as [_ [_ [_ [H1 [H2 H3]]]]].
  unfold Regex.quantified.
  destruct c as [[] [] [] [] [] [] [] []]; try reflexivity;
    try (now elim H1); try (now elim H2); now elim H3.
Qed.

(** A stem of plain characters compiles to itself, character by character. *)
Lemma parse_seq_plain : forall s fuel cur,
  Str.forallb Regex.plain s = true -> String.length s < fuel ->
  Regex.parse_seq fuel s cur = Some (literal cur s, EmptyString).
Proof.
  induction s as [|c s IH]; intros fuel cur H Hl;
    (destruct fuel as [|fuel]; [simpl in Hl; lia|]).
  - reflexivity.
  - simpl in H. apply andb_prop in H. destruct H as [Hc Hs].
    destruct (plain_cases _ Hc) as [E1 [E2 [E3 _]]].
    cbn [Regex.parse_seq]. rewrite E1, E2, E3, Hc.
    rewrite (quantified_plain _ _ Hs). apply IH; [assumption|simpl in Hl; lia].
Qed.

Lemma hex_digit_alnum : forall n,
  (n < 16)%N -> Str.is_alnum (Sha256.hex_digit n) = true.
Proof.
  intros n H.
  assert (Hn : exists k, (k < 16)%nat /\ n = N.of_nat k).
  { exists (N.to_nat n). split; [lia | now rewrite N2Nat.id]. }
  destruct Hn as [k [Hk ->]].
  do 16 (destruct k as [|k]; [reflexivity|]). lia.
Qed.

Lemma hex_of_alnum : forall n x,
  Str.forallb Str.is_alnum (Sha256.hex_of n x) = true.
Proof.
  induction n as [|n IH]; intro x; simpl; [reflexivity|].
  rewrite IH, hex_digit_alnum; [reflexivity|].
  apply N.mod_lt. discriminate.
Qed.

Lemma hashSuffix_alnumWord : forall c, alnumWord (hashSuffix c) = true.
Proof.
  intro c. unfold alnumWord. rewrite hashSuffix_first_word.
  rewrite hex_of_alnum. reflexivity.
Qed.

(** ** The shape of a unique name *)

Lemma lastIndexOf_from_bound : forall c s k found i,
  Str.lastIndexOf_from c s k found = Some i ->
  found = Some i \/ (k <= i /\ i < k + String.length s).
Proof.
  intros c. induction s as [|a s IH]; intros k found i H; simpl in H.
  - now left.
  - apply IH in H. destruct H as [H|H].
    + destruct (Ascii.eqb a c).
      * inversion H; subst. right. simpl. lia.
      * now left.
    + right. simpl. lia.
Qed.

Lemma lastIndexOf_lt : forall c s i,
  Str.lastIndexOf c s = Some i -> i < String.length s.
Proof.
  intros c s i H. apply lastIndexOf_from_bound in H.
  destruct H as [H|H]; [discriminate|lia].
Qed.

Lemma take_drop : forall s i,
  i <= String.length s -> (Str.take i s ++ Str.drop i s)%string = s.
Proof.
  unfold Str.take, Str.drop.
  induction s as [|a s IH]; intros i H; simpl in *.
  - destruct i; [reflexivity|lia].
  - destruct i as [|i]; simpl.
    + f_equal. specialize (IH 0 ltac:(lia)).
      replace (String.length s - 0) with (String.length s) in IH by lia.
      destruct s; [reflexivity|]. simpl in *. exact IH.
    + f_equal. apply IH. lia.
Qed.

Lemma take_all : forall s, Str.take (String.length s) s = s.
Proof.
  unfold Str.take. induction s as [|a s IH]; simpl; [reflexivity|].
  now rewrite IH.
Qed.

(** [path.parse] splits a name into stem and extension and loses nothing. *)
Lemma parse_name_ext : forall b, (parse_name b ++ parse_ext b)%string = b.
Proof.
  intro b. unfold parse_name, parse_ext, extname_seg.
  destruct (Str.lastIndexOf Str.dot b) as [i|] eqn:E.
  - apply lastIndexOf_lt in E. destruct i as [|i].
    + simpl. rewrite Nat.sub_0_r, take_all. apply append_nil_r.
    + destruct (String.eqb b "..").
      * simpl. rewrite Nat.sub_0_r, take_all. apply append_nil_r.
      * unfold Str.drop at 1. rewrite length_substring.
        replace (String.length b
                 - Nat.min (String.length b - S i) (String.length b - S i))
          with (S i) by lia.
        apply take_drop. lia.
  - simpl. rewrite Nat.sub_0_r, take_all. apply append_nil_r.
Qed.

Lemma lastIndexOf_from_spec : forall c s k found i,
  Str.lastIndexOf_from c s k found = Some i ->
  (found = Some i /\ Str.includes c s = false)
  \/ exists pre post,
       s = (pre ++ String c post)%string /\ i = k + String.length pre
       /\ Str.includes c post = false.
Proof.
  intros c. induction s as [|a s IH]; intros k found i H; simpl in H.
  - left. now split.
  - destruct (IH _ _ _ H) as [[Hf Hs]|[pre [post [Hs [Hi Hp]]]]].
    + destruct (Ascii.eqb_spec a c) as [E|E].
      * subst a. right. exists EmptyString, s. simpl. inversion Hf.
        repeat split; [lia|assumption].
      * left. split; [assumption|]. simpl.
        destruct (Ascii.eqb_spec a c); [contradiction|assumption].
    + right. exists (String a pre), post. simpl. subst s.
      repeat split; [lia|assumption].
Qed.

Lemma lastIndexOf_from_none : forall c s k found,
  Str.lastIndexOf_from c s k found = None ->
  found = None /\ Str.includes c s = false.
Proof.
  intros c. induction s as [|a s IH]; intros k found H; simpl in H.
  - now split.
  - destruct (IH _ _ H) as [Hf Hs]. simpl.
    destruct (Ascii.eqb a c); [discriminate|]. now split.
Qed.

Lemma drop_app : forall pre t, Str.drop (String.length pre) (pre ++ t) = t.
Proof.
  unfold Str.drop. induction pre as [|a pre IH]; intro t; simpl.
  - rewrite Nat.sub_0_r. apply take_all.
  - apply IH.
Qed.

(** The extension [path.parse] gives: empty, or the last dot of the name
    and what follows it, and then the stem is not empty. *)
Lemma parse_ext_shape : forall b,
  (parse_ext b = EmptyString
   /\ (Str.includes Str.dot (Str.drop 1 b) = false \/ b = ".."))
  \/ exists e,
       parse_ext b = String Str.dot e /\ Str.includes Str.dot e = false
       /\ parse_name b <> EmptyString.
Proof.
  intro b. unfold parse_ext, extname_seg.
  destruct (Str.lastIndexOf Str.dot b) as [i|] eqn:E.
  - unfold Str.lastIndexOf in E.
    destruct (lastIndexOf_from_spec _ _ _ _ _ E)
      as [[Hf _]|[pre [post [Hs [Hi Hp]]]]]; [discriminate|].
    simpl in Hi. subst i.
    destruct pre as [|a pre].
    + left. split; [reflexivity|]. left. subst b. simpl.
      change (Str.includes Str.dot (Str.drop (String.length (String Str.dot ""))
                                      (String Str.dot "" ++ post)) = false).
      now rewrite drop_app.
    + cbn [String.length].
      destruct (String.eqb_spec b "..") as [Eb|Eb].
      * left. split; [reflexivity|now right].
      * right. exists post. subst b.
        change (S (String.length pre)) with (String.length (String a pre)).
        rewrite drop_app. split; [reflexivity|]. split; [assumption|].
        intro Hn.
        pose proof (parse_name_ext (String a pre ++ String Str.dot post)) as Hx.
        rewrite Hn in Hx. unfold parse_ext, extname_seg in Hx.
        unfold Str.lastIndexOf in Hx. rewrite E in Hx.
        cbn [String.length] in Hx.
        destruct (String.eqb_spec (String a pre ++ String Str.dot post) "..");
          [contradiction|].
        change (S (String.length pre)) with (String.length (String a pre)) in Hx.
        rewrite drop_app in Hx. simpl in Hx.
        apply (f_equal String.length) in Hx. simpl in Hx.
        rewrite string_length_app in Hx. simpl in Hx. lia.
  - left. split; [reflexivity|]. left.
    unfold Str.lastIndexOf in E. apply lastIndexOf_from_none in E.
    destruct E as [_ E]. apply includes_substring. exact E.
Qed.

(** The name [generateUniqueName] returns for a readable file is the
    file's own name with "_" and the 8-character suffix put between stem
    and extension, as [path.parse] cuts the name: the extension is the last
    dot and what follows it, or empty when the name has no dot after its
    first character (or is ".."), and the stem is the rest.  The unique
    name is 9 characters longer, hence never the natural name itself, and
    it is a single path segment, so the renamed file stays in its
    directory. *)
Theorem generateUniqueName_shape :
  forall (filePath : path) (s : state) (c : string),
    Fs.readFile (fsys s) filePath = inr c ->
    Str.includes Str.slash (basename filePath) = false ->
    let name := basename filePath in
    let stem := parse_name name in
    let ext := parse_ext name in
    let unique := (stem ++ "_" ++ Str.take 8 (Sha256.hex c) ++ ext)%string in
    generateUniqueName filePath s = Ok unique s
    /\ (stem ++ ext)%string = name
    /\ ((ext = EmptyString
         /\ (Str.includes Str.dot (Str.drop 1 name) = false \/ name = ".."))
        \/ exists e, ext = String Str.dot e /\ Str.includes Str.dot e = false
                     /\ stem <> EmptyString)
    /\ alnumWord (Str.take 8 (Sha256.hex c)) = true
    /\ String.length (Str.take 8 (Sha256.hex c)) = 8
    /\ String.length unique = String.length name + 9
    /\ unique <> name
    /\ join (dirname filePath) unique = child (dirname filePath) unique.
Proof.
  intros p s c Hr Hs name stem ext unique.
  split; [unfold generateUniqueName; now rewrite Hr|].
  split; [apply parse_name_ext|].
  split; [apply parse_ext_shape|].
  split; [apply hashSuffix_alnumWord|].
  split; [apply hashSuffix_length|].
  change unique with (uniqueNameOf name c).
  split.
  - unfold uniqueNameOf. rewrite !string_length_app, hashSuffix_length.
    rewrite <- (parse_name_ext name) at 3.
    rewrite string_length_app. simpl. lia.
  - split; [apply uniqueNameOf_fresh|].
    apply join_plain. now apply uniqueNameOf_plain.
Qed.

(** ** Documents without links *)

Lemma wiki_match_no_bracket : forall s,
  Str.includes bracket s = false -> Links.wiki_match s = None.
Proof.
  intros s H. destruct s as [|c s]; [reflexivity|].
  simpl in H. apply orb_false_elim in H. destruct H as [Hc _].
  unfold Links.wiki_match, Links.wikilink_at.
  destruct c as [[] [] [] [] [] [] [] []]; try reflexivity. discriminate.
Qed.

Lemma mdlink_at_no_bracket : forall lazy least s,
  Str.includes bracket s = false -> Links.mdlink_at lazy least s = None.
Proof.
  intros lazy least s H. destruct s as [|c s]; [reflexivity|].
  simpl in H. apply orb_false_elim in H. destruct H as [Hc _].
  unfold Links.mdlink_at.
  destruct c as [[] [] [] [] [] [] [] []]; try reflexivity. discriminate.
Qed.

(** A pass over a text without "[" finds no match and keeps every
    character. *)
Lemma scan_no_bracket : forall X (at_head : string -> option (X * nat)) s,
  (forall t, Str.includes bracket t = false -> at_head t = None) ->
  Str.includes bracket s = false ->
  Links.scan at_head s 0 = map inl (list_ascii_of_string s).
Proof.
  intros X at_head s Hh. induction s as [|c s IH]; intro H; [reflexivity|].
  cbn [Links.scan]. rewrite (Hh _ H).
  simpl in H. apply orb_false_elim in H. destruct H as [_ Hs].
  simpl. now rewrite IH.
Qed.

Lemma matches_of_inl : forall X (l : list ascii),
  Links.matches_of (map (@inl ascii X) l) = [].
Proof. induction l as [|a l IH]; simpl; auto. Qed.

Lemma replaceWith_inl : forall X (f : X -> option string) s,
  replaceWith f (map inl (list_ascii_of_string s)) = Some s.
Proof.
  intros X f. induction s as [|c s IH]; simpl; [reflexivity|].
  now rewrite IH.
Qed.

(** The decoded text has an opening bracket only where the bytes have. *)
Lemma decode_no_bracket : forall s st,
  Str.includes bracket s = false ->
  match st with
  | Utf8.Idle => True
  | Utf8.Inside read _ _ _ => Str.includes bracket read = false
  end ->
  Str.includes bracket (Utf8.decode s st) = false.
Proof.
  induction s as [|c s IH]; intros st H Hst.
  - destruct st; reflexivity.
  - simpl in H. apply orb_false_elim in H. destruct H as [Hc Hs].
    assert (Hfresh : Str.includes bracket
      (if (nat_of_ascii c <? 128)%nat then String c (Utf8.decode s Utf8.Idle)
       else
         match Utf8.lead (nat_of_ascii c) with
         | Some (lo, hi, more) =>
             Utf8.decode s (Utf8.Inside (String c EmptyString) more lo hi)
         | None => (Utf8.replacement ++ Utf8.decode s Utf8.Idle)%string
         end) = false).
    { destruct (nat_of_ascii c <? 128)%nat.
      - simpl. rewrite Hc. now apply IH.
      - destruct (Utf8.lead (nat_of_ascii c)) as [[[lo hi] more]|].
        + apply IH; [assumption|]. simpl. now rewrite Hc.
        + rewrite includes_app. rewrite (IH Utf8.Idle Hs I). reflexivity. }
    cbn [Utf8.decode]. cbv zeta. destruct st as [|read more lo hi].
    + exact Hfresh.
    + destruct (Utf8.between lo hi (nat_of_ascii c)).
      * destruct more as [|[|m]].
        -- rewrite includes_app. rewrite Hst. simpl. rewrite Hc.
           now apply IH.
        -- rewrite includes_app. rewrite Hst. simpl. rewrite Hc.
           now apply IH.
        -- apply IH; [assumption|]. rewrite includes_app, Hst. simpl.
           now rewrite Hc.
      * rewrite includes_app, Hfresh. reflexivity.
Qed.

Lemma text_no_bracket : forall bytes,
  Str.includes bracket bytes = false ->
  Str.includes bracket (Utf8.text bytes) = false.
Proof. intros bytes H. now apply decode_no_bracket. Qed.

(** ASCII bytes are their own text. *)
Lemma text_ascii : forall bytes,
  asciiOnly bytes = true -> Utf8.text bytes = bytes.
Proof.
  unfold Utf8.text, asciiOnly. induction bytes as [|c s IH]; intro H;
    [reflexivity|].
  simpl in H. apply andb_prop in H. destruct H as [Hc Hs].
  cbn [Utf8.decode]. cbv zeta. rewrite Hc. now rewrite IH.
Qed.

(** A document without an opening square bracket has no links, and the
    rewrite pass finds nothing to replace in it, whatever the RenameTable
    holds: [updateLinks] writes the document's text back, which throws
    EACCES when the file cannot be written, and else leaves at most the
    ill-formed byte sequences changed, to U+FFFD.  For a writable document
    of ASCII bytes [updateLinks] returns the state it was given. *)
Theorem no_bracket_no_links :
  forall (bytes : string),
    Str.includes bracket bytes = false ->
    linksOfContent bytes = Some (MkLinks [] [])
    /\ (forall renamed, rewriteContent renamed bytes = Some (Utf8.text bytes))
    /\ (forall filePath s,
          Fs.readFile (fsys s) filePath = inr bytes ->
          updateLinks filePath s
          = if Fs.is_readonly (fsys s) filePath
            then Throw (IOError Fs.EACCES filePath) s
            else Ok tt (set_fs s (Fs.Make
                                    (Fs.put (Fs.files (fsys s)) filePath
                                       (Utf8.text bytes))
                                    (Fs.denied (fsys s))
                                    (Fs.readonly (fsys s)))))
    /\ (asciiOnly bytes = true ->
        forall filePath s,
          Fs.readFile (fsys s) filePath = inr bytes ->
          Fs.is_readonly (fsys s) filePath = false ->
          updateLinks filePath s = Ok tt s).
Proof.
  intros bytes H0.
  pose proof (text_no_bracket _ H0) as H.
  set (content := Utf8.text bytes) in *.
  assert (Hw : Links.scan Links.wiki_match content 0
               = map inl (list_ascii_of_string content))
    by (apply scan_no_bracket; [apply wiki_match_no_bracket|assumption]).
  assert (Hp : Links.scan Links.md_match_parse content 0
               = map inl (list_ascii_of_string content)).
  { apply scan_no_bracket; [|assumption]. intros t Ht.
    unfold Links.md_match_parse. now rewrite mdlink_at_no_bracket. }
  assert (Hr : Links.scan Links.md_match_rewrite content 0
               = map inl (list_ascii_of_string content)).
  { apply scan_no_bracket; [|assumption]. intros t Ht.
    unfold Links.md_match_rewrite. now rewrite mdlink_at_no_bracket. }
  assert (Hrw : forall renamed, rewriteContent renamed bytes = Some content).
  { intro renamed. unfold rewriteContent. fold content.
    rewrite Hw, replaceWith_inl, Hr. apply replaceWith_inl. }
  assert (Hup : forall filePath s,
    Fs.readFile (fsys s) filePath = inr bytes ->
    updateLinks filePath s
    = if Fs.is_readonly (fsys s) filePath
      then Throw (IOError Fs.EACCES filePath) s
      else Ok tt (set_fs s (Fs.Make (Fs.put (Fs.files (fsys s)) filePath content)
                              (Fs.denied (fsys s)) (Fs.readonly (fsys s))))).
  { intros p s Hf. unfold updateLinks. rewrite Hf, Hrw.
    unfold Fs.writeFile. rewrite (readFile_lookup _ _ _ Hf).
    now destruct (Fs.is_readonly (fsys s) p). }
  split; [|split; [exact Hrw|split; [exact Hup|]]].
  - unfold linksOfContent. fold content. rewrite Hw, Hp, !matches_of_inl.
    reflexivity.
  - intros Ha p s Hf Hro. rewrite (Hup p s Hf), Hro.
    unfold content. rewrite (text_ascii _ Ha).
    rewrite (put_same _ _ _ (readFile_lookup _ _ _ Hf)).
    destruct s as [[files denied readonly] a n v r c]. reflexivity.
Qed.

(** ** The two directory walks *)

Lemma after_bind : forall A B (R : state -> state -> Prop) s (m : outcome A)
    (k : A -> state -> outcome B),
  (forall s1 s2 s3, R s1 s2 -> R s2 s3 -> R s1 s3) ->
  after R s m ->
  (forall a s', R s s' -> after R s' (k a s')) ->
  after R s (bind m k).
Proof.
  intros A B R s m k Ht Hm Hk. destruct m as [a s'| | |]; simpl in *; auto.
  specialize (Hk a s' Hm). destruct (k a s'); simpl in *; eauto.
Qed.


Lemma samePaths_refl : forall s, samePaths s s.
Proof. intro s. unfold samePaths. repeat split. Qed.

Lemma samePaths_trans : forall s1 s2 s3,
  samePaths s1 s2 -> samePaths s2 s3 -> samePaths s1 s3.
Proof.
  unfold samePaths. intros s1 s2 s3 [A1 [A2 [A3 [A4 [A5 [A6 A7]]]]]]
    [B1 [B2 [B3 [B4 [B5 [B6 B7]]]]]].
  repeat split; congruence.
Qed.

Lemma put_present_paths : forall l p c d,
  Fs.lookup l p = Some d -> map fst (Fs.put l p c) = map fst l.
Proof.
  induction l as [|[q e] l IH]; intros p c d H; simpl in *; [discriminate|].
  destruct (Path.eqb q p); simpl; [reflexivity|].
  f_equal. eapply IH; eauto.
Qed.

Lemma samePaths_updateLinks : forall filePath s,
  after samePaths s (updateLinks filePath s).
Proof.
  intros p s. unfold updateLinks.
  destruct (Fs.readFile (fsys s) p) as [e|c] eqn:Er; [apply samePaths_refl|].
  destruct (rewriteContent (renamedFiles s) c) as [out|];
    [|apply samePaths_refl].
  destruct (Fs.writeFile (fsys s) p out) as [e|f'] eqn:Ew;
    [apply samePaths_refl|].
  destruct (writeFile_inr _ _ _ _ Ew) as [Hf Hperm].
  pose proof (readFile_lookup _ _ _ Er) as Hl.
  destruct Hperm as [Hd Hro]; [now rewrite Hl|].
  unfold after, samePaths. cbn [fsys set_fs
    uniqueAttachments uniqueNotes renamedFiles visitedNotes].
  rewrite Hf, Hd, Hro.
  repeat split. eapply put_present_paths. eauto.
Qed.

Lemma samePaths_updateLinksInDirectory :
  forall (depth : nat) (dir : path) (s : state),
    after samePaths s (updateLinksInDirectory depth dir s).
Proof.
  induction depth as [|d IHd]; intros dir s; simpl;
    (destruct (Fs.readdir (fsys s) dir) as [e|files]; [apply samePaths_refl|]);
    generalize s; clear s;
    induction files as [|[name isdir] rest IH]; intro s;
    try apply samePaths_refl.
  - destruct isdir; [exact I|].
    destruct (Str.endsWith ".md" name); [|apply IH].
    apply after_bind;
      [exact samePaths_trans|apply samePaths_updateLinks|].
    intros [] s1 _. apply IH.
  - destruct isdir.
    + apply after_bind; [exact samePaths_trans|apply IHd|].
      intros [] s1 _. apply IH.
    + destruct (Str.endsWith ".md" name); [|apply IH].
      apply after_bind;
        [exact samePaths_trans|apply samePaths_updateLinks|].
      intros [] s1 _. apply IH.
Qed.

(** The rewrite pass creates, deletes, moves and renames nothing: in
    whatever state it ends, by return or by a thrown error, the files are
    at the same paths in the same order with the same permissions, and both
    registries, the RenameTable and the visited set are as before; it can
    only have changed contents. *)
Theorem updateLinksInDirectory_keeps_paths :
  forall (depth : nat) (dir : path) (s : state),
    after samePaths s (updateLinksInDirectory depth dir s).
Proof. exact samePaths_updateLinksInDirectory. Qed.

(** The folder walk takes a file as a document only when its name ends
    with ".md": the walk is the same whatever the action would do on a file
    of any other name. *)
Theorem processFolder_only_markdown :
  forall (act act' : path -> state -> outcome unit) (depth : nat)
         (folder : path) (s : state),
    (forall p s', Str.endsWith ".md" (basename p) = true ->
                  act p s' = act' p s') ->
    processFolderWith act depth folder s = processFolderWith act' depth folder s.
Proof.
  intros act act' depth. induction depth as [|d IHd]; intros folder s H; simpl;
    (destruct (Fs.readdir (fsys s) folder) as [e|files]; [reflexivity|]);
    generalize s; clear s;
    induction files as [|[name isdir] rest IH]; intro s; try reflexivity.
  - destruct (Str.startsWith "_" name); [apply IH|].
    destruct isdir; [reflexivity|].
    destruct (Str.endsWith ".md" name) eqn:Hn; [|apply IH].
    rewrite (H (child folder name) s) by (now rewrite basename_child).
    destruct (act' (child folder name) s); simpl; auto.
  - destruct (Str.startsWith "_" name); [apply IH|].
    destruct isdir.
    + rewrite (IHd (child folder name) s H).
      destruct (processFolderWith act' d (child folder name) s); simpl; auto.
    + destruct (Str.endsWith ".md" name) eqn:Hn; [|apply IH].
      rewrite (H (child folder name) s) by (now rewrite basename_child).
      destruct (act' (child folder name) s); simpl; auto.
Qed.

(** ** Nothing outside the output directory changes *)





































Lemma parse_same_state : forall p s l s',
  parseMarkdownForLinks p s = Ok l s' -> s' = s.
Proof.
  intros p s l s' H.
  destruct (parseMarkdownForLinks_cases p s) as [[l' [H' _]]|[e H']];
    rewrite H' in H; now inversion H.
Qed.


Lemma rev_to_app : forall u t,
  Str.rev_to u t = (Str.rev u ++ t)%string.
Proof.
  unfold Str.rev. induction u as [|b u IH]; intro t; simpl; [reflexivity|].
  rewrite IH, (IH (String b "")).
  generalize (Str.rev_to u "") as w. clear. intro w.
  induction w as [|d w IHw]; simpl; [reflexivity|now rewrite IHw].
Qed.




















(** ** The test for a note already in the output directory *)

Lemma relative_app : forall dir a b,
  relative (dir ++ a) (dir ++ b) = relative a b.
Proof.
  induction dir as [|x dir IH]; intros a b; simpl; [reflexivity|].
  now rewrite String.eqb_refl.
Qed.

(** For an output directory directly under the working directory, the test
    "already in the output directory" holds exactly when the stem of the
    note's name is the name of the output directory; where the note lies
    plays no part in it. *)
Theorem inOutputDir_compares_stem :
  forall (cwd : path) (outputName resolvedName : string),
    plainName (parse_name resolvedName) ->
    inOutputDir cwd (child cwd outputName) resolvedName
    = String.eqb outputName (parse_name resolvedName).
Proof.
  intros cwd X name Hp. unfold inOutputDir.
  rewrite (join_plain _ _ Hp). unfold child. rewrite relative_app.
  cbn [relative]. destruct (String.eqb X (parse_name name)).
  - reflexivity.
  - cbn [map app String.concat]. reflexivity.
Qed.

(** ** The RenameTable during a run *)



Lemma tableGrows_same : forall s s',
  renamedFiles s' = renamedFiles s -> tableGrows s s'.
Proof. intros s s' E. unfold tableGrows. rewrite E. split; auto. Qed.



Lemma table_generateUniqueName : forall p s,
  after tableGrows s (generateUniqueName p s).
Proof.
  intros p s. unfold generateUniqueName.
  destruct (Fs.readFile (fsys s) p); now apply tableGrows_same.
Qed.















(** ** The warnings of the folder walk *)



Lemma console_emits : forall evs s, console (emits s evs) = console s ++ evs.
Proof.
  unfold emits. induction evs as [|e evs IH]; intro s; simpl.
  - now rewrite app_nil_r.
  - rewrite IH. simpl. now rewrite <- app_assoc.
Qed.

(** A state made from [s] by setting fields and printing. *)
Ltac console_step :=
  unfold after, consoleGrows, logWarning;
  cbn [console emit set_fs set_attachments set_notes set_visited set_renamed];
  rewrite ?console_emits, <- ?app_assoc;
  first [ now eexists | exists []; now rewrite app_nil_r ].


Lemma console_generateUniqueName : forall p s,
  after consoleGrows s (generateUniqueName p s).
Proof.
  intros p s. unfold generateUniqueName.
  destruct (Fs.readFile (fsys s) p); console_step.
Qed.














(** ** The search of the vault is exhaustive *)

Lemma below_cons_facts : forall dir p seg rest,
  below dir p = Some (seg :: rest) ->
  is_prefix dir p = true /\ List.length dir < List.length p
  /\ nth (List.length dir) p "" = seg.
Proof.
  unfold is_prefix. induction dir as [|a dir IH]; intros p seg rest H;
    simpl in *.
  - inversion H; subst. simpl. repeat split. lia.
  - destruct p as [|b p]; [discriminate|].
    destruct (String.eqb_spec a b); [subst b|discriminate].
    destruct (IH _ _ _ H) as [H1 [H2 H3]].
    split; [assumption|split; [simpl; lia|assumption]].
Qed.

Lemma below_into_child : forall dir p seg rest,
  below dir p = Some (seg :: rest) -> below (child dir seg) p = Some rest.
Proof.
  unfold child. induction dir as [|a dir IH]; intros p seg rest H; simpl in *.
  - inversion H; subst. simpl. now rewrite String.eqb_refl.
  - destruct p as [|b p]; [discriminate|].
    destruct (String.eqb a b); [|discriminate]. now apply IH.
Qed.

Lemma prefix_child : forall dir p,
  is_prefix dir p = true -> List.length dir < List.length p ->
  is_prefix (child dir (nth (List.length dir) p "")) p = true.
Proof.
  unfold is_prefix, child. induction dir as [|a dir IH]; intros p H Hl.
  - destruct p as [|b p]; [simpl in Hl; lia|]. simpl.
    now rewrite String.eqb_refl.
  - destruct p as [|b p]; [simpl in Hl; lia|]. simpl in *.
    apply andb_prop in H. destruct H as [H1 H2]. rewrite H1. simpl.
    apply IH; [assumption|lia].
Qed.

(** A listed directory has a file strictly below it. *)
Lemma entries_dir_below : forall dir l seen name,
  In (name, true) (Fs.entries dir l seen) ->
  exists p c, In (p, c) l /\ above (child dir name) p = true.
Proof.
  intros dir. induction l as [|[p c] l IH]; intros seen name H; simpl in H.
  - contradiction.
  - destruct (is_prefix dir p && (List.length dir <? List.length p)%nat)
      eqn:E.
    + destruct (existsb (String.eqb (nth (List.length dir) p "")) seen).
      * destruct (IH _ _ H) as [q [d [Hq Ha]]]. exists q, d.
        split; [now right|assumption].
      * destruct H as [H|H].
        -- inversion H as [[Hn Hl]]. exists p, c. split; [now left|].
           apply andb_prop in E. destruct E as [Ep El].
           apply Nat.ltb_lt in El. unfold above.
           rewrite (prefix_child _ _ Ep El), child_length.
           now rewrite Hl.
        -- destruct (IH _ _ H) as [q [d [Hq Ha]]]. exists q, d.
           split; [now right|assumption].
    + destruct (IH _ _ H) as [q [d [Hq Ha]]]. exists q, d.
      split; [now right|assumption].
Qed.

(** Every file below the directory shows in the listing by its first
    segment. *)
Lemma entries_complete : forall dir l seen p c seg rest,
  In (p, c) l -> below dir p = Some (seg :: rest) ->
  (exists b, In (seg, b) (Fs.entries dir l seen)) \/ In seg seen.
Proof.
  intros dir. induction l as [|[q d] l IH]; intros seen p c seg rest Hin Hb;
    simpl in *; [contradiction|].
  destruct Hin as [Hin|Hin].
  - inversion Hin; subst q d.
    destruct (below_cons_facts _ _ _ _ Hb) as [H1 [H2 H3]].
    apply Nat.ltb_lt in H2. rewrite H1, H2, H3. simpl.
    destruct (existsb (String.eqb seg) seen) eqn:Es.
    + right. apply existsb_exists in Es. destruct Es as [x [Hx Ex]].
      apply String.eqb_eq in Ex. now subst.
    + left. eexists. left. reflexivity.
  - destruct (is_prefix dir q && (List.length dir <? List.length q)%nat).
    + destruct (existsb (String.eqb (nth (List.length dir) q "")) seen) eqn:Es.
      * eapply IH; eauto.
      * destruct (IH (nth (List.length dir) q "" :: seen) _ _ _ _ Hin Hb)
          as [[b Hb']|[Hs|Hs]].
        -- left. exists b. now right.
        -- left. subst seg. eexists. left. reflexivity.
        -- now right.
    + eapply IH; eauto.
Qed.

Lemma properTree_file : forall f p c,
  properTree f = true -> In (p, c) (Fs.files f) -> Fs.is_dir f p = false.
Proof.
  intros f p c H Hin. unfold properTree in H. rewrite forallb_forall in H.
  specialize (H _ Hin). now apply negb_true_iff in H.
Qed.

Lemma is_dir_intro : forall f q p c,
  In (p, c) (Fs.files f) -> above q p = true -> Fs.is_dir f q = true.
Proof.
  intros f q p c Hin Ha. rewrite is_dir_above. apply existsb_exists.
  exists (p, c). now split.
Qed.

Lemma above_below : forall dir p rest,
  below dir p = Some rest -> rest <> [] -> above dir p = true.
Proof.
  intros dir p rest Hb Hn. destruct rest as [|seg rest]; [now elim Hn|].
  destruct (below_cons_facts _ _ _ _ Hb) as [H1 [H2 _]].
  unfold above. rewrite H1. now apply Nat.ltb_lt in H2; rewrite H2.
Qed.

(** When the search reports nothing, every listed entry was tried. *)
Lemma search_none_entries : forall fuel dir name s s0 files n b,
  (fix each (files : list (string * bool)) : outcome (option path) :=
     match files with
     | [] => Ok None s
     | (name0, isDirectory) :: rest =>
         if isDirectory then
           match fuel with
           | O => OutOfFuel
           | S f =>
               match findFileInVault f (child dir name0) name s with
               | Ok (Some result) _ => Ok (Some result) s
               | Ok None _ => each rest
               | other => other
               end
           end
         else if String.eqb name0 name then Ok (Some (child dir name0)) s
         else each rest
     end) files = Ok None s0 ->
  In (n, b) files ->
  if b then exists f s', fuel = S f
                         /\ findFileInVault f (child dir n) name s = Ok None s'
  else n <> name.
Proof.
  intros fuel dir name s s0. induction files as [|[m isdir] rest IH];
    intros n b H Hin; [contradiction|].
  destruct isdir.
  - destruct fuel as [|f]; [discriminate|].
    destruct (findFileInVault f (child dir m) name s) as [[r|] s'| | |] eqn:Ec;
      try discriminate.
    destruct Hin as [Hin|Hin]; [inversion Hin; subst; eauto|].
    now apply IH.
  - destruct (String.eqb_spec m name); [discriminate|].
    destruct Hin as [Hin|Hin]; [inversion Hin; subst; assumption|].
    now apply IH.
Qed.

Lemma below_eq : forall dir p rest, below dir p = Some rest -> p = (dir ++ rest)%list.
Proof.
  induction dir as [|a dir IH]; intros p rest H; simpl in *.
  - now inversion H.
  - destruct p as [|b p]; [discriminate|].
    destruct (String.eqb_spec a b); [subst b|discriminate].
    f_equal. now apply IH.
Qed.

Lemma findFileInVault_exhaustive : forall fuel dir name s s',
  properTree (fsys s) = true ->
  findFileInVault fuel dir name s = Ok None s' ->
  forall p c rest,
    In (p, c) (Fs.files (fsys s)) -> below dir p = Some rest -> rest <> [] ->
    basename p <> name.
Proof.
  induction fuel as [|fuel IHf]; intros dir name s s' Ht H p c rest Hin Hb Hn;
    (destruct rest as [|seg rest]; [now elim Hn|]);
    simpl in H; unfold Fs.readdir in H;
    (destruct (Fs.is_file (fsys s) dir); [discriminate|]);
    (destruct (Fs.is_dir (fsys s) dir); [|discriminate]);
    (destruct (entries_complete dir _ [] _ _ _ _ Hin Hb) as [[b Hent]|[]]);
    idtac.
  - pose proof (search_none_entries 0 dir name s _ _ _ _ H Hent) as Hx.
    destruct b.
    + destruct Hx as [f [s1 [Hf _]]]. discriminate.
    + destruct rest as [|seg2 rest].
      * rewrite (below_eq _ _ _ Hb). fold (child dir seg).
        now rewrite basename_child.
      * apply entries_file in Hent. destruct Hent as [c0 Hc0].
        apply below_into_child in Hb.
        assert (Ha : above (child dir seg) p = true)
          by (eapply above_below; [eassumption|discriminate]).
        pose proof (is_dir_intro _ _ _ _ Hin Ha) as Hd.
        rewrite (properTree_file _ _ _ Ht Hc0) in Hd. discriminate.
  - pose proof (search_none_entries (S fuel) dir name s _ _ _ _ H Hent) as Hx.
    destruct b.
    + destruct Hx as [f [s1 [Hf Hr]]]. inversion Hf; subst f.
      destruct rest as [|seg2 rest].
      * apply entries_dir_below in Hent. destruct Hent as [q [d [Hq Ha]]].
        pose proof (is_dir_intro _ _ _ _ Hq Ha) as Hd.
        assert (Hp : p = child dir seg) by (now rewrite (below_eq _ _ _ Hb)).
        subst p. rewrite (properTree_file _ _ _ Ht Hin) in Hd. discriminate.
      * apply below_into_child in Hb.
        eapply IHf; [exact Ht|exact Hr|exact Hin|exact Hb|discriminate].
    + destruct rest as [|seg2 rest].
      * rewrite (below_eq _ _ _ Hb). fold (child dir seg).
        now rewrite basename_child.
      * apply entries_file in Hent. destruct Hent as [c0 Hc0].
        apply below_into_child in Hb.
        assert (Ha : above (child dir seg) p = true)
          by (eapply above_below; [eassumption|discriminate]).
        pose proof (is_dir_intro _ _ _ _ Hin Ha) as Hd.
        rewrite (properTree_file _ _ _ Ht Hc0) in Hd. discriminate.
Qed.

(** X14.  The not-found signal is exact and the search always ends.  On a
    file system where no path is both a file and a directory,
    [resolveFilePath] never runs out of the depth it is given, and when it
    answers with the not-found signal for a link, no file anywhere below
    the vault root bears that link as its name. *)
Theorem not_found_only_if_absent :
  forall (basePath : path) (link : string) (s : state),
    properTree (fsys s) = true ->
    resolveFilePath basePath link s <> OutOfFuel
    /\ forall s',
         resolveFilePath basePath link s = Ok None s' ->
         forall p c rest,
           In (p, c) (Fs.files (fsys s)) ->
           below VAULT_DIR p = Some rest -> rest <> [] ->
           basename p <> link.
Proof.
  intros basePath link s Ht. unfold resolveFilePath.
  destruct (negb (Str.includes Str.slash link)).
  - destruct (Fs.access (fsys s) (join ATTACHMENTS_DIR link)).
    + split.
      * destruct (findFileInVault_ends (Fs.depth (fsys s)) VAULT_DIR link s)
          as [[r Hr]|[e0 He]]; [lia|rewrite Hr|rewrite He]; discriminate.
      * intros s' H. now apply (findFileInVault_exhaustive _ _ _ _ _ Ht H).
    + split; [discriminate|]. intros s' H. discriminate.
  - destruct (Str.startsWith "../" link || Str.startsWith "./" link);
      (split; [discriminate|]); intros s' H; discriminate.
Qed.

(** ** Parsed links *)

Lemma includes_rev_to : forall c s acc,
  Str.includes c (Str.rev_to s acc) = Str.includes c s || Str.includes c acc.
Proof.
  induction s as [|a s IH]; intro acc; simpl; [reflexivity|].
  rewrite IH. simpl. destruct (Ascii.eqb a c), (Str.includes c s); reflexivity.
Qed.

Lemma split_acc_hd : forall c s cur,
  Str.includes c cur = false ->
  Str.includes c (hd ""%string (Str.split_acc c s cur)) = false.
Proof.
  induction s as [|a s IH]; intros cur H; simpl.
  - unfold Str.rev. rewrite includes_rev_to, H. reflexivity.
  - destruct (Ascii.eqb a c) eqn:E; simpl.
    + unfold Str.rev. rewrite includes_rev_to, H. reflexivity.
    + apply IH. simpl. now rewrite E.
Qed.

Lemma processLink_step : forall acc link l,
  processLink acc link = Some l ->
  Forall (fun x => headingFree x = true) (attachmentLinks acc ++ noteLinks acc) ->
  Forall (fun x => headingFree x = true) (attachmentLinks l ++ noteLinks l)
  /\ List.length (attachmentLinks l) + List.length (noteLinks l)
     = S (List.length (attachmentLinks acc) + List.length (noteLinks acc)).
Proof.
  intros acc link l H Hf. unfold processLink in H.
  destruct (Uri.decodeURIComponent link) as [d|]; [|discriminate].
  pose proof (split_acc_hd "#"%char d ""%string eq_refl) as Hc.
  fold (Str.split "#"%char d) in Hc.
  remember (hd ""%string (Str.split "#"%char d)) as clean eqn:Ec.
  apply Forall_app in Hf. destruct Hf as [Ha Hn].
  assert (Hclean : headingFree clean = true)
    by (unfold headingFree; now rewrite Hc).
  assert (Hd : headingFree (clean ++ EXCALIDRAW_REPLACEMENT) = true)
    by (unfold headingFree; rewrite includes_app, Hc; reflexivity).
  assert (Hm : headingFree (clean ++ ".md") = true)
    by (unfold headingFree; rewrite includes_app, Hc; reflexivity).
  cbv zeta in H.
  destruct (negb (extname clean =? "")%string
            && negb (extname clean =? ".md")%string).
  - destruct (Str.endsWith ".excalidraw" clean); inversion H; subst l; simpl;
      (split; [|rewrite List.length_app; simpl; lia]);
      apply Forall_app; (split; [|assumption]);
      apply Forall_app; split; auto.
  - inversion H; subst l; simpl.
    split; [|rewrite List.length_app; simpl; lia].
    apply Forall_app; split; [assumption|].
    apply Forall_app; split; [assumption|].
    destruct (extname clean =? "")%string; auto.
Qed.

Lemma processLinks_steps : forall raw acc l,
  processLinks acc raw = Some l ->
  Forall (fun x => headingFree x = true) (attachmentLinks acc ++ noteLinks acc) ->
  Forall (fun x => headingFree x = true) (attachmentLinks l ++ noteLinks l)
  /\ List.length (attachmentLinks l) + List.length (noteLinks l)
     = List.length raw
       + (List.length (attachmentLinks acc) + List.length (noteLinks acc)).
Proof.
  induction raw as [|x raw IH]; intros acc l H Hf; simpl in H.
  - inversion H; subst l. now split.
  - destruct (processLink acc x) as [acc'|] eqn:Ep; [|discriminate].
    destruct (processLink_step _ _ _ Ep Hf) as [Hf' Hl'].
    destruct (IH _ _ H Hf') as [Hf2 Hl2]. split; [assumption|].
    rewrite Hl2, Hl'. simpl. lia.
Qed.

(** X15.  Each target found in a document is classified exactly once, and
    none keeps its heading.  When [parseMarkdownForLinks] returns, the
    attachment links and the note links together are as many as the targets
    the two patterns matched in the file, the file system and the tables
    are as before, and no link of either list contains a "#": the heading
    of a target never reaches the resolver. *)
Theorem parsed_links_classified_once :
  forall (filePath : path) (s s' : state) (l : links),
    parseMarkdownForLinks filePath s = Ok l s' ->
    s' = s
    /\ (exists content,
          Fs.readFile (fsys s) filePath = inr content
          /\ List.length (attachmentLinks l) + List.length (noteLinks l)
             = List.length (rawTargets content))
    /\ Forall (fun x => headingFree x = true)
              (attachmentLinks l ++ noteLinks l).
Proof.
  intros filePath s s' l H. unfold parseMarkdownForLinks in H.
  destruct (Fs.readFile (fsys s) filePath) as [e|content] eqn:Er;
    [discriminate|].
  destruct (linksOfContent content) as [l0|] eqn:El; [|discriminate].
  inversion H; subst l0 s'. unfold linksOfContent in El.
  destruct (processLinks_steps _ _ _ El (Forall_nil _)) as [Hf Hl].
  split; [reflexivity|]. split; [|assumption].
  exists content. split; [reflexivity|].
  unfold rawTargets. rewrite Hl. simpl. lia.
Qed.

(** *** Every parsed link carries an extension *)

Lemma split_acc_includes : forall c d s cur x,
  In x (Str.split_acc c s cur) -> Str.includes d x = true ->
  Str.includes d s || Str.includes d cur = true.
Proof.
  intros c d. induction s as [|a s IH]; intros cur x Hin Hx; simpl in Hin.
  - destruct Hin as [Hin|[]]. subst x. unfold Str.rev in Hx.
    rewrite includes_rev_to in Hx. simpl in *.
    now rewrite orb_false_r in Hx.
  - simpl. destruct (Ascii.eqb a c).
    + destruct Hin as [Hin|Hin].
      * subst x. unfold Str.rev in Hx. rewrite includes_rev_to in Hx.
        simpl in Hx. rewrite orb_false_r in Hx. rewrite Hx.
        apply orb_true_r.
      * specialize (IH _ _ Hin Hx). simpl in IH. rewrite orb_false_r in IH.
        rewrite IH. now rewrite orb_true_r.
    + specialize (IH _ _ Hin Hx). simpl in IH.
      destruct (Ascii.eqb a d), (Str.includes d s), (Str.includes d cur);
        simpl in *; congruence.
Qed.

Lemma last_In_or_default : forall (l : list string) d,
  last l d = d \/ In (last l d) l.
Proof.
  induction l as [|a l IH]; intro d; [now left|].
  destruct l as [|b l]; [right; now left|].
  destruct (IH d) as [H|H]; [left|right; right]; exact H.
Qed.

Lemma extname_includes_dot : forall s,
  extname s <> ""%string -> Str.includes Str.dot s = true.
Proof.
  intros s H. unfold extname, extname_seg in H.
  destruct (Str.lastIndexOf Str.dot (basename_str s)) as [i|] eqn:El;
    [|now elim H].
  assert (Hb : Str.includes Str.dot (basename_str s) = true).
  { unfold Str.lastIndexOf in El.
    destruct (lastIndexOf_from_spec _ _ _ _ _ El)
      as [[Hf _]|[pre [post [Hs _]]]]; [discriminate|].
    rewrite Hs, includes_app. cbn [Str.includes].
    rewrite Ascii.eqb_refl. apply orb_true_r. }
  unfold basename_str in Hb.
  destruct (last_In_or_default
              (filter (fun x => negb (String.eqb x "")) (Str.split Str.slash s))
              ""%string) as [Hl|Hl].
  - rewrite Hl in Hb. discriminate.
  - apply filter_In in Hl. destruct Hl as [Hl _].
    pose proof (split_acc_includes _ _ _ _ _ Hl Hb) as Hx. simpl in Hx.
    now rewrite orb_false_r in Hx.
Qed.

Lemma processLink_target : forall acc link l,
  processLink acc link = Some l ->
  Forall target (attachmentLinks acc ++ noteLinks acc) ->
  Forall target (attachmentLinks l ++ noteLinks l).
Proof.
  intros acc link l H Hf. unfold processLink in H.
  destruct (Uri.decodeURIComponent link) as [d|]; [|discriminate].
  remember (hd ""%string (Str.split "#"%char d)) as clean eqn:Ec.
  apply Forall_app in Hf. destruct Hf as [Ha Hn].
  assert (Hd : target (clean ++ EXCALIDRAW_REPLACEMENT))
    by (unfold target; rewrite includes_app; apply orb_true_r).
  assert (Hm : target (clean ++ ".md"))
    by (unfold target; rewrite includes_app; apply orb_true_r).
  cbv zeta in H.
  destruct (String.eqb_spec (extname clean) "") as [He|He]; simpl in H.
  - inversion H; subst l; simpl.
    apply Forall_app; split; [assumption|].
    apply Forall_app; split; [assumption|]. now constructor.
  - assert (Hc : target clean) by (now apply extname_includes_dot).
    destruct (negb (extname clean =? ".md")%string).
    + destruct (Str.endsWith ".excalidraw" clean); inversion H; subst l; simpl;
        apply Forall_app; (split; [|assumption]);
        apply Forall_app; split; auto.
    + inversion H; subst l; simpl.
      apply Forall_app; split; [assumption|].
      apply Forall_app; split; [assumption|]. now constructor.
Qed.

(** Every link that [parseMarkdownForLinks] returns contains a dot: the
    references the walk hands on are never the name ["__proto__"]. *)
Lemma parsed_links_are_targets : forall filePath s s' l,
  parseMarkdownForLinks filePath s = Ok l s' ->
  Forall target (attachmentLinks l ++ noteLinks l).
Proof.
  intros filePath s s' l H. unfold parseMarkdownForLinks in H.
  destruct (Fs.readFile (fsys s) filePath) as [e|content]; [discriminate|].
  destruct (linksOfContent content) as [l0|] eqn:El; [|discriminate].
  inversion H; subst l0 s'. unfold linksOfContent in El. cbv zeta in El.
  assert (Hgen : forall raw acc, processLinks acc raw = Some l ->
            Forall target (attachmentLinks acc ++ noteLinks acc) ->
            Forall target (attachmentLinks l ++ noteLinks l)).
  { induction raw as [|x raw IH]; intros acc Hp Hacc; simpl in Hp.
    - now inversion Hp; subst.
    - destruct (processLink acc x) as [acc'|] eqn:Ep; [|discriminate].
      eapply IH; [exact Hp|]. eapply processLink_target; eauto. }
  eapply Hgen; [exact El|constructor].
Qed.

(** ** The order of resolution *)

Lemma find_app : forall A (p : A -> bool) l1 l2,
  find p (l1 ++ l2)
  = match find p l1 with Some x => Some x | None => find p l2 end.
Proof.
  intros A p l1 l2. induction l1 as [|x l1 IH]; simpl; [reflexivity|].
  destruct (p x); [reflexivity|exact IH].
Qed.

(** The search returns the first file of the name in depth-first order. *)
Lemma findFileInVault_first : forall fuel dir name s r s',
  findFileInVault fuel dir name s = Ok r s' ->
  s' = s
  /\ r = find (fun p => String.eqb (basename p) name)
           (walkOrder fuel (fsys s) dir).
Proof.
  induction fuel as [|fuel IHf]; intros dir name s r s' H; simpl in H;
    cbn [walkOrder];
    (destruct (Fs.readdir (fsys s) dir) as [e|files]; [discriminate|]);
    revert r s' H; induction files as [|[n isdir] rest IH]; intros r s' H;
    try (inversion H; now split).
  - cbn [flat_map fst snd]. destruct isdir; [discriminate|].
    cbn [app find]. rewrite basename_child.
    destruct (String.eqb n name); [inversion H; now split|].
    now apply IH.
  - cbn [flat_map fst snd]. rewrite find_app. destruct isdir.
    + destruct (findFileInVault fuel (child dir n) name s)
        as [[res|] s1| | |] eqn:Hsub; try discriminate.
      * destruct (IHf _ _ _ _ _ Hsub) as [_ Hres]. rewrite <- Hres.
        inversion H. now split.
      * destruct (IHf _ _ _ _ _ Hsub) as [_ Hres]. rewrite <- Hres.
        now apply IH.
    + cbn [find]. rewrite basename_child.
      destruct (String.eqb n name); [inversion H; now split|].
      now apply IH.
Qed.

Lemma is_file_In : forall f p,
  Fs.is_file f p = true -> exists c, In (p, c) (Fs.files f).
Proof.
  intros f p H. unfold Fs.is_file in H.
  destruct (Fs.lookup (Fs.files f) p) as [c|] eqn:E; [|discriminate].
  exists c. now apply lookup_In.
Qed.

Lemma properTree_dir : forall f p,
  properTree f = true -> Fs.is_dir f p = true -> Fs.is_file f p = false.
Proof.
  intros f p Ht Hd. destruct (Fs.is_file f p) eqn:E; [|reflexivity].
  destruct (is_file_In _ _ E) as [c Hc].
  rewrite (properTree_file _ _ _ Ht Hc) in Hd. discriminate.
Qed.

(** On a proper tree the search of a directory returns. *)
Lemma findFileInVault_returns : forall fuel dir name s,
  properTree (fsys s) = true ->
  Fs.is_dir (fsys s) dir = true ->
  Fs.depth (fsys s) <= List.length dir + fuel + 1 ->
  exists r, findFileInVault fuel dir name s = Ok r s.
Proof.
  induction fuel as [|fuel IHf]; intros dir name s Ht Hdir Hd; simpl;
    unfold Fs.readdir; rewrite (properTree_dir _ _ Ht Hdir), Hdir;
    remember (Fs.entries dir (Fs.files (fsys s)) []) as files eqn:Ef;
    assert (Hin : forall x, In x files -> In x (Fs.entries dir (Fs.files (fsys s)) []))
      by (intros x Hx; now rewrite <- Ef);
    clear Ef; induction files as [|[n isdir] rest IH];
    try (eexists; reflexivity).
  - destruct isdir.
    + exfalso. destruct (entries_dir _ _ _ _ (Hin _ (or_introl eq_refl)))
        as [p [c [Hp Hl]]].
      apply depth_ge in Hp. lia.
    + destruct (String.eqb n name); [eexists; reflexivity|].
      apply IH. intros x Hx. apply Hin. now right.
  - destruct isdir.
    + destruct (entries_dir_below _ _ _ _ (Hin _ (or_introl eq_refl)))
        as [p [c [Hp Ha]]].
      destruct (IHf (child dir n) name s Ht (is_dir_intro _ _ _ _ Hp Ha))
        as [r Hr]; [rewrite child_length; lia|].
      rewrite Hr. destruct r; [eexists; reflexivity|].
      apply IH. intros x Hx. apply Hin. now right.
    + destruct (String.eqb n name); [eexists; reflexivity|].
      apply IH. intros x Hx. apply Hin. now right.
Qed.

(** C6, as the code has it: a bare filename is taken from the attachments
    directory when something of that name exists there, and is otherwise
    searched in the whole vault, depth-first and in directory order: the
    search never runs out of depth, what it returns is the first file of
    that name in that order, or the not-found signal when there is none,
    and on a proper tree whose vault directory exists it does return.  A
    target that begins with "./" or "../" is resolved against the directory
    of the referring document and any other target with a path against the
    vault root, both without a look at the file system.  So the not-found
    signal arises for bare filenames only; on it the loop of either caller
    logs its warning, leaves the reference as it is and goes on with the
    next one. *)
Theorem resolveFilePath_order :
  forall (basePath : path) (link : string) (s : state),
    (Str.includes Str.slash link = false ->
     Fs.access (fsys s) (join ATTACHMENTS_DIR link) = None ->
     resolveFilePath basePath link s = Ok (Some (join ATTACHMENTS_DIR link)) s)
    /\ (Str.includes Str.slash link = false ->
        Fs.access (fsys s) (join ATTACHMENTS_DIR link) <> None ->
        resolveFilePath basePath link s <> OutOfFuel
        /\ (forall r s',
              resolveFilePath basePath link s = Ok r s' ->
              s' = s
              /\ r = find (fun p => String.eqb (basename p) link)
                       (walkOrder (Fs.depth (fsys s)) (fsys s) VAULT_DIR))
        /\ (forall p s',
              resolveFilePath basePath link s = Ok (Some p) s' ->
              Fs.is_file (fsys s) p = true /\ basename p = link
              /\ below VAULT_DIR p <> None)
        /\ (properTree (fsys s) = true ->
            (Fs.is_dir (fsys s) VAULT_DIR = true ->
             exists r, resolveFilePath basePath link s = Ok r s)
            /\ forall s',
                 resolveFilePath basePath link s = Ok None s' ->
                 forall p c rest,
                   In (p, c) (Fs.files (fsys s)) ->
                   below VAULT_DIR p = Some rest -> rest <> [] ->
                   basename p <> link))
    /\ (Str.includes Str.slash link = true ->
        resolveFilePath basePath link s
        = Ok (Some (if Str.startsWith "../" link || Str.startsWith "./" link
                    then join (dirname basePath) link
                    else join VAULT_DIR link)) s)
    /\ (forall s', resolveFilePath basePath link s = Ok None s' ->
        Str.includes Str.slash link = false /\ s' = s
        /\ forall rest outputDir,
             eachAttachment (link :: rest) basePath outputDir s
             = eachAttachment rest basePath outputDir
                 (logWarning s ("Attachment not found: " ++ link)))
    /\ (forall fuel cwd rest outputDir,
          JsSet.has (visitedNotes s) link = false ->
          let visited := set_visited s (JsSet.add (visitedNotes s) link) in
          resolveFilePath basePath link visited = Ok None visited ->
          eachNote fuel cwd (link :: rest) basePath outputDir s
          = eachNote fuel cwd rest basePath outputDir
              (logWarning visited ("Note not found: " ++ link))).
Proof.
  intros basePath link s.
  assert (Hnotes : forall fuel cwd rest outputDir,
    JsSet.has (visitedNotes s) link = false ->
    let visited := set_visited s (JsSet.add (visitedNotes s) link) in
    resolveFilePath basePath link visited = Ok None visited ->
    eachNote fuel cwd (link :: rest) basePath outputDir s
    = eachNote fuel cwd rest basePath outputDir
        (logWarning visited ("Note not found: " ++ link))).
  { intros fuel cwd rest out Hv visited Hr.
    rewrite eachNote_cons, Hv. fold visited. rewrite Hr.
    reflexivity. }
  assert (Hsearch : Str.includes Str.slash link = false ->
    Fs.access (fsys s) (join ATTACHMENTS_DIR link) <> None ->
    resolveFilePath basePath link s
    = findFileInVault (Fs.depth (fsys s)) VAULT_DIR link s).
  { intros Hi Ha. unfold resolveFilePath. rewrite Hi. simpl.
    destruct (Fs.access (fsys s) (join ATTACHMENTS_DIR link));
      [reflexivity|now elim Ha]. }
  split; [|split; [|split; [|split; [|exact Hnotes]]]].
  - intros Hi Ha. unfold resolveFilePath. rewrite Hi. simpl. now rewrite Ha.
  - intros Hi Ha. rewrite (Hsearch Hi Ha). split; [|split; [|split]].
    + destruct (findFileInVault_ends (Fs.depth (fsys s)) VAULT_DIR link s)
        as [[r Hr]|[e0 He]]; [lia|rewrite Hr|rewrite He]; discriminate.
    + intros r s' H. now apply findFileInVault_first.
    + intros p s' H.
      destruct (findFileInVault_sound _ _ _ _ _ _ H) as [_ [H1 [H2 H3]]].
      auto.
    + intro Ht. split.
      * intro Hd. apply findFileInVault_returns; [assumption|assumption|lia].
      * intros s' H. now apply (findFileInVault_exhaustive _ _ _ _ _ Ht H).
  - intro Hi. unfold resolveFilePath. rewrite Hi. simpl.
    destruct (Str.startsWith "../" link || Str.startsWith "./" link);
      reflexivity.
  - intros s' H. destruct (Str.includes Str.slash link) eqn:Hi.
    + unfold resolveFilePath in H. rewrite Hi in H. simpl in H.
      destruct (Str.startsWith "../" link || Str.startsWith "./" link);
        discriminate.
    + destruct (Fs.access (fsys s) (join ATTACHMENTS_DIR link)) as [e|] eqn:Ha.
      * pose proof H as H'.
        rewrite (Hsearch eq_refl ltac:(discriminate)) in H'.
        destruct (findFileInVault_first _ _ _ _ _ _ H') as [Hs _]. subst s'.
        split; [reflexivity|]. split; [reflexivity|].
        intros rest outputDir. simpl. now rewrite H.
      * unfold resolveFilePath in H. rewrite Hi in H. simpl in H.
        rewrite Ha in H. discriminate.
Qed.

(** ** The rewrite pass over the output directory *)

Lemma keys_is_file : forall f f' p,
  map fst (Fs.files f') = map fst (Fs.files f) ->
  Fs.is_file f' p = Fs.is_file f p.
Proof.
  intros f f' p. unfold Fs.is_file.
  generalize (Fs.files f') as l'. induction (Fs.files f) as [|[q c] l IH];
    intros [|[q' c'] l'] H; simpl in *; try discriminate; [reflexivity|].
  inversion H; subst q'. destruct (Path.eqb q p); [reflexivity|].
  now apply IH.
Qed.

Lemma keys_existsb : forall (g : path -> bool) (l l' : list (path * string)),
  map fst l' = map fst l ->
  existsb (fun e => g (fst e)) l' = existsb (fun e => g (fst e)) l.
Proof.
  intros g. induction l as [|[q c] l IH]; intros [|[q' c'] l'] H;
    simpl in *; try discriminate; [reflexivity|].
  inversion H; subst q'. f_equal. now apply IH.
Qed.

Lemma keys_is_dir : forall f f' p,
  map fst (Fs.files f') = map fst (Fs.files f) ->
  Fs.is_dir f' p = Fs.is_dir f p.
Proof.
  intros f f' p H. unfold Fs.is_dir.
  exact (keys_existsb
           (fun q => is_prefix p q && (List.length p <? List.length q)%nat)
           _ _ H).
Qed.

Lemma keys_entries : forall dir (l l' : list (path * string)) seen,
  map fst l' = map fst l -> Fs.entries dir l' seen = Fs.entries dir l seen.
Proof.
  intros dir. induction l as [|[q c] l IH]; intros [|[q' c'] l'] seen H;
    simpl in *; try discriminate; [reflexivity|].
  inversion H; subst q'.
  destruct (is_prefix dir q && (List.length dir <? List.length q)%nat);
    [|now apply IH].
  destruct (existsb (String.eqb (nth (List.length dir) q "")) seen);
    [now apply IH|]. f_equal. now apply IH.
Qed.

Lemma keys_blocked : forall f f' n d,
  map fst (Fs.files f') = map fst (Fs.files f) ->
  Fs.blocked f' n d = Fs.blocked f n d.
Proof.
  intros f f' n d H. induction n as [|n IH]; [reflexivity|].
  cbn [Fs.blocked]. now rewrite IH, (keys_is_file _ _ _ H).
Qed.

Lemma keys_readdir : forall f f' dir,
  map fst (Fs.files f') = map fst (Fs.files f) ->
  Fs.readdir f' dir = Fs.readdir f dir.
Proof.
  intros f f' dir H. unfold Fs.readdir, Fs.missing.
  now rewrite (keys_is_file _ _ _ H), (keys_is_dir _ _ _ H),
    (keys_entries _ _ _ _ H), (keys_blocked _ _ _ _ H).
Qed.

Lemma keys_walkOrder : forall fuel f f' dir,
  map fst (Fs.files f') = map fst (Fs.files f) ->
  walkOrder fuel f' dir = walkOrder fuel f dir.
Proof.
  induction fuel as [|fuel IH]; intros f f' dir H; cbn [walkOrder];
    rewrite (keys_readdir _ _ _ H);
    (destruct (Fs.readdir f dir) as [e|files]; [reflexivity|]);
    [reflexivity|].
  induction files as [|[n b] files IHf]; [reflexivity|].
  cbn [flat_map fst snd]. rewrite IHf. destruct b; [|reflexivity].
  now rewrite (IH _ _ _ H).
Qed.

Lemma keys_depth : forall f f',
  map fst (Fs.files f') = map fst (Fs.files f) -> Fs.depth f' = Fs.depth f.
Proof.
  intros f f'. unfold Fs.depth. generalize (Fs.files f') as l'.
  induction (Fs.files f) as [|[q c] l IH]; intros [|[q' c'] l'] H;
    simpl in *; try discriminate; [reflexivity|].
  inversion H; subst q'. f_equal. now apply IH.
Qed.

Lemma keys_properTree : forall f f',
  map fst (Fs.files f') = map fst (Fs.files f) ->
  properTree f' = properTree f.
Proof.
  intros f f' H. unfold properTree.
  assert (Hd : forall p, Fs.is_dir f' p = Fs.is_dir f p)
    by (intro p; now apply keys_is_dir).
  revert H. generalize (Fs.files f') as l'.
  induction (Fs.files f) as [|[q c] l IH]; intros [|[q' c'] l'] H;
    simpl in *; try discriminate; [reflexivity|].
  inversion H; subst q'. rewrite Hd. f_equal. now apply IH.
Qed.

Lemma updateEach_app : forall l1 l2 s,
  updateEach (l1 ++ l2) s
  = let* (_, s1) := updateEach l1 s in updateEach l2 s1.
Proof.
  induction l1 as [|p l1 IH]; intros l2 s; simpl; [reflexivity|].
  destruct (updateLinks p s) as [[] s1| | |]; simpl; auto.
Qed.

Lemma samePaths_updateEach : forall l s, after samePaths s (updateEach l s).
Proof.
  induction l as [|p l IH]; intro s; simpl; [apply samePaths_refl|].
  apply after_bind; [exact samePaths_trans|apply samePaths_updateLinks|].
  intros [] s1 _. apply IH.
Qed.

Lemma isMarkdown_child : forall dir n,
  isMarkdown (child dir n) = Str.endsWith ".md" n.
Proof. intros. unfold isMarkdown. now rewrite basename_child. Qed.

(** On a proper tree the pass over a directory is [updateLinks] on each
    Markdown file of its depth-first listing, in that order. *)
Lemma updateLinksInDirectory_each : forall depth dir s,
  properTree (fsys s) = true ->
  Fs.is_dir (fsys s) dir = true ->
  Fs.depth (fsys s) <= List.length dir + depth + 1 ->
  updateLinksInDirectory depth dir s
  = updateEach (filter isMarkdown (walkOrder depth (fsys s) dir)) s.
Proof.
  induction depth as [|d IHd]; intros dir s Ht Hdir Hd;
    cbn [updateLinksInDirectory walkOrder]; unfold Fs.readdir;
    rewrite (properTree_dir _ _ Ht Hdir), Hdir;
    match goal with
    | |- ?loop ?ents s = updateEach (filter _ (flat_map ?F ?ents)) s =>
        enough (Hgen : forall files s1,
                 (forall x, In x files -> In x ents) -> samePaths s s1 ->
                 loop files s1
                 = updateEach (filter isMarkdown (flat_map F files)) s1)
          by (apply Hgen; [auto|apply samePaths_refl])
    end;
    induction files as [|[n b] rest IH]; intros s1 Hin Hs;
    try reflexivity;
    cbn [flat_map fst snd]; rewrite filter_app, updateEach_app;
    (assert (Hrest : forall x, In x rest ->
               In x (Fs.entries dir (Fs.files (fsys s)) []))
       by (intros x Hx; apply Hin; now right));
    (assert (Hk : map fst (Fs.files (fsys s1)) = map fst (Fs.files (fsys s)))
       by apply Hs);
    (destruct b;
     [|cbn [filter]; rewrite isMarkdown_child;
       destruct (Str.endsWith ".md" n);
       [cbn [updateEach];
        pose proof (samePaths_updateLinks (child dir n) s1) as Hu;
        destruct (updateLinks (child dir n) s1) as [[] s2| | |];
        cbn [bind after] in *; try reflexivity;
        apply IH; [exact Hrest|eapply samePaths_trans; eauto]
       |cbn [updateEach bind]; now apply IH]]).
  - exfalso. destruct (entries_dir _ _ _ _ (Hin _ (or_introl eq_refl)))
      as [p [c [Hp Hl]]].
    apply depth_ge in Hp. lia.
  - destruct (entries_dir_below _ _ _ _ (Hin _ (or_introl eq_refl)))
      as [p [c [Hp Ha]]].
    rewrite IHd.
    + rewrite (keys_walkOrder d _ _ _ Hk).
      pose proof (samePaths_updateEach
                    (filter isMarkdown (walkOrder d (fsys s) (child dir n)))
                    s1) as Hu.
      destruct (updateEach
                  (filter isMarkdown (walkOrder d (fsys s) (child dir n))) s1)
        as [[] s2| | |]; cbn [bind after] in *; try reflexivity.
      apply IH; [exact Hrest|eapply samePaths_trans; eauto].
    + now rewrite (keys_properTree _ _ Hk).
    + rewrite (keys_is_dir _ _ _ Hk). eapply is_dir_intro; eauto.
    + rewrite (keys_depth _ _ Hk), child_length. lia.
Qed.

(** On a proper tree the depth-first listing of a directory holds every
    file below it. *)
Lemma walkOrder_complete : forall fuel f dir p c rest,
  properTree f = true ->
  Fs.depth f <= List.length dir + fuel + 1 ->
  In (p, c) (Fs.files f) ->
  below dir p = Some rest -> rest <> [] ->
  In p (walkOrder fuel f dir).
Proof.
  induction fuel as [|fuel IHf]; intros f dir p c rest Ht Hd Hin Hb Hn;
    (destruct rest as [|seg rest]; [now elim Hn|]);
    pose proof (is_dir_intro _ _ _ _ Hin
                  (above_below _ _ _ Hb ltac:(discriminate))) as Hdir;
    cbn [walkOrder]; unfold Fs.readdir;
    rewrite (properTree_dir _ _ Ht Hdir), Hdir;
    (destruct (entries_complete dir _ [] _ _ _ _ Hin Hb) as [[b Hent]|[]]);
    apply in_flat_map; exists (seg, b); (split; [exact Hent|]);
    cbn [fst snd];
    (destruct b;
     [|destruct rest as [|seg2 rest];
       [left; now rewrite (below_eq _ _ _ Hb)|];
       exfalso; apply entries_file in Hent; destruct Hent as [c0 Hc0];
       apply below_into_child in Hb;
       pose proof (is_dir_intro _ _ _ _ Hin
                     (above_below _ _ _ Hb ltac:(discriminate))) as Hx;
       rewrite (properTree_file _ _ _ Ht Hc0) in Hx; discriminate]).
  - exfalso. destruct (entries_dir _ _ _ _ Hent) as [q [d [Hq Hl]]].
    apply depth_ge in Hq. lia.
  - destruct rest as [|seg2 rest].
    + exfalso. apply entries_dir_below in Hent.
      destruct Hent as [q [d [Hq Ha]]].
      pose proof (is_dir_intro _ _ _ _ Hq Ha) as Hx.
      assert (Hp : p = child dir seg) by (now rewrite (below_eq _ _ _ Hb)).
      subst p. rewrite (properTree_file _ _ _ Ht Hin) in Hx. discriminate.
    + apply below_into_child in Hb.
      eapply IHf; [exact Ht| |exact Hin|exact Hb|discriminate].
      rewrite child_length. lia.
Qed.

Lemma entries_fresh : forall dir l seen name b,
  In (name, b) (Fs.entries dir l seen) -> ~ In name seen.
Proof.
  intros dir. induction l as [|[q c] l IH]; intros seen name b H; simpl in H;
    [contradiction|].
  destruct (is_prefix dir q && (List.length dir <? List.length q)%nat);
    [|now apply IH in H].
  destruct (existsb (String.eqb (nth (List.length dir) q "")) seen) eqn:Es;
    [now apply IH in H|].
  destruct H as [H|H].
  - inversion H; subst. intro Hin.
    assert (Hx : existsb (String.eqb (nth (List.length dir) q "")) seen = true)
      by (apply existsb_exists; eexists; split;
          [exact Hin|apply String.eqb_refl]).
    rewrite Hx in Es. discriminate.
  - apply IH in H. intro Hin. apply H. now right.
Qed.

Lemma entries_NoDup : forall dir l seen,
  NoDup (map fst (Fs.entries dir l seen)).
Proof.
  intros dir. induction l as [|[q c] l IH]; intro seen; simpl;
    [constructor|].
  destruct (is_prefix dir q && (List.length dir <? List.length q)%nat);
    [|apply IH].
  destruct (existsb (String.eqb (nth (List.length dir) q "")) seen);
    [apply IH|].
  simpl. constructor; [|apply IH].
  intro Hin. apply in_map_iff in Hin. destruct Hin as [[n b] [Hn Hin]].
  simpl in Hn. subst n. apply entries_fresh in Hin. apply Hin. now left.
Qed.

(** What the listing holds lies below the directory. *)
Lemma walkOrder_below : forall fuel f dir p,
  In p (walkOrder fuel f dir) ->
  exists n rest, below dir p = Some (n :: rest).
Proof.
  induction fuel as [|fuel IH]; intros f dir p H; cbn [walkOrder] in H;
    (destruct (Fs.readdir f dir) as [e|files]; [contradiction|]);
    apply in_flat_map in H; destruct H as [[n b] [_ H]]; cbn [fst snd] in H;
    (destruct b;
     [|destruct H as [H|[]]; subst p; exists n, [];
       apply below_self_child]).
  - contradiction.
  - destruct (IH _ _ _ H) as [n' [rest Hb]]. exists n, (n' :: rest).
    now apply below_child.
Qed.

Lemma flat_map_NoDup : forall (F : string * bool -> list path) dir files,
  NoDup (map fst files) ->
  (forall e, In e files -> NoDup (F e)) ->
  (forall e p, In e files -> In p (F e) ->
     exists rest, below dir p = Some (fst e :: rest)) ->
  NoDup (flat_map F files).
Proof.
  intros F dir. induction files as [|e files IH]; intros Hn Hc Hb; simpl;
    [constructor|].
  inversion Hn as [|x l Hx Hn']; subst.
  apply NoDup_app.
  - apply Hc. now left.
  - apply IH; [assumption| |]; intros; [apply Hc|eapply Hb]; eauto;
      now right.
  - intros p Hp Hq. apply in_flat_map in Hq. destruct Hq as [e' [He' Hq]].
    destruct (Hb e p (or_introl eq_refl) Hp) as [r1 H1].
    destruct (Hb e' p (or_intror He') Hq) as [r2 H2].
    assert (Hfst : fst e = fst e') by congruence.
    apply Hx. rewrite Hfst. now apply in_map.
Qed.

Lemma walkOrder_NoDup : forall fuel f dir, NoDup (walkOrder fuel f dir).
Proof.
  induction fuel as [|fuel IH]; intros f dir; cbn [walkOrder];
    (destruct (Fs.readdir f dir) as [e|files] eqn:Er; [constructor|]);
    (assert (Hn : NoDup (map fst files))
       by (unfold Fs.readdir in Er;
           destruct (Fs.is_file f dir); [discriminate|];
           destruct (Fs.is_dir f dir); [|discriminate];
           inversion Er; apply entries_NoDup));
    apply (flat_map_NoDup _ dir); try exact Hn;
    try (intros [n b] _; cbn [fst snd]; destruct b;
         [|constructor; [intros []|constructor]]);
    try (intros [n b] p _ Hp; cbn [fst snd] in *; destruct b;
         [|destruct Hp as [Hp|[]]; subst p; exists [];
           apply below_self_child]).
  - constructor.
  - contradiction.
  - apply IH.
  - destruct (walkOrder_below _ _ _ _ Hp) as [n' [rest Hb]].
    exists (n' :: rest). now apply below_child.
Qed.

Lemma filter_NoDup : forall A (g : A -> bool) l, NoDup l -> NoDup (filter g l).
Proof.
  intros A g l H. induction H as [|x l Hx Hl IH]; simpl; [constructor|].
  destruct (g x); [|exact IH]. constructor; [|exact IH].
  intro Hin. apply filter_In in Hin. now apply Hx.
Qed.

(** A document that [updateLinks] has rewritten holds the rewritten text,
    and no other file and no table has changed. *)
Lemma updateLinks_ok : forall p s s',
  updateLinks p s = Ok tt s' ->
  exists bytes out,
    Fs.lookup (Fs.files (fsys s)) p = Some bytes
    /\ rewrittenText (renamedFiles s) bytes out
    /\ Fs.lookup (Fs.files (fsys s')) p = Some out
    /\ (forall q, q <> p ->
          Fs.lookup (Fs.files (fsys s')) q = Fs.lookup (Fs.files (fsys s)) q)
    /\ renamedFiles s' = renamedFiles s.
Proof.
  intros p s s' H.
  destruct (Fs.readFile (fsys s) p) as [e|bytes] eqn:Er;
    [unfold updateLinks in H; rewrite Er in H; discriminate|].
  destruct (updateLinks_rewrites p s bytes Er) as [[out [Hrt [_ Hu]]]|[Hu _]];
    rewrite Hu in H; [|discriminate].
  destruct (Fs.writeFile (fsys s) p out) as [e|f] eqn:Ew; [discriminate|].
  inversion H; subst s'. destruct (writeFile_inr _ _ _ _ Ew) as [Hf _].
  exists bytes, out. cbn [fsys set_fs renamedFiles]. rewrite Hf.
  split; [now apply readFile_lookup|]. split; [exact Hrt|].
  split; [apply lookup_put_same|]. split; [|now destruct s].
  intros q Hq. now apply lookup_put_other.
Qed.

Lemma updateEach_contents : forall l s s',
  NoDup l -> updateEach l s = Ok tt s' ->
  (forall p, In p l ->
     exists bytes out,
       Fs.lookup (Fs.files (fsys s)) p = Some bytes
       /\ rewrittenText (renamedFiles s) bytes out
       /\ Fs.lookup (Fs.files (fsys s')) p = Some out)
  /\ (forall q, ~ In q l ->
        Fs.lookup (Fs.files (fsys s')) q = Fs.lookup (Fs.files (fsys s)) q)
  /\ renamedFiles s' = renamedFiles s.
Proof.
  induction l as [|a l IH]; intros s s' Hn H; simpl in H.
  - inversion H; subst s'. split; [intros p []|]. now split.
  - destruct (updateLinks a s) as [[] s1| | |] eqn:Hu; try discriminate.
    simpl in H. inversion Hn as [|x l' Ha Hn']; subst.
    destruct (updateLinks_ok _ _ _ Hu)
      as [bytes [out [Hb [Hrt [Hout [Hother Htab]]]]]].
    destruct (IH _ _ Hn' H) as [Hin [Hout' Htab']].
    split; [|split].
    + intros p [Hp|Hp].
      * subst p. exists bytes, out. split; [exact Hb|]. split; [exact Hrt|].
        now rewrite (Hout' a Ha).
      * destruct (Hin p Hp) as [bytes' [out' [Hb' [Hrt' Ho']]]].
        exists bytes', out'. rewrite <- Htab, <- Hother; [now split|].
        intro He. subst p. contradiction.
    + intros q Hq. rewrite Hout'; [|intro Hx; apply Hq; now right].
      apply Hother. intro He. subst q. apply Hq. now left.
    + congruence.
Qed.

(** C5, as the code has it.  [updateLinks] reads a document as text and
    replaces every wikilink, and then every Markdown link of the result,
    keeping every other character.  For each link the decoded target is
    looked up in the table with its path prefix (a wikilink target without
    extension with ".md" appended); the target without its prefix stands in
    only when the table gives no name for that key.  What was found is
    looked up once more and never again.  The alias of a wikilink and the
    text of a Markdown link are kept as they are.  The result is written
    back to the file; a target that does not decode stops the rewrite with
    a URIError and nothing is written, and a document that cannot be read
    stops it with the error of the read.  The pass over the output directory
    is [updateLinks] on each Markdown file of the directory's depth-first
    listing in turn, the listing holds every file below the directory, and
    when the pass returns every Markdown document below the directory
    holds the rewritten text of what it held before and every other file
    is as it was. *)
Theorem rewrite_link_lookup :
  (forall (filePath : path) (s : state) (bytes : string),
     Fs.readFile (fsys s) filePath = inr bytes ->
     let renamed := renamedFiles s in
     let wikilinks := Links.scan Links.wiki_match (Utf8.text bytes) 0 in
     (exists out : string,
        rewrittenText renamed bytes out
        /\ updateLinks filePath s
           = match Fs.writeFile (fsys s) filePath out with
             | inl e => Throw (IOError e filePath) s
             | inr f => Ok tt (set_fs s f)
             end)
     \/ (updateLinks filePath s = Throw URIError s
         /\ (undecodable (map fst (Links.matches_of wikilinks))
             \/ exists mid : string,
                  rewritten (wikilinkRewrite renamed) wikilinks mid
                  /\ undecodable
                       (map snd (Links.matches_of
                                   (Links.scan Links.md_match_rewrite mid 0))))))
  /\ (forall (filePath : path) (s : state) (e : Fs.errno),
        Fs.readFile (fsys s) filePath = inl e ->
        updateLinks filePath s = Throw (IOError e filePath) s)
  /\ (forall (depth : nat) (dir : path) (s : state),
        properTree (fsys s) = true ->
        Fs.is_dir (fsys s) dir = true ->
        Fs.depth (fsys s) <= List.length dir + depth + 1 ->
        updateLinksInDirectory depth dir s
        = updateEach (filter isMarkdown (walkOrder depth (fsys s) dir)) s
        /\ (forall p bytes rest,
              Fs.lookup (Fs.files (fsys s)) p = Some bytes ->
              below dir p = Some rest ->
              In p (walkOrder depth (fsys s) dir))
        /\ forall s',
             updateLinksInDirectory depth dir s = Ok tt s' ->
             (forall p bytes rest,
                Fs.lookup (Fs.files (fsys s)) p = Some bytes ->
                below dir p = Some rest -> isMarkdown p = true ->
                exists out,
                  rewrittenText (renamedFiles s) bytes out
                  /\ Fs.lookup (Fs.files (fsys s')) p = Some out)
             /\ (forall p,
                   below dir p = None \/ isMarkdown p = false ->
                   Fs.lookup (Fs.files (fsys s')) p
                   = Fs.lookup (Fs.files (fsys s)) p)).
Proof.
  split; [|split].
  - intros filePath s bytes Hr renamed wikilinks.
    destruct (updateLinks_rewrites filePath s bytes Hr)
      as [[out [Hrt [_ Hu]]]|H]; [left; now exists out|right; exact H].
  - intros filePath s e Hr. unfold updateLinks. now rewrite Hr.
  - intros depth dir s Ht Hdir Hd.
    assert (Hall : forall p bytes rest,
              Fs.lookup (Fs.files (fsys s)) p = Some bytes ->
              below dir p = Some rest ->
              In p (walkOrder depth (fsys s) dir)).
    { intros p bytes rest Hl Hb. apply lookup_In in Hl.
      apply (walkOrder_complete depth (fsys s) dir p bytes rest Ht Hd Hl Hb).
      intro He. subst rest. apply below_eq in Hb. rewrite app_nil_r in Hb.
      subst p. rewrite (properTree_file _ _ _ Ht Hl) in Hdir. discriminate. }
    split; [now apply updateLinksInDirectory_each|]. split; [exact Hall|].
    intros s' H. rewrite (updateLinksInDirectory_each _ _ _ Ht Hdir Hd) in H.
    destruct (updateEach_contents _ _ _
                (filter_NoDup _ _ _ (walkOrder_NoDup depth (fsys s) dir)) H)
      as [Hin [Hout _]].
    split.
    + intros p bytes rest Hl Hb Hm.
      destruct (Hin p) as [bytes' [out [Hb' [Hrt Ho]]]].
      * apply filter_In. split; [eapply Hall; eauto|exact Hm].
      * exists out. rewrite Hl in Hb'. inversion Hb'; subst bytes'. now split.
    + intros p Hp. apply Hout. intro Hx. apply filter_In in Hx.
      destruct Hx as [Hx Hm]. destruct Hp as [Hp|Hp]; [|congruence].
      destruct (walkOrder_below _ _ _ _ Hx) as [n [rest Hb]]. congruence.
Qed.

End Properties.

(** * Concrete stores

    The properties at concrete stores, and runs of the script on them, on
    the reference engine. *)

Lemma generateUniqueName_deterministic_witness :
  let f := Fs.Mk [(["v"; "a"; "x.md"], "Draft 1")] [] in
  let g := Fs.Mk [(["w"; "y.png"], "Draft 1")] [] in
  exists suffix : string,
    suffix = Str.take 8 (Sha256.hex "Draft 1") /\
    String.length suffix = 8 /\
    generateUniqueName ["v"; "a"; "x.md"] (initial f)
    = Ok ("x" ++ "_" ++ suffix ++ ".md")%string (initial f) /\
    generateUniqueName ["w"; "y.png"] (initial g)
    = Ok ("y" ++ "_" ++ suffix ++ ".png")%string (initial g).
Proof.
  intros f g.
  apply (generateUniqueName_deterministic (initial f) (initial g)
           ["v"; "a"; "x.md"] ["w"; "y.png"] "Draft 1"); reflexivity.
Defined.


Lemma rewrite_link_lookup_witness :
  let p := ["home"; "u"; "Index"; "Index.md"] in
  let bytes := "See [[a/x|the note]] and [pic](img/p%20q.png)." in
  let s := State (Fs.Mk [(p, bytes)] []) [] [] []
             [("a/x.md", "x_11111111.md"); ("x_11111111.md", "x_22222222.md");
              ("x_22222222.md", "x_33333333.md");
              ("img/p q.png", "p q_44444444.png")] [] in
  let s' := set_fs s (Fs.Mk [(p, "See [[x_22222222.md|the note]] and [pic](p%20q_44444444.png).")] []) in
  updateLinks p s = Ok tt s'
  /\ updateLinksInDirectory 4 ["home"; "u"; "Index"] s = Ok tt s'
  /\ ((exists out : string,
         rewrittenText (renamedFiles s) bytes out
         /\ updateLinks p s
            = match Fs.writeFile (fsys s) p out with
              | inl e => Throw (IOError e p) s
              | inr f => Ok tt (set_fs s f)
              end)
      \/ (updateLinks p s = Throw URIError s
          /\ (undecodable
                (map fst (Links.matches_of
                            (Links.scan Links.wiki_match (Utf8.text bytes) 0)))
              \/ exists mid : string,
                   rewritten (wikilinkRewrite (renamedFiles s))
                     (Links.scan Links.wiki_match (Utf8.text bytes) 0) mid
                   /\ undecodable
                        (map snd (Links.matches_of
                                    (Links.scan Links.md_match_rewrite mid 0))))))
  /\ exists out,
       rewrittenText (renamedFiles s) bytes out
       /\ Fs.lookup (Fs.files (fsys s')) p = Some out.
Proof.
  intros p bytes s s'. split; [vm_compute; reflexivity|].
  split; [vm_compute; reflexivity|]. split.
  - exact (proj1 rewrite_link_lookup p s bytes eq_refl).
  - refine (proj1 (proj2 (proj2 (proj2 (proj2 rewrite_link_lookup) 4
                                   ["home"; "u"; "Index"] s eq_refl eq_refl _))
                     s' _)
              p bytes ["Index.md"] eq_refl eq_refl eq_refl).
    + vm_compute. lia.
    + vm_compute. reflexivity.
Defined.

(** The lookup as the specification words it misses a key that carries a
    path prefix, which the code finds. *)
Lemma rewrite_lookup_after_dropping_prefix_counterexample :
  let renamed := [("sub/x.png", "x_1a2b3c4d.png")] in
  rewriteWikilink renamed ("sub/x.png", None) = Some "[[x_1a2b3c4d.png]]"
  /\ option_map (fun n => wikilinkText n None)
       (specRewriteTarget renamed "sub/x.png") = Some "[[x.png]]"
  /\ rewriteWikilink renamed ("sub/x.png", None)
     <> option_map (fun n => wikilinkText n None)
          (specRewriteTarget renamed "sub/x.png").
Proof.
  cbv zeta. split; [reflexivity|]. split; [reflexivity|].
  vm_compute. discriminate.
Qed.

Lemma resolveFilePath_order_witness :
  let s := initial (Fs.Mk [(VAULT_DIR ++ ["a"; "deep"; "B.md"], "first");
                           (VAULT_DIR ++ ["b"; "B.md"], "second")] []) in
  let basePath := VAULT_DIR ++ ["Index.md"] in
  (resolveFilePath basePath "B.md" s = Ok (Some (VAULT_DIR ++ ["a"; "deep"; "B.md"])) s
   /\ Some (VAULT_DIR ++ ["a"; "deep"; "B.md"])
      = find (fun p => String.eqb (basename p) "B.md")
          (walkOrder (Fs.depth (fsys s)) (fsys s) VAULT_DIR))
  /\ (Str.includes Str.slash "C.md" = false /\ s = s
      /\ forall rest outputDir,
           eachAttachment ("C.md" :: rest) basePath outputDir s
           = eachAttachment rest basePath outputDir
               (logWarning s ("Attachment not found: " ++ "C.md"))).
Proof.
  intros s basePath. split.
  - split; [vm_compute; reflexivity|].
    refine (proj2 (proj1 (proj2 (proj1 (proj2 (resolveFilePath_order basePath
                                                 "B.md" s)) _ _)) _ s _)).
    + reflexivity.
    + vm_compute; discriminate.
    + vm_compute; reflexivity.
  - apply (proj1 (proj2 (proj2 (proj2 (resolveFilePath_order basePath "C.md" s)))) s).
    vm_compute; reflexivity.
Defined.

(** A target with a path that names no file still resolves to a path: no
    not-found signal is returned. *)
Lemma resolveFilePath_not_found_counterexample :
  let s := initial (Fs.Mk [(VAULT_DIR ++ ["Index.md"], "[[img/none.png]]")] []) in
  let basePath := VAULT_DIR ++ ["Index.md"] in
  Fs.access (fsys s) (VAULT_DIR ++ ["img"; "none.png"]) = Some Fs.ENOENT
  /\ resolveFilePath basePath "img/none.png" s
     = Ok (Some (VAULT_DIR ++ ["img"; "none.png"])) s
  /\ Fs.access (fsys s) (VAULT_DIR ++ ["none.png"]) = Some Fs.ENOENT
  /\ resolveFilePath basePath "./none.png" s
     = Ok (Some (VAULT_DIR ++ ["none.png"])) s.
Proof. cbv zeta. repeat split; reflexivity. Qed.

(** C7, at an input where the code departs from it: the seed is Index.md
    and links to another note sub/Index.md.  The test for "already in the
    output directory" looks at the stem of the note alone, so the linked
    note is registered in place under its vault path and never copied: the
    references directory stays empty although the note lies outside the
    output root. *)
Theorem note_of_seed_stem_not_exported :
  let f := Fs.Mk [(VAULT_DIR ++ ["Index.md"], "see [[sub/Index]]");
                  (VAULT_DIR ++ ["sub"; "Index.md"], "another note")] [] in
  let cwd := ["home"; "u"] in
  exists s,
    main 5 (Some "Index.md") cwd f = Ended 0 s
    /\ inOutputDir cwd (cwd ++ ["Index"]) "Index.md" = true
    /\ uniqueNotes s = [(VAULT_DIR ++ ["sub"; "Index.md"], "sub/Index.md")]
    /\ below (cwd ++ ["Index"]) (VAULT_DIR ++ ["sub"; "Index.md"]) = None
    /\ copiesOf (fsys s) (cwd ++ ["Index"]) "another note" = 0%nat
    /\ Fs.readdir (fsys s) (cwd ++ ["Index"]) = inr [("Index.md", false)]
    /\ console s = [Info "Destination Path: /home/u/Index"].
Proof.
  cbv zeta. eexists. split; [vm_compute; reflexivity|].
  repeat split; reflexivity.
Qed.

Lemma same_name_same_content_exported_once_witness :
  let out := ["home"; "u"; "Index"] in
  let f := Fs.Mk [(VAULT_DIR ++ ["a"; "x.png"], "PNG");
                  (VAULT_DIR ++ ["b"; "x.png"], "PNG");
                  (out ++ ["attachments"; "x.png"], "PNG");
                  (out ++ ["references"; "x.png"], "PNG")] [] in
  let s := State f [(out ++ ["attachments"; "x.png"], "a/x.png")]
                 [(out ++ ["references"; "x.png"], "a/x.png")] [] [] [] in
  (exists s', exportAttachment "b/x.png" (VAULT_DIR ++ ["b"; "x.png"]) out s
              = Ok tt s' /\ sameStore s s')
  /\ (exists s', exportNote "b/x.png" (VAULT_DIR ++ ["b"; "x.png"]) out s
                 = Ok false s' /\ sameStore s s').
Proof.
  intros out f s. split.
  - apply (proj1 (same_name_same_content_exported_once "b/x.png"
                    (VAULT_DIR ++ ["b"; "x.png"]) out s
                    (out ++ ["attachments"; "x.png"]) "a/x.png" "PNG"
                    eq_refl eq_refl eq_refl)).
    left. reflexivity.
  - apply (proj2 (same_name_same_content_exported_once "b/x.png"
                    (VAULT_DIR ++ ["b"; "x.png"]) out s
                    (out ++ ["references"; "x.png"]) "a/x.png" "PNG"
                    eq_refl eq_refl eq_refl)).
    left. reflexivity.
Defined.

(** Two attachments of the same bytes under different names are both
    copied: the output holds two files of that content. *)
Lemma same_content_two_names_counterexample :
  let f := Fs.Mk [(VAULT_DIR ++ ["Index.md"], "![[a.png]] and ![[b.png]]");
                  (VAULT_DIR ++ ["img"; "a.png"], "PNG");
                  (VAULT_DIR ++ ["img"; "b.png"], "PNG")] [] in
  let out := ["home"; "u"; "Index"] in
  exists s,
    main 5 (Some "Index.md") ["home"; "u"] f = Ended 0 s
    /\ Fs.readFile (fsys s) (out ++ ["attachments"; "a.png"]) = inr "PNG"
    /\ Fs.readFile (fsys s) (out ++ ["attachments"; "b.png"]) = inr "PNG"
    /\ copiesOf (fsys s) out "PNG" = 2%nat.
Proof.
  cbv zeta. eexists. split; [vm_compute; reflexivity|].
  repeat split; reflexivity.
Qed.

(** C8, at an input where the code departs from it: the seed embeds an
    attachment that exists and cannot be read.  The failed access is
    thrown, ends the walk before anything is copied into attachments,
    skips the rewrite pass and is printed by the handler of [main], which
    sets no exit code: the process ends with exit code 0.  A failed read
    of the same file inside [generateUniqueName] ends the process with exit
    code 1. *)
Theorem io_failure_ends_with_exit_code_zero :
  let p := VAULT_DIR ++ ["img"; "p.png"] in
  let f := Fs.Mk [(VAULT_DIR ++ ["Index.md"], "![[p.png]]"); (p, "PNG")] [p] in
  (exists s,
     main 5 (Some "Index.md") ["home"; "u"] f = Ended 0 s
     /\ console s = [Info "Destination Path: /home/u/Index"; Err "Error"]
     /\ Fs.is_file (fsys s) ["home"; "u"; "Index"; "attachments"; "p.png"]
        = false)
  /\ copyFileToOutput p ["home"; "u"; "Index"; "attachments"; "p.png"]
       (initial f)
     = Throw (IOError Fs.EACCES p) (initial f)
  /\ exists s, generateUniqueName p (initial f) = Exit 1 s.
Proof.
  cbv zeta. split; [|split; [reflexivity|eexists; reflexivity]].
  eexists. split; [vm_compute; reflexivity|].
  split; reflexivity.
Qed.

(** A note target with a path that names no file: the copy only warns, but
    the walk then reads the missing note for its links and the run ends
    there; the next link is never followed. *)
Example missing_note_with_path_aborts :
  let f := Fs.Mk [(VAULT_DIR ++ ["Index.md"], "[[gone/Note]] then [[Other]]");
                  (VAULT_DIR ++ ["Other.md"], "other")] [] in
  exists s,
    main 5 (Some "Index.md") ["home"; "u"] f = Ended 0 s
    /\ console s
       = [Info "Destination Path: /home/u/Index";
          Warn "Source file not found: /Users/avcton/Mind Palace/gone/Note.md";
          Err "Error"]
    /\ Fs.is_file (fsys s) ["home"; "u"; "Index"; "references"; "Other.md"]
       = false.
Proof.
  cbv zeta. eexists. split; [vm_compute; reflexivity|].
  split; reflexivity.
Qed.



(** The attachments path when the pattern built from the stem does not
    match the renamed file: "photo (1)" is read as a pattern with a group,
    so the test fails after the rename and the candidate keeps its natural
    name, without an entry in the RenameTable. *)
Example attachment_collision_pattern_miss :
  let f := Fs.Mk [(VAULT_DIR ++ ["Index.md"],
                   "![[a/photo (1).png]] ![[b/photo (1).png]]");
                  (VAULT_DIR ++ ["a"; "photo (1).png"], "AAA");
                  (VAULT_DIR ++ ["b"; "photo (1).png"], "BBBB")] [] in
  let out := ["home"; "u"; "Index"] in
  exists s,
    main 5 (Some "Index.md") ["home"; "u"] f = Ended 0 s
    /\ existingCheck "photo (1)" "photo (1)_cb1ad211.png" = Some false
    /\ Fs.readdir (fsys s) (out ++ ["attachments"])
       = inr [("photo (1)_cb1ad211.png", false); ("photo (1).png", false)]
    /\ renamedFiles s = [("a/photo (1).png", "photo (1)_cb1ad211.png")].
Proof.
  cbv zeta. eexists. split; [vm_compute; reflexivity|].
  repeat split; vm_compute; reflexivity.
Qed.

(** A cycle of two notes, walked from the first once it is copied into the
    output directory: the walk ends with both targets visited once. *)
Lemma walk_terminates_witness :
  let f := Fs.Mk [(VAULT_DIR ++ ["A.md"], "to [[B]]");
                  (VAULT_DIR ++ ["B.md"], "to [[A]]");
                  (["home"; "u"; "A"; "A.md"], "to [[B]]")] [] in
  let s := initial f in
  pending (noteLinksOf (contents (fsys s))) (visitedNotes s) = 2
  /\ (exists s',
        resolveAndCopyNotes 3 ["home"; "u"] ["B.md"] (VAULT_DIR ++ ["A.md"])
          ["home"; "u"; "A"] s = Ok tt s'
        /\ visitedNotes s' = ["B.md"; "A.md"])
  /\ ends grown s
       (resolveAndCopyNotes 3 ["home"; "u"] ["B.md"] (VAULT_DIR ++ ["A.md"])
          ["home"; "u"; "A"] s).
Proof.
  intros f s. split; [reflexivity|].
  split; [eexists; split; vm_compute; reflexivity|].
  apply walk_terminates.
  - intros x [Hx|[]]. subst x. vm_compute. left. reflexivity.
  - vm_compute. lia.
Defined.

(** C3, at an input where the code departs from it: a folder with the two
    notes A and B that link to each other.  The walk ends, each target is
    visited once, but the test for "already in the output directory" (see
    [note_of_seed_stem_not_exported]) does not see that A and B are seeds
    of the run: both are also copied into references, so each of them is in
    the output twice. *)
Theorem cyclic_pair_in_folder_exported_twice :
  let f := Fs.Mk [(VAULT_DIR ++ ["proj"; "A.md"], "to [[B]]");
                  (VAULT_DIR ++ ["proj"; "B.md"], "to [[A]]")] [] in
  let out := ["home"; "u"; "proj"] in
  exists s,
    main 5 (Some "proj") ["home"; "u"] f = Ended 0 s
    /\ visitedNotes s = ["B.md"; "A.md"]
    /\ map fst (filter (fun e => match below out (fst e) with
                                 | Some _ => true
                                 | None => false
                                 end) (Fs.files (fsys s)))
       = [out ++ ["proj"; "A.md"]; out ++ ["references"; "B.md"];
          out ++ ["references"; "A.md"]; out ++ ["proj"; "B.md"]]
    /\ copiesOf (fsys s) out "to [[B]]" = 2
    /\ copiesOf (fsys s) out "to [[A]]" = 2.
Proof.
  cbv zeta. eexists. split; [vm_compute; reflexivity|].
  repeat split; vm_compute; reflexivity.
Qed.

(** The same cycle from the single seed A.md: B links back to the seed,
    whose stem is the name of the output directory, and each note is in the
    output once. *)
Example cyclic_pair_single_seed :
  let f := Fs.Mk [(VAULT_DIR ++ ["A.md"], "to [[B]]");
                  (VAULT_DIR ++ ["B.md"], "to [[A]]")] [] in
  let out := ["home"; "u"; "A"] in
  exists s,
    main 5 (Some "A.md") ["home"; "u"] f = Ended 0 s
    /\ visitedNotes s = ["B.md"; "A.md"]
    /\ copiesOf (fsys s) out "to [[B]]" = 1
    /\ copiesOf (fsys s) out "to [[A]]" = 1.
Proof.
  cbv zeta. eexists. split; [vm_compute; reflexivity|].
  repeat split; vm_compute; reflexivity.
Qed.

Lemma fresh_export_under_basename_witness :
  let out := ["home"; "u"; "Index"] in
  let rp := VAULT_DIR ++ ["img"; "p.png"] in
  let s := State (Fs.Mk [(rp, "PNG"); (out ++ ["Index.md"], "![[p.png]]");
                         (out ++ ["attachments"; "q.png"], "Q")] [])
                 [(out ++ ["attachments"; "q.png"], "q.png")] [] [] [] [] in
  (exists s',
     exportAttachment "p.png" rp out s = Ok tt s'
     /\ Fs.lookup (Fs.files (fsys s')) (child (attachmentsDir out) "p.png")
        = Some "PNG"
     /\ (forall q, q <> child (attachmentsDir out) "p.png" ->
         Fs.lookup (Fs.files (fsys s')) q = Fs.lookup (Fs.files (fsys s)) q)
     /\ renamedFiles s' = renamedFiles s
     /\ In (child (attachmentsDir out) "p.png", "p.png") (uniqueAttachments s'))
  /\ (exists s',
        exportNote "p.png" rp out s = Ok true s'
        /\ Fs.lookup (Fs.files (fsys s')) (child (referencesDir out) "p.png")
           = Some "PNG"
        /\ (forall q, q <> child (referencesDir out) "p.png" ->
            Fs.lookup (Fs.files (fsys s')) q = Fs.lookup (Fs.files (fsys s)) q)
        /\ renamedFiles s' = renamedFiles s
        /\ In (child (referencesDir out) "p.png", "p.png") (uniqueNotes s')).
Proof.
  intros out rp s.
  assert (Hp : plainName (basename rp)).
  { unfold plainName. repeat split; try reflexivity; vm_compute; discriminate. }
  split.
  - apply (proj1 (fresh_export_under_basename "p.png" out rp s "PNG"
                    eq_refl Hp)); reflexivity.
  - apply (proj2 (fresh_export_under_basename "p.png" out rp s "PNG"
                    eq_refl Hp)); reflexivity.
Defined.

Lemma note_skipped_only_if_identical_witness :
  let out := ["home"; "u"; "Index"] in
  let rp := VAULT_DIR ++ ["b"; "x.md"] in
  let s := State (Fs.Mk [(VAULT_DIR ++ ["a"; "x.md"], "same");
                         (rp, "same");
                         (out ++ ["references"; "x.md"], "same")] [])
                 [] [(out ++ ["references"; "x.md"], "a/x.md")] [] [] [] in
  let s' := emit s (Info "Note already exists (same content): b/x.md") in
  sameStore s s'
  /\ exists existingPath ref c,
       In (existingPath, ref) (uniqueNotes s)
       /\ basename existingPath = basename rp
       /\ Fs.readFile (fsys s) existingPath = inr c
       /\ Fs.readFile (fsys s) rp = inr c.
Proof.
  intros out rp s s'.
  apply (note_skipped_only_if_identical "b/x.md" rp out s s'). reflexivity.
Defined.

Lemma copyFileToOutput_effect_witness :
  let s := initial (Fs.Mk [(["v"; "a.md"], "A")] []) in
  copyFileToOutput ["v"; "gone.md"] ["o"; "gone.md"] s
  = Ok tt (logWarning s ("Source file not found: " ++ show ["v"; "gone.md"]))
  /\ copyFileToOutput ["v"; "a.md"; "x.png"] ["o"; "x.png"] s
     = Throw (IOError Fs.ENOTDIR ["v"; "a.md"; "x.png"]) s.
Proof.
  intro s. split.
  - apply (proj1 (proj2 (copyFileToOutput_effect ["v"; "gone.md"]
                           ["o"; "gone.md"] s))).
    reflexivity.
  - apply (proj1 (proj2 (proj2 (copyFileToOutput_effect ["v"; "a.md"; "x.png"]
                                  ["o"; "x.png"] s))) Fs.ENOTDIR).
    + reflexivity.
    + discriminate.
Defined.

Lemma rev_to_append : forall a b acc,
  Str.rev_to (a ++ b) acc = Str.rev_to b (Str.rev_to a acc).
Proof.
  induction a as [|c a IH]; intros b acc; simpl; [reflexivity|apply IH].
Qed.

Lemma prefix_append : forall p q, String.prefix p (p ++ q) = true.
Proof.
  induction p as [|c p IH]; intro q; simpl; [now destruct q|].
  destruct (Ascii.ascii_dec c c) as [_|N]; [apply IH|now elim N].
Qed.

Lemma endsWith_append : forall a b, Str.endsWith b (a ++ b) = true.
Proof.
  intros a b. unfold Str.endsWith, Str.rev.
  rewrite rev_to_append, (rev_to_app b (Str.rev_to a "")).
  apply prefix_append.
Qed.

(** The reference engine on the collision pattern of a stem: the stem's
    pattern followed by the tail, matched against the whole name. *)
Lemma reference_existingCheck : forall stem name,
  existingCheck stem name
  = match Regex.parse stem with
    | Some r => Some (Regex.matches (Regex.Seq r Regex.suffix_re) name)
    | None => None
    end.
Proof.
  intros stem name. unfold existingCheck, existingCheckRegex.
  cbn [RegExp referenceEngine]. unfold Regex.compile.
  change ("^" ++ stem ++ "(_[a-zA-Z0-9]+)?\.[a-zA-Z0-9]+$")%string
    with (String "^"%char (stem ++ Regex.tail)).
  cbv iota beta.
  rewrite endsWith_append, string_length_app, Nat.add_sub, take_app_exact.
  now destruct (Regex.parse stem).
Qed.

(** For a stem without pattern metacharacters the collision pattern
    compiles, and it matches the natural name stem.ext as well as every
    name stem_word.ext, among them every unique name that
    [generateUniqueName] forms from the stem: a file renamed after an
    earlier collision is still recognised as a namesake. *)
Theorem existingCheck_plain_stem :
  forall (stem ext : string),
    Str.forallb Regex.plain stem = true ->
    alnumWord ext = true ->
    existingCheck stem (stem ++ "." ++ ext) = Some true
    /\ (forall word, alnumWord word = true ->
        existingCheck stem (stem ++ "_" ++ word ++ "." ++ ext) = Some true)
    /\ (forall content,
        existingCheck stem (stem ++ "_" ++ hashSuffix content ++ "." ++ ext)
        = Some true).
Proof.
  intros stem ext Hs He.
  assert (Hparse : Regex.parse stem = Some (literal Regex.Eps stem)).
  { unfold Regex.parse. rewrite (parse_seq_plain _ _ _ Hs); [reflexivity|lia]. }
  assert (Hstem : Regex.matches (literal Regex.Eps stem) stem = true).
  { apply (matches_literal stem Regex.Eps EmptyString). reflexivity. }
  assert (Hext : Regex.matches
                   (Regex.Seq (Regex.Chr "."%char) (Regex.Plus Regex.Alnum))
                   ("." ++ ext) = true).
  { apply (matches_seq (String "."%char "")); [apply matches_chr|].
    now apply matches_plus_alnum. }
  assert (Hword : forall word, alnumWord word = true ->
            existingCheck stem (stem ++ "_" ++ word ++ "." ++ ext) = Some true).
  { intros word Hw. rewrite reference_existingCheck, Hparse. f_equal.
    apply matches_seq; [exact Hstem|]. unfold Regex.suffix_re.
    replace ("_" ++ word ++ "." ++ ext)%string
      with (("_" ++ word) ++ ("." ++ ext))%string.
    - apply matches_seq; [|exact Hext]. unfold Regex.Opt.
      rewrite matches_alt. apply orb_true_iff. left.
      apply (matches_seq (String "_"%char "")); [apply matches_chr|].
      now apply matches_plus_alnum.
    - reflexivity. }
  split; [|split].
  - rewrite reference_existingCheck, Hparse. f_equal.
    apply matches_seq; [exact Hstem|]. unfold Regex.suffix_re.
    apply (matches_seq EmptyString); [reflexivity|exact Hext].
  - exact Hword.
  - intro content. apply Hword. apply hashSuffix_alnumWord.
Qed.

Lemma existingCheck_plain_stem_witness :
  existingCheck "my photo-1" ("my photo-1" ++ "." ++ "png") = Some true
  /\ (forall word, alnumWord word = true ->
      existingCheck "my photo-1" ("my photo-1" ++ "_" ++ word ++ "." ++ "png")
      = Some true)
  /\ (forall content,
      existingCheck "my photo-1"
        ("my photo-1" ++ "_" ++ hashSuffix content ++ "." ++ "png") = Some true).
Proof. apply existingCheck_plain_stem; reflexivity. Defined.

Lemma generateUniqueName_shape_witness :
  let p := ["v"; "img"; "my.photo.png"] in
  let s := initial (Fs.Mk [(p, "PNG")] []) in
  generateUniqueName p s
  = Ok ("my.photo" ++ "_" ++ Str.take 8 (Sha256.hex "PNG") ++ ".png")%string s
  /\ parse_name "my.photo.png" = "my.photo"
  /\ parse_ext "my.photo.png" = ".png".
Proof.
  intros p s. split; [|split; reflexivity].
  exact (proj1 (generateUniqueName_shape p s "PNG" eq_refl eq_refl)).
Defined.

Lemma no_bracket_no_links_witness :
  let bytes := "plain text, (round) {curly} and ]] closing only" in
  let p := ["home"; "u"; "Index"; "Index.md"] in
  linksOfContent bytes = Some (MkLinks [] [])
  /\ updateLinks p (initial (Fs.Mk [(p, bytes)] []))
     = Ok tt (initial (Fs.Mk [(p, bytes)] []))
  /\ updateLinks p (initial (Fs.Make [(p, bytes)] [] [p]))
     = Throw (IOError Fs.EACCES p) (initial (Fs.Make [(p, bytes)] [] [p])).
Proof.
  intros bytes p. split; [|split].
  - exact (proj1 (no_bracket_no_links bytes eq_refl)).
  - exact (proj2 (proj2 (proj2 (no_bracket_no_links bytes eq_refl))) eq_refl
             p (initial (Fs.Mk [(p, bytes)] [])) eq_refl eq_refl).
  - exact (proj1 (proj2 (proj2 (no_bracket_no_links bytes eq_refl)))
             p (initial (Fs.Make [(p, bytes)] [] [p])) eq_refl).
Defined.

Lemma processFolder_only_markdown_witness :
  let folder := ["v"; "proj"] in
  let s := initial (Fs.Mk [(["v"; "proj"; "a.md"], "x");
                           (["v"; "proj"; "pic.png"], "y");
                           (["v"; "proj"; "sub"; "b.txt"], "z")] []) in
  let act := fun p s' => Ok tt (logWarning s' (show p)) in
  let act' := fun p s' =>
    if Str.endsWith ".md" (basename p) then Ok tt (logWarning s' (show p))
    else Throw SyntaxError s' in
  processFolderWith act 3 folder s = processFolderWith act' 3 folder s.
Proof.
  intros folder s act act'.
  apply (processFolder_only_markdown act act' 3 folder s).
  intros p s' Hp. unfold act, act'. now rewrite Hp.
Defined.


(** Started inside the vault on the folder [notes], the run has its output
    directory at the input folder: the rewrite pass then rewrites the source
    document as well. *)
Example run_inside_vault_rewrites_source :
  let src := VAULT_DIR ++ ["notes"; "A.md"] in
  let f := Fs.Mk [(src, "![[a/x.png]] ![[b/x.png]]");
                  (VAULT_DIR ++ ["a"; "x.png"], "AAA");
                  (VAULT_DIR ++ ["b"; "x.png"], "BBB")] [] in
  exists s,
    main 6 (Some "notes") VAULT_DIR f = Ended 0 s
    /\ inside (join VAULT_DIR (outputName (join VAULT_DIR "notes"))) src = true
    /\ Fs.lookup (Fs.files (fsys s)) src
       = Some "![[x_cb1ad211.png]] ![[x_dcdb7041.png]]".
Proof.
  cbv zeta. eexists. split; [vm_compute; reflexivity|].
  split; reflexivity.
Qed.

(** A link whose target is nowhere in the vault: the walk warns, the
    rewrite pass leaves the link as it is written, and the output holds no
    file that the link could name. *)
Example link_to_missing_target_stays :
  let f := Fs.Mk [(VAULT_DIR ++ ["Index.md"], "see [[Ghost]]")] [] in
  let out := ["home"; "u"; "Index"] in
  exists s,
    main 5 (Some "Index.md") ["home"; "u"] f = Ended 0 s
    /\ console s = [Info "Destination Path: /home/u/Index";
                    Warn "Note not found: Ghost.md"]
    /\ Fs.lookup (Fs.files (fsys s)) (out ++ ["Index.md"]) = Some "see [[Ghost]]"
    /\ walkOrder (Fs.depth (fsys s)) (fsys s) out = [out ++ ["Index.md"]].
Proof.
  cbv zeta. eexists. split; [vm_compute; reflexivity|].
  repeat split; vm_compute; reflexivity.
Qed.

Lemma inOutputDir_compares_stem_witness :
  inOutputDir ["home"; "u"] (child ["home"; "u"] "Index") "Index.md" = true
  /\ inOutputDir ["home"; "u"] (child ["home"; "u"] "Index") "Other.md" = false.
Proof.
  split.
  - rewrite inOutputDir_compares_stem; [reflexivity|].
    unfold plainName. repeat split; try reflexivity; vm_compute; discriminate.
  - rewrite inOutputDir_compares_stem; [reflexivity|].
    unfold plainName. repeat split; try reflexivity; vm_compute; discriminate.
Defined.


Lemma not_found_only_if_absent_witness :
  let s := initial (Fs.Mk [(["Users"; "avcton"; "Mind Palace"; "notes"; "A.md"],
                            "text")] []) in
  resolveFilePath ["Users"; "avcton"; "Mind Palace"; "notes"; "A.md"] "B.md" s
    = Ok None s
  /\ basename ["Users"; "avcton"; "Mind Palace"; "notes"; "A.md"] <> "B.md".
Proof.
  split; [vm_compute; reflexivity|].
  refine (proj2 (not_found_only_if_absent
                   ["Users"; "avcton"; "Mind Palace"; "notes"; "A.md"] "B.md"
                   (initial (Fs.Mk [(["Users"; "avcton"; "Mind Palace";
                                      "notes"; "A.md"], "text")] [])) _)
                _ _ _ "text" ["notes"; "A.md"] _ _ _).
  - vm_compute; reflexivity.
  - vm_compute; reflexivity.
  - left; reflexivity.
  - vm_compute; reflexivity.
  - discriminate.
Defined.

Lemma parsed_links_classified_once_witness :
  let p := ["Users"; "avcton"; "Mind Palace"; "A.md"] in
  let s := initial (Fs.Mk [(p, "See [[B#Intro|b]] and ![pic](img/c.png).")] []) in
  parseMarkdownForLinks p s = Ok (MkLinks ["img/c.png"] ["B.md"]) s
  /\ Forall (fun x => headingFree x = true) (["img/c.png"] ++ ["B.md"]).
Proof.
  split; [vm_compute; reflexivity|].
  refine (proj2 (proj2 (parsed_links_classified_once
     ["Users"; "avcton"; "Mind Palace"; "A.md"]
     (initial (Fs.Mk [(["Users"; "avcton"; "Mind Palace"; "A.md"],
                       "See [[B#Intro|b]] and ![pic](img/c.png).")] []))
     _ (MkLinks ["img/c.png"] ["B.md"]) _))).
  vm_compute; reflexivity.
Defined.
